(** * Constraint extraction of [src/constraint.js]: a shallow embedding

    The JavaScript module exports one function, [constraints(filePath)].  It
    reads a subject file, parses it with esprima and walks the syntax tree
    twice over: an outer walk that discovers function declarations and an
    inner walk, per declaration, that applies a fixed catalogue of syntactic
    recognizers and pushes [Constraint] objects into a shared
    [functionConstraints] object.

    The embedding keeps the duck typing of the source: a syntax tree is a
    JavaScript value (objects, arrays and primitives), property reads are
    looked up by name and raise [TypeError] on [undefined] and [null], and the
    extraction runs in a state-and-exception monad whose state is the shared
    [functionConstraints] object together with the state of the random
    source used by [randexp].

    Layout: the JavaScript operations the module relies on ([JsString],
    [RegExp], [parseInt], [StringToNumber], [Js], the two lodash functions); the data
    the extractor builds; the host (file system, parser, random source);
    the recognizers, [traverse] and [constraints]; syntax trees of sample
    programs; then the properties, first of one visit of the inner walk,
    then of the whole extraction, and last their instances on the samples.
    The second half of the properties covers the branches of the catalogue
    and the behaviour of the walks that the first half leaves out, again
    with instances on sample programs.

    Conventions of the model: a text is a list of code units below 256; a
    number the extractor computes is a double, which here has an integer
    value, or is an infinity or [NaN]; an object lists its own enumerable
    properties in enumeration order. *)

From Stdlib Require Import String Ascii List ZArith Lia Bool Arith DecimalString.
Import ListNotations.
Open Scope string_scope.
Open Scope list_scope.
Open Scope nat_scope.

Set Implicit Arguments.
Set Warnings "-register-all".

(* ================================================================== *)
(** * JavaScript text *)

Module JsString.

Definition code (c : ascii) : nat := nat_of_ascii c.

Definition is_digit (c : ascii) : bool :=
  (48 <=? code c) && (code c <=? 57).

(** [WhiteSpace] and [LineTerminator] code units below 256. *)
Definition is_space (c : ascii) : bool :=
  let n := code c in
  (n =? 9) || (n =? 10) || (n =? 11) || (n =? 12) || (n =? 13)
  || (n =? 32) || (n =? 160).

(** The characters [.] does not match in a regular expression without the
    [s] flag. *)
Definition is_line_terminator (c : ascii) : bool :=
  (code c =? 10) || (code c =? 13).

Definition is_quote (c : ascii) : bool :=
  (code c =? 39) || (code c =? 34).

Definition chars (s : string) : list ascii := list_ascii_of_string s.
Definition text (l : list ascii) : string := string_of_list_ascii l.

(** [s.substring(a, b)] on indices that are already integers: both are
    clamped to the length and swapped when out of order. *)
Definition substring (s : string) (a b : nat) : string :=
  let len := String.length s in
  let a' := Nat.min a len in
  let b' := Nat.min b len in
  String.substring (Nat.min a' b') (Nat.max a' b' - Nat.min a' b') s.

(** Value of a digit in a radix up to 16, [None] for any other character. *)
Definition digit_value (radix : nat) (c : ascii) : option nat :=
  let n := code c in
  let v :=
    if (48 <=? n) && (n <=? 57) then Some (n - 48)
    else if (97 <=? n) && (n <=? 102) then Some (n - 87)
    else if (65 <=? n) && (n <=? 70) then Some (n - 55)
    else None in
  match v with
  | Some d => if d <? radix then Some d else None
  | None => None
  end.

(** Longest prefix of digits of the radix, read as a number, with the number
    of digits read and the rest of the text. *)
Fixpoint read_digits (radix : nat) (acc : Z) (count : nat) (l : list ascii)
  : Z * nat * list ascii :=
  match l with
  | c :: l' =>
      match digit_value radix c with
      | Some d => read_digits radix (acc * Z.of_nat radix + Z.of_nat d) (S count) l'
      | None => (acc, count, l)
      end
  | [] => (acc, count, l)
  end.

Fixpoint drop_while (f : ascii -> bool) (l : list ascii) : list ascii :=
  match l with
  | c :: l' => if f c then drop_while f l' else l
  | [] => []
  end.

Definition trim (l : list ascii) : list ascii :=
  rev (drop_while is_space (rev (drop_while is_space l))).

(** The double quote character, as a text. *)
Definition dquote : string := String "034"%char EmptyString.

Definition string_of_Z (z : Z) : string :=
  NilZero.string_of_int (Z.to_int z).

End JsString.

(* ================================================================== *)
(** * Regular expressions

    The matcher of a pattern without flags, for the constructs of the one
    pattern the recognizers use.  A construct hands the positions it can
    end at to its continuation, a greedy star the longest run first, and
    the engine tries the pattern at every start index in turn. *)

Module RegExp.

Inductive node : Type :=
| Begin
| End_
| Chars (accept : ascii -> bool)
| Star (accept : ascii -> bool)
| Group (body : node)
| Cat (a b : node).

(** A position in the input, the characters before it last first, and
    the text the group has captured. *)
Record state : Type := {
  seen : list ascii;
  rest : list ascii;
  group : option string
}.

Definition continuation : Type := state -> option state.

(** A starred class of characters. *)
Fixpoint star (accept : ascii -> bool) (l seen : list ascii)
         (group : option string) (k : continuation) : option state :=
  let here := k {| seen := seen; rest := l; group := group |} in
  match l with
  | c :: l' =>
      if accept c then
        match star accept l' (c :: seen) group k with
        | Some st => Some st
        | None => here
        end
      else here
  | [] => here
  end.

Fixpoint matcher (r : node) (st : state) (k : continuation) : option state :=
  match r with
  | Begin => match seen st with [] => k st | _ :: _ => None end
  | End_ => match rest st with [] => k st | _ :: _ => None end
  | Chars accept =>
      match rest st with
      | c :: l =>
          if accept c
          then k {| seen := c :: seen st; rest := l; group := group st |}
          else None
      | [] => None
      end
  | Star accept => star accept (rest st) (seen st) (group st) k
  | Group body =>
      matcher body st (fun st' =>
        k {| seen := seen st'; rest := rest st';
             group := Some (JsString.text
                              (skipn (length (seen st)) (rev (seen st')))) |})
  | Cat a b => matcher a st (fun st' => matcher b st' k)
  end.

(** The first start index at which the pattern matches. *)
Fixpoint exec_from (r : node) (seen rest : list ascii) : option state :=
  match matcher r {| seen := seen; rest := rest; group := None |} Some with
  | Some st => Some st
  | None =>
      match rest with
      | c :: l => exec_from r (c :: seen) l
      | [] => None
      end
  end.

(** [s.match(r)]: [None] for [null], else what the group has captured,
    [None] for [undefined]. *)
Definition match_ (r : node) (s : string) : option (option string) :=
  option_map group (exec_from r [] (JsString.chars s)).

(** The dot: any character but a line terminator. *)
Definition dot (c : ascii) : bool := negb (JsString.is_line_terminator c).

(** The pattern of the recognizers: the start of the text, a single or a
    double quote, the group of a starred dot, a single or a double quote,
    the end of the text. *)
Definition quoted : node :=
  Cat Begin
    (Cat (Chars JsString.is_quote)
       (Cat (Group (Star dot))
          (Cat (Chars JsString.is_quote) End_))).

End RegExp.

(* ================================================================== *)
(** * JavaScript numbers

    A number is a double.  The numbers the extractor computes are the
    results of [parseInt] and of adding or subtracting one: an integer that
    is a double, an infinity or [NaN]. *)

Module Double.

(** Numerator and denominator of [(n / d) / 2^e]. *)
Definition scaled (n d e : Z) : Z * Z :=
  if (0 <=? e)%Z then (n, d * 2 ^ e)%Z else (n * 2 ^ (- e), d)%Z.

(** The double nearest to the positive rational [n / d], ties going to the
    even significand: the pair [(q, e)] stands for [q * 2^e], with
    [q <= 2^53] and [-1074 <= e], the least exponent of a double; [None]
    when the nearest double is an infinity. *)
Definition nearest (n d : Z) : option (Z * Z) :=
  let e0 := (Z.log2 n - Z.log2 d - 52)%Z in
  let '(n0, d0) := scaled n d e0 in
  let e1 := if (n0 / d0 <? 2 ^ 52)%Z then (e0 - 1)%Z else e0 in
  let e := Z.max e1 (-1074) in
  let '(n1, d1) := scaled n d e in
  let q := (n1 / d1)%Z in
  let r := (n1 mod d1)%Z in
  let q' := if (d1 <? 2 * r)%Z || ((d1 =? 2 * r)%Z && Z.odd q)
            then (q + 1)%Z else q in
  if (0 <=? e)%Z && (2 ^ 1024 <=? q' * 2 ^ e)%Z then None else Some (q', e).

(** The least integer that is not below [q * 2^e]. *)
Definition ceiling (q e : Z) : Z :=
  if (0 <=? e)%Z then (q * 2 ^ e)%Z else ((q + 2 ^ (- e) - 1) / 2 ^ (- e))%Z.

End Double.

Inductive jsnum : Type :=
| NaN
| Num (z : Z)
| Infinite (negative : bool).

(** The double nearest to an integer: the integer itself up to 2^53 in
    magnitude, a multiple of a power of two or an infinity beyond. *)
Definition round_integer (z : Z) : jsnum :=
  if (Z.abs z <=? 2 ^ 53)%Z then Num z
  else
    match Double.nearest (Z.abs z) 1 with
    | Some (q, e) => Num (Z.sgn z * (q * 2 ^ e))
    | None => Infinite (z <? 0)%Z
    end.

(** [n + k] for an integer [k], rounded as the addition of doubles is. *)
Definition jsnum_add (n : jsnum) (k : Z) : jsnum :=
  match n with
  | NaN => NaN
  | Num z => round_integer (z + k)
  | Infinite negative => Infinite negative
  end.

(** [parseInt(text)] with no radix argument: leading white space is dropped,
    a sign is read, a [0x] or [0X] prefix selects radix 16, and the longest
    run of digits is converted to the nearest double; no digit at all
    gives [NaN]. *)
Definition parseInt (s : string) : jsnum :=
  let l := JsString.drop_while JsString.is_space (JsString.chars s) in
  let '(negative, l) :=
    match l with
    | "-"%char :: l' => (true, l')
    | "+"%char :: l' => (false, l')
    | _ => (false, l)
    end in
  let '(radix, l) :=
    match l with
    | "0"%char :: "x"%char :: l' => (16, l')
    | "0"%char :: "X"%char :: l' => (16, l')
    | _ => (10, l)
    end in
  match JsString.read_digits radix 0 0 l with
  | (_, O, _) => NaN
  | (z, S _, _) => round_integer (if negative then - z else z)
  end.

(** The text of a numeric literal read as a decimal
    ([StringToNumber], before the rounding to a double): a decimal
    [m * 10^e] kept exactly, an infinity, or [NaN]. *)
Inductive strnum : Type :=
| SNaN
| SInf (negative : bool)
| SDec (m : Z) (e : Z).

Module StringToNumber.
Import JsString.

Definition all_read (radix : nat) (l : list ascii) : strnum :=
  match read_digits radix 0 0 l with
  | (z, S _, []) => SDec z 0
  | _ => SNaN
  end.

(** Optional exponent part at the end of a decimal literal. *)
Definition exponent (l : list ascii) : option Z :=
  match l with
  | [] => Some 0%Z
  | c :: l' =>
      if (code c =? 101) || (code c =? 69) then
        let '(negative, l'') :=
          match l' with
          | "-"%char :: r => (true, r)
          | "+"%char :: r => (false, r)
          | _ => (false, l')
          end in
        match read_digits 10 0 0 l'' with
        | (z, S _, []) => Some (if negative then (- z)%Z else z)
        | _ => None
        end
      else None
  end.

Definition decimal (negative : bool) (l : list ascii) : strnum :=
  let '(ip, ni, l1) := read_digits 10 0 0 l in
  let '(fp, nf, l2) :=
    match l1 with
    | "."%char :: r => read_digits 10 ip 0 r
    | _ => (ip, 0, l1)
    end in
  match ni + nf with
  | O => SNaN
  | S _ =>
      match exponent l2 with
      | Some e => SDec (if negative then - fp else fp) (e - Z.of_nat nf)
      | None => SNaN
      end
  end.

Definition signed (negative : bool) (l : list ascii) : strnum :=
  if String.eqb (text l) "Infinity" then SInf negative else decimal negative l.

Definition of_string (s : string) : strnum :=
  match trim (chars s) with
  | [] => SDec 0 0
  | "0"%char :: "x"%char :: l | "0"%char :: "X"%char :: l => all_read 16 l
  | "0"%char :: "o"%char :: l | "0"%char :: "O"%char :: l => all_read 8 l
  | "0"%char :: "b"%char :: l | "0"%char :: "B"%char :: l => all_read 2 l
  | "-"%char :: l => signed true l
  | "+"%char :: l => signed false l
  | l => signed false l
  end.

End StringToNumber.

(* ================================================================== *)
(** * JavaScript values and syntax trees

    A syntax tree as the parser returns it is plain data: objects whose own
    enumerable properties are listed in enumeration order, arrays and
    primitives.  The value of a regular-expression literal is a regular
    expression object: it has no enumerable property and prints as its
    source text, [/ab/g].

    A number inside a tree is [Int z] when it is integral (ranges, line and
    column numbers, integer literals below 10^21, which print in plain
    decimal) and [Flt repr] otherwise, [repr] being the text [String(n)]
    gives; the extractor never computes with such a number, it can only
    print it.  [NaN] does not occur in a tree.  Property names are the
    field names of the parser's node types: none contains a dot. *)

Inductive number : Type :=
| Int (z : Z)
| Flt (repr : string).

Inductive jsval : Type :=
| VUndefined
| VNull
| VBool (b : bool)
| VNum (n : number)
| VStr (s : string)
| VArr (elems : list jsval)
| VObj (props : list (string * jsval))
| VRegExp (text : string).

Inductive exn : Type :=
| TypeError
| RangeError
| IOError (code : string)
| ParseError (description : string).

Inductive result (A : Type) : Type :=
| Ok (a : A)
| Throw (e : exn).

Arguments Ok {A} a.
Arguments Throw {A} e.

(** Sequencing of computations that may raise. *)
Definition rbind {A B : Type} (r : result A) (f : A -> result B) : result B :=
  match r with
  | Ok a => f a
  | Throw e => Throw e
  end.

Fixpoint rmap {A B : Type} (f : A -> result B) (l : list A) : result (list B) :=
  match l with
  | [] => Ok []
  | a :: l' => rbind (f a) (fun b => rbind (rmap f l') (fun bs => Ok (b :: bs)))
  end.

Declare Scope result_scope.
Delimit Scope result_scope with result.
Notation "x <- m ;; k" := (rbind m (fun x => k))
  (at level 61, m at next level, right associativity) : result_scope.

Module Js.
Import JsString.

Definition number_to_string (n : number) : string :=
  match n with
  | Int z => string_of_Z z
  | Flt repr => repr
  end.

Definition join (sep : string) (l : list string) : string :=
  match l with
  | [] => EmptyString
  | s :: l' => fold_left (fun acc x => acc ++ sep ++ x)%string l' s
  end.

(** [String(v)], which is also how a value becomes a property key and how
    a template literal prints it. *)
Fixpoint ToString (v : jsval) : string :=
  match v with
  | VUndefined => "undefined"
  | VNull => "null"
  | VBool true => "true"
  | VBool false => "false"
  | VNum n => number_to_string n
  | VStr s => s
  | VArr elems =>
      join ","
        (map (fun e =>
                match e with
                | VUndefined | VNull => EmptyString
                | _ => ToString e
                end) elems)
  | VObj _ => "[object Object]"
  | VRegExp text => text
  end.

Definition ToBoolean (v : jsval) : bool :=
  match v with
  | VUndefined | VNull => false
  | VBool b => b
  | VNum (Int z) => negb (z =? 0)%Z
  | VNum (Flt _) => true
  | VStr s => negb (String.eqb s EmptyString)
  | VArr _ | VObj _ | VRegExp _ => true
  end.

Definition ToNumber (v : jsval) : strnum :=
  match v with
  | VUndefined => SNaN
  | VNull => SDec 0 0
  | VBool b => SDec (if b then 1 else 0) 0
  | VNum (Int z) => SDec z 0
  | VNum (Flt repr) => StringToNumber.of_string repr
  | VStr s => StringToNumber.of_string s
  | VArr _ => StringToNumber.of_string (ToString v)
  | VObj _ | VRegExp _ => SNaN
  end.

(** An array index as a property key: the canonical decimal text of a
    natural number. *)
Definition array_index (key : string) : option nat :=
  match chars key with
  | [] => None
  | c :: l =>
      if forallb is_digit (c :: l)
         && ((code c =? 48) && (length l =? 0) || negb (code c =? 48))
      then match read_digits 10 0 0 (c :: l) with
           | (z, _, _) => Some (Z.to_nat z)
           end
      else None
  end.

Fixpoint lookup {A : Type} (key : string) (props : list (string * A)) : option A :=
  match props with
  | [] => None
  | (k, a) :: props' => if String.eqb k key then Some a else lookup key props'
  end.

(** [v[key]] for the property names the extractor reads: own properties of
    objects, elements and length of arrays and strings; [undefined] for a
    missing property, which every name the extractor reads is on a
    regular expression; a [TypeError] on [undefined] and [null]. *)
Definition get (v : jsval) (key : string) : result jsval :=
  match v with
  | VUndefined | VNull => Throw TypeError
  | VBool _ | VNum _ => Ok VUndefined
  | VStr s =>
      match array_index key with
      | Some i =>
          match String.get i s with
          | Some c => Ok (VStr (String c EmptyString))
          | None => Ok VUndefined
          end
      | None =>
          if String.eqb key "length"
          then Ok (VNum (Int (Z.of_nat (String.length s))))
          else Ok VUndefined
      end
  | VArr elems =>
      match array_index key with
      | Some i => Ok (nth i elems VUndefined)
      | None =>
          if String.eqb key "length"
          then Ok (VNum (Int (Z.of_nat (length elems))))
          else Ok VUndefined
      end
  | VObj props =>
      match lookup key props with
      | Some a => Ok a
      | None => Ok VUndefined
      end
  | VRegExp _ => Ok VUndefined
  end.

(** [a === b].  Two objects or arrays met at two places of a tree are two
    objects, so they are never identical. *)
Definition strict_eq (a b : jsval) : bool :=
  match a, b with
  | VUndefined, VUndefined => true
  | VNull, VNull => true
  | VBool x, VBool y => Bool.eqb x y
  | VNum (Int x), VNum (Int y) => (x =? y)%Z
  | VNum (Flt x), VNum (Flt y) => String.eqb x y
  | VStr x, VStr y => String.eqb x y
  | _, _ => false
  end.

(** [v === "text"]. *)
Definition is_text (v : jsval) (s : string) : bool := strict_eq v (VStr s).

(** [typeof v === 'object' && v !== null]. *)
Definition is_object (v : jsval) : bool :=
  match v with
  | VArr _ | VObj _ | VRegExp _ => true
  | _ => false
  end.

(** Index argument of [substring]: [NaN] and negatives are 0, the fraction
    is dropped, and the result is capped at the length. *)
Definition clamp_index (n : strnum) (len : nat) : nat :=
  match n with
  | SNaN => 0
  | SInf negative => if negative then 0 else len
  | SDec m e =>
      let z := if (0 <=? e)%Z then (m * 10 ^ e)%Z else Z.quot m (10 ^ (- e)) in
      Nat.min (Z.to_nat z) len
  end.

(** [s.substring(a, b)] on arbitrary arguments; an [undefined] end is the
    length. *)
Definition substring (s : string) (a b : jsval) : string :=
  let len := String.length s in
  let start := clamp_index (ToNumber a) len in
  let stop := match b with
              | VUndefined => len
              | _ => clamp_index (ToNumber b) len
              end in
  JsString.substring s start stop.

(** The match of the pattern the recognizers apply to the right-hand
    text, and its group: [Some] of the captured run when the text
    matches, [None] for [null]. *)
Definition match_quoted (s : string) : option string :=
  match RegExp.match_ RegExp.quoted s with
  | Some captured => captured
  | None => None
  end.

End Js.

(** lodash's [_.get(object, path)] for a path given as its list of keys: the
    walk stops with [undefined] as soon as it meets [undefined] or [null].
    (The dotted path is split at the dots because no property of a node
    has a dot in its name.) *)
Fixpoint lodash_get (v : jsval) (path : list string) : jsval :=
  match path with
  | [] => v
  | key :: path' =>
      match Js.get v key with
      | Ok v' => lodash_get v' path'
      | Throw _ => VUndefined
      end
  end.

(** lodash's [_.includes(array, x)]. *)
Definition lodash_includes (l : list jsval) (x : jsval) : bool :=
  existsb (Js.strict_eq x) l.

(** [_.includes(['!=', '!==', '==', '==='], op)]. *)
Definition is_equality_operator (op : jsval) : bool :=
  lodash_includes [VStr "!="; VStr "!=="; VStr "=="; VStr "==="] op.

(** [_.includes(['<', '>'], op)]. *)
Definition is_relational_operator (op : jsval) : bool :=
  lodash_includes [VStr "<"; VStr ">"] op.

(* ================================================================== *)
(** * The data the extractor builds *)

Inductive kind : Type :=
| fileWithContent
| fileExists
| integer
| Kstring
| phoneNumber.

(** What a recognizer stores in [value]: a text, a number or [false]. *)
Inductive cvalue : Type :=
| Text (s : string)
| Number (n : jsnum)
| False_.

Module Constraint.
(** [class Constraint]: the constructor copies the seven properties; no
    recognizer passes [altvalue], which stays [undefined]. *)
Record t : Type := new {
  ident : jsval;
  expression : string;
  operator : jsval;
  value : cvalue;
  altvalue : jsval;
  funcName : jsval;
  kind_ : kind
}.
End Constraint.

(** A JavaScript object used as a map: its properties in insertion order,
    which is the order of enumeration as long as no key is an array index.
    The keys of the extractor are names of functions and of parameters. *)
Module Obj.
Definition t (A : Type) : Type := list (string * A).

Definition get {A : Type} (key : string) (o : t A) : option A := Js.lookup key o.

(** [o[key] = a]: an existing property keeps its place. *)
Fixpoint set {A : Type} (key : string) (a : A) (o : t A) : t A :=
  match o with
  | [] => [(key, a)]
  | (k, x) :: o' =>
      if String.eqb k key then (k, a) :: o' else (k, x) :: set key a o'
  end.

Definition keys {A : Type} (o : t A) : list string := map fst o.
End Obj.

Module FunctionRecord.
Record t : Type := new {
  constraints : Obj.t (list Constraint.t);
  params : list jsval
}.
End FunctionRecord.

(** The object [functionConstraints].  Assigning to the key [__proto__] of
    an object literal replaces its prototype and creates no property, and
    reading that key gives the prototype back. *)
Module FunctionConstraints.
Record t : Type := new {
  own : Obj.t FunctionRecord.t;
  proto : option FunctionRecord.t
}.

Definition empty : t := new [] None.

Definition get (key : string) (fc : t) : option FunctionRecord.t :=
  if String.eqb key "__proto__" then proto fc else Obj.get key (own fc).

Definition set (key : string) (r : FunctionRecord.t) (fc : t) : t :=
  if String.eqb key "__proto__" then new (own fc) (Some r)
  else new (Obj.set key r (own fc)) (proto fc).

(** [fc[f].constraints[k].push(c)]; [None] when [fc[f]] or the list is
    missing, where the source raises a [TypeError]. *)
Definition push (f k : string) (c : Constraint.t) (fc : t) : option t :=
  match get f fc with
  | Some r =>
      match Obj.get k (FunctionRecord.constraints r) with
      | Some l =>
          Some (set f (FunctionRecord.new
                         (Obj.set k (l ++ [c]) (FunctionRecord.constraints r))
                         (FunctionRecord.params r)) fc)
      | None => None
      end
  | None => None
  end.

(** The list of constraints recorded for parameter key [k] of function
    key [f]. *)
Definition constraints_of (f k : string) (fc : t) : option (list Constraint.t) :=
  match get f fc with
  | Some r => Obj.get k (FunctionRecord.constraints r)
  | None => None
  end.
End FunctionConstraints.

(** [_.zipObject(params, _.map(params, () => []))]. *)
Definition zipObject_empty (params : list jsval) : Obj.t (list Constraint.t) :=
  fold_left (fun o p => Obj.set (Js.ToString p) [] o) params [].

(* ================================================================== *)
(** * The host: file system, parser, random source and engine *)

Record Options : Type := {
  tokens : bool;
  tolerant : bool;
  loc : bool;
  range : bool
}.

Definition options : Options :=
  {| tokens := true; tolerant := true; loc := true; range := true |}.

(** What the module requires from outside the repository.  [randexp_gen] is
    [new randexp(/[0-9]{10}/).gen()], which draws from a random source whose
    state is [Rand].  The Mersenne-Twister [engine] the module also creates
    feeds [createConcreteIntegerValue] only, which no recognizer calls: the
    extraction never reads it.  [text_limit] is the maximal length of a
    text of the engine: a concatenation beyond it raises a [RangeError].
    An engine whose heap is exhausted before that length is aborted
    instead, without an exception; the model has no outcome for this and
    takes the host to have the memory for the texts within the limit. *)
Class Host : Type := {
  Rand : Type;
  randexp_gen : Rand -> string * Rand;
  readFileSync : string -> result string;
  esprima_parse : string -> Options -> result jsval;
  text_limit : Z
}.

(* ================================================================== *)
(** * The extraction monad: shared state and exceptions *)

Section Extractor.

Context {host : Host}.

Record State : Type := {
  functionConstraints : FunctionConstraints.t;
  rand : Rand
}.

(** The state after a change of the shared object. *)
Definition with_constraints (s : State) (fc : FunctionConstraints.t) : State :=
  {| functionConstraints := fc; rand := rand s |}.

Definition M (A : Type) : Type := State -> result (A * State).

Definition ret {A : Type} (a : A) : M A := fun s => Ok (a, s).

Definition bind {A B : Type} (m : M A) (f : A -> M B) : M B :=
  fun s =>
    match m s with
    | Ok (a, s') => f a s'
    | Throw e => Throw e
    end.

Definition lift {A : Type} (r : result A) : M A :=
  fun s =>
    match r with
    | Ok a => Ok (a, s)
    | Throw e => Throw e
    end.

Fixpoint for_each {A : Type} (l : list A) (body : A -> M unit) : M unit :=
  match l with
  | [] => ret tt
  | a :: l' => bind (body a) (fun _ => for_each l' body)
  end.

End Extractor.

Declare Scope js_scope.
Delimit Scope js_scope with js.
Notation "x <- m ;; k" := (bind m (fun x => k))
  (at level 61, m at next level, right associativity) : js_scope.
Notation "m ;; k" := (bind m (fun _ => k))
  (at level 61, right associativity) : js_scope.
Open Scope js_scope.

(* ================================================================== *)
(** * The recognizers and the two walks *)

Section Catalogue.

Context {host : Host}.

Import JsString (dquote).

(** A property read inside the monad. *)
Definition prop (v : jsval) (key : string) : M jsval := lift (Js.get v key).

(** [buf.substring(node.range[0], node.range[1])]. *)
Definition source_text (buf : string) (node : jsval) : result string :=
  (r0 <- Js.get node "range" ;;
   a <- Js.get r0 "0" ;;
   r1 <- Js.get node "range" ;;
   b <- Js.get r1 "1" ;;
   Ok (Js.substring buf a b))%result.

(** [new randexp(/[0-9]{10}/).gen()]. *)
Definition gen : M string :=
  fun s =>
    let (text, r) := randexp_gen (rand s) in
    Ok (text, {| functionConstraints := functionConstraints s; rand := r |}).

(** [functionConstraints[funcName].constraints[ident].push(c)]. *)
Definition push (funcName ident : jsval) (c : Constraint.t) : M unit :=
  fun s =>
    match FunctionConstraints.push (Js.ToString funcName) (Js.ToString ident) c
            (functionConstraints s) with
    | Some fc => Ok (tt, with_constraints s fc)
    | None => Throw TypeError
    end.

(** [functionConstraints[funcName] = { constraints: ..., params: params }]. *)
Definition init_record (funcName : jsval) (params : list jsval) : M unit :=
  fun s =>
    Ok (tt, with_constraints s
              (FunctionConstraints.set (Js.ToString funcName)
                 (FunctionRecord.new (zipObject_empty params) params)
                 (functionConstraints s))).

Section Visitor.

(** What the inner visitor closes over. *)
Variable buf : string.
Variable funcName : jsval.
Variable params : list jsval.

Definition constraint (ident : jsval) (v : cvalue) (k : kind)
           (op : jsval) (expression : string) : Constraint.t :=
  Constraint.new ident expression op v VUndefined funcName k.

(** Handle properties of a parameter in an expression. *)
Definition handle_property (child : jsval) : M unit :=
  ty <- prop child "type" ;;
  if Js.is_text ty "UnaryExpression" then
    argument <- prop child "argument" ;;
    aty <- prop argument "type" ;;
    if Js.is_text aty "MemberExpression" then
      expression <- lift (source_text buf child) ;;
      for_each params (fun p =>
        argument <- prop child "argument" ;;
        object <- prop argument "object" ;;
        name <- prop object "name" ;;
        if Js.strict_eq name p then
          let ident := p in
          argument <- prop child "argument" ;;
          property <- prop argument "property" ;;
          property_name <- prop property "name" ;;
          op <- prop child "operator" ;;
          push funcName ident
            (constraint p
               (Text (Js.ToString ident ++ " = {'"
                      ++ Js.ToString property_name ++ "': true}"))
               Kstring op expression) ;;
          op <- prop child "operator" ;;
          push funcName ident (constraint p False_ Kstring op expression)
        else ret tt)
    else ret tt
  else ret tt.

(** The test shared by the two file-system recognizers:
    [child.type === "CallExpression" && child.callee.property &&
     child.callee.property.name === method]. *)
Definition is_call_of (method : string) (child : jsval) : result bool :=
  (ty <- Js.get child "type" ;;
   if Js.is_text ty "CallExpression" then
     callee <- Js.get child "callee" ;;
     property <- Js.get callee "property" ;;
     if Js.ToBoolean property then
       callee <- Js.get child "callee" ;;
       property <- Js.get callee "property" ;;
       name <- Js.get property "name" ;;
       Ok (Js.is_text name method)
     else Ok false
   else Ok false)%result.

(** The loop of the two file-system recognizers: for every index [p] of
    [params] with [child.arguments[0].name === params[p]], push one
    constraint per entry of [fixtures]. *)
Definition push_fixtures (fixtures : list (string * kind))
           (expression : string) (child : jsval) : M unit :=
  for_each params (fun p =>
    arguments <- prop child "arguments" ;;
    first <- prop arguments "0" ;;
    name <- prop first "name" ;;
    if Js.strict_eq name p then
      let ident := p in
      for_each fixtures (fun fx =>
        op <- prop child "operator" ;;
        push funcName ident
          (constraint p (Text (fst fx)) (snd fx) op expression))
    else ret tt).

Definition readFileSync_fixtures : list (string * kind) :=
  [ ("'pathContent/file1'", fileWithContent);
    ("'pathContent/someDir'", fileWithContent);
    ("'file'", fileExists) ]%string.

Definition readdirSync_fixtures : list (string * kind) :=
  [ ("'emptyDir'", fileExists);
    ("'nonEmptyDir'", fileExists) ]%string.

(** Handle fs.readFileSync. *)
Definition handle_readFileSync (child : jsval) : M unit :=
  b <- lift (is_call_of "readFileSync" child) ;;
  if b then
    expression <- lift (source_text buf child) ;;
    push_fixtures readFileSync_fixtures expression child
  else ret tt.

(** Handle fs.readdirSync. *)
Definition handle_readdirSync (child : jsval) : M unit :=
  b <- lift (is_call_of "readdirSync" child) ;;
  if b then
    expression <- lift (source_text buf child) ;;
    push_fixtures readdirSync_fixtures expression child
  else ret tt.

(** [buf.substring(child.right.range[0], child.right.range[1])]. *)
Definition right_hand (child : jsval) : result string :=
  (r <- Js.get child "right" ;;
   r0 <- Js.get r "range" ;;
   a <- Js.get r0 "0" ;;
   r' <- Js.get child "right" ;;
   r1 <- Js.get r' "range" ;;
   b <- Js.get r1 "1" ;;
   Ok (Js.substring buf a b))%result.

(** [match[1]], a [TypeError] when [match] is [null]. *)
Definition group1 (m : option string) : result string :=
  match m with
  | Some inner => Ok inner
  | None => Throw TypeError
  end.

(** Handle equivalence expression and random phone numbers. *)
Definition handle_equivalence (child : jsval) : M unit :=
  if Js.is_text (lodash_get child ["type"]) "BinaryExpression"
     && is_equality_operator (lodash_get child ["operator"])
  then
    if Js.is_text (lodash_get child ["left"; "type"]) "Identifier" then
      left <- prop child "left" ;;
      ident <- prop left "name" ;;
      expression <- lift (source_text buf child) ;;
      rightHand <- lift (right_hand child) ;;
      let match_ := Js.match_quoted rightHand in
      if lodash_includes params (lodash_get child ["left"; "name"]) then
        op <- prop child "operator" ;;
        push funcName ident
          (constraint ident (Text rightHand) integer op expression) ;;
        op <- prop child "operator" ;;
        push funcName ident
          (constraint ident
             (match match_ with
              | Some inner => Text ("'NEQ - " ++ inner ++ "'")
              | None => Number NaN
              end)
             integer op expression)
      else
        if length params =? 1 then
          let ident := nth 0 params VUndefined in
          phone_number <- gen ;;
          inner <- lift (group1 match_) ;;
          let phone_number :=
            (inner ++ JsString.substring phone_number 3
                        (String.length phone_number))%string in
          op <- prop child "operator" ;;
          push funcName ident
            (constraint ident (Text ("'NEQ - " ++ rightHand ++ "'"))
               Kstring op expression) ;;
          op <- prop child "operator" ;;
          push funcName ident
            (constraint ident (Text (dquote ++ phone_number ++ dquote))
               Kstring op expression)
        else ret tt
    else ret tt
  else ret tt.

(** Handle greater and less than expression. *)
Definition handle_relational (child : jsval) : M unit :=
  if Js.is_text (lodash_get child ["type"]) "BinaryExpression"
     && is_relational_operator (lodash_get child ["operator"])
  then
    if Js.is_text (lodash_get child ["left"; "type"]) "Identifier" then
      left <- prop child "left" ;;
      ident <- prop left "name" ;;
      expression <- lift (source_text buf child) ;;
      rightHand <- lift (right_hand child) ;;
      if lodash_includes params (lodash_get child ["left"; "name"]) then
        op <- prop child "operator" ;;
        push funcName ident
          (constraint ident (Number (jsnum_add (parseInt rightHand) (-1)))
             integer op expression) ;;
        op <- prop child "operator" ;;
        push funcName ident
          (constraint ident (Number (jsnum_add (parseInt rightHand) 1))
             integer op expression)
      else ret tt
    else ret tt
  else ret tt.

(** Number of rounds of [for (var i = 0; i < rightHand; i++)].  The
    counter is compared with the double the text converts to, so the loop
    makes as many rounds as the least integer that is not below that
    double; [None] when the loop has no last round: the double is an
    infinity, or it is beyond 2^53, where adding one to the counter no
    longer changes it. *)
Definition filler_rounds (rightHand : string) : option Z :=
  let bounded (n : jsnum) : option Z :=
    match n with
    | Num rounds => if (2 ^ 53 <? rounds)%Z then None else Some rounds
    | _ => None
    end in
  match StringToNumber.of_string rightHand with
  | SNaN => Some 0%Z
  | SInf negative => if negative then Some 0%Z else None
  | SDec m e =>
      if (m <=? 0)%Z then Some 0%Z
      else if (0 <=? e)%Z then bounded (round_integer (m * 10 ^ e))
      else
        match Double.nearest m (10 ^ (- e)) with
        | Some (q, e2) => bounded (Num (Double.ceiling q e2))
        | None => None
        end
  end.

(** The padded word: a run of [a], then the search token.  The loop, and
    the concatenation after it, raise a [RangeError] as soon as the text
    would be longer than the limit of the engine; a loop without a last
    round always gets there. *)
Definition padded_word (rightHand : string) (given_word : jsval)
  : result string :=
  match filler_rounds rightHand with
  | Some n =>
      if (n + Z.of_nat (String.length (Js.ToString given_word)) <=? text_limit)%Z
      then Ok (JsString.text (repeat "a"%char (Z.to_nat n))
               ++ Js.ToString given_word)%string
      else Throw RangeError
  | None => Throw RangeError
  end.

(** [`'${word}'`], within the same limit. *)
Definition single_quoted (word : string) : result string :=
  if (Z.of_nat (String.length word) + 2 <=? text_limit)%Z
  then Ok ("'" ++ word ++ "'")%string
  else Throw RangeError.

(** Handle 'string' substring, [indexOf]. *)
Definition handle_indexOf (child : jsval) : M unit :=
  if Js.is_text (lodash_get child ["type"]) "BinaryExpression"
     && is_equality_operator (lodash_get child ["operator"])
  then
    if Js.is_text (lodash_get child ["left"; "type"]) "CallExpression"
       && Js.is_text (lodash_get child ["left"; "callee"; "type"]) "MemberExpression"
    then
      left <- prop child "left" ;;
      callee <- prop left "callee" ;;
      object <- prop callee "object" ;;
      ident <- prop object "name" ;;
      left <- prop child "left" ;;
      arguments <- prop left "arguments" ;;
      first <- prop arguments "0" ;;
      given_word <- prop first "value" ;;
      expression <- lift (source_text buf child) ;;
      rightHand <- lift (right_hand child) ;;
      word <- lift (padded_word rightHand given_word) ;;
      if lodash_includes params
           (lodash_get child ["left"; "callee"; "object"; "name"])
      then
        value <- lift (single_quoted word) ;;
        op <- prop child "operator" ;;
        push funcName ident (constraint ident (Text value) Kstring op expression)
      else ret tt
    else ret tt
  else ret tt.

(** The visitor of the inner walk: every recognizer, in the order of
    the source. *)
Definition visit_child (child : jsval) : M unit :=
  handle_property child ;;
  handle_readFileSync child ;;
  handle_readdirSync child ;;
  handle_equivalence child ;;
  handle_relational child ;;
  handle_indexOf child.

End Visitor.

(** [traverse(object, visitor)]: the visitor on the object, then the walk
    of every own property that is an object or an array, in enumeration
    order. *)
Fixpoint traverse (object : jsval) (visitor : jsval -> M unit) {struct object}
  : M unit :=
  visitor object ;;
  match object with
  | VObj props =>
      (fix children (ps : list (string * jsval)) : M unit :=
         match ps with
         | [] => ret tt
         | (_, child) :: ps' =>
             (if Js.is_object child then traverse child visitor else ret tt) ;;
             children ps'
         end) props
  | VArr elems =>
      (fix children (es : list jsval) : M unit :=
         match es with
         | [] => ret tt
         | child :: es' =>
             (if Js.is_object child then traverse child visitor else ret tt) ;;
             children es'
         end) elems
  | _ => ret tt
  end.

(** [functionName(node)]: [node.id ? node.id.name : '']. *)
Definition functionName (node : jsval) : result jsval :=
  (id <- Js.get node "id" ;;
   if Js.ToBoolean id then
     id <- Js.get node "id" ;;
     Js.get id "name"
   else Ok (VStr EmptyString))%result.

(** [node.params.map(function (p) { return p.name })]; anything but an
    array has no [map] to call. *)
Definition param_names (node : jsval) : result (list jsval) :=
  (ps <- Js.get node "params" ;;
   match ps with
   | VArr elems => rmap (fun p => Js.get p "name") elems
   | _ => Throw TypeError
   end)%result.

(** The visitor of the outer walk. *)
Definition visit_node (buf : string) (node : jsval) : M unit :=
  ty <- prop node "type" ;;
  if Js.is_text ty "FunctionDeclaration" then
    funcName <- lift (functionName node) ;;
    params <- lift (param_names node) ;;
    init_record funcName params ;;
    traverse node (visit_child buf funcName params)
  else ret tt.

(** [constraints(filePath)], started with the random source in state [r]. *)
Definition constraints (filePath : string) (r : Rand)
  : result (FunctionConstraints.t * Rand) :=
  match readFileSync filePath with
  | Throw e => Throw e
  | Ok buf =>
      match esprima_parse buf options with
      | Throw e => Throw e
      | Ok result =>
          match traverse result (visit_node buf)
                  {| functionConstraints := FunctionConstraints.empty; rand := r |} with
          | Throw e => Throw e
          | Ok (_, s) => Ok (functionConstraints s, rand s)
          end
      end
  end.

End Catalogue.

(* ================================================================== *)
(** * The nodes a walk visits *)

(** The objects [traverse] hands to its visitor, in the order of the
    calls. *)
Fixpoint nodes (object : jsval) : list jsval :=
  object ::
  match object with
  | VObj props =>
      (fix children (ps : list (string * jsval)) : list jsval :=
         match ps with
         | [] => []
         | (_, child) :: ps' =>
             (if Js.is_object child then nodes child else []) ++ children ps'
         end) props
  | VArr elems =>
      (fix children (es : list jsval) : list jsval :=
         match es with
         | [] => []
         | child :: es' =>
             (if Js.is_object child then nodes child else []) ++ children es'
         end) elems
  | _ => []
  end.

(* ================================================================== *)
(** * Syntax trees of sample programs

    The parser is not part of the repository.  The builders below give the
    shape of the nodes it returns with the options of the module: the
    fields of the node kind, then [range] and [loc].  Every sample is one
    line of text, so a column is an offset. *)

Module Esprima.

Definition int (n : nat) : jsval := VNum (Int (Z.of_nat n)).

Definition position (column : nat) : jsval :=
  VObj [("line", int 1); ("column", int column)].

Definition located (fields : list (string * jsval)) (a b : nat) : jsval :=
  VObj (fields ++
        [("range", VArr [int a; int b]);
         ("loc", VObj [("start", position a); ("end", position b)])]).

Definition token (type value : string) : nat -> nat -> jsval :=
  located [("type", VStr type); ("value", VStr value)].

Definition Identifier (name : string) : nat -> nat -> jsval :=
  located [("type", VStr "Identifier"); ("name", VStr name)].

Definition Literal (value : jsval) (raw : string) : nat -> nat -> jsval :=
  located [("type", VStr "Literal"); ("value", value); ("raw", VStr raw)].

Definition MemberExpression (object property : jsval) : nat -> nat -> jsval :=
  located [("type", VStr "MemberExpression"); ("computed", VBool false);
           ("object", object); ("property", property)].

Definition CallExpression (callee : jsval) (arguments : list jsval)
  : nat -> nat -> jsval :=
  located [("type", VStr "CallExpression"); ("callee", callee);
           ("arguments", VArr arguments)].

Definition UnaryExpression (operator : string) (argument : jsval)
  : nat -> nat -> jsval :=
  located [("type", VStr "UnaryExpression"); ("operator", VStr operator);
           ("argument", argument); ("prefix", VBool true)].

Definition BinaryExpression (operator : string) (left right : jsval)
  : nat -> nat -> jsval :=
  located [("type", VStr "BinaryExpression"); ("operator", VStr operator);
           ("left", left); ("right", right)].

Definition ExpressionStatement (expression : jsval) : nat -> nat -> jsval :=
  located [("type", VStr "ExpressionStatement"); ("expression", expression)].

Definition BlockStatement (body : list jsval) : nat -> nat -> jsval :=
  located [("type", VStr "BlockStatement"); ("body", VArr body)].

Definition IfStatement (test consequent : jsval) : nat -> nat -> jsval :=
  located [("type", VStr "IfStatement"); ("test", test);
           ("consequent", consequent); ("alternate", VNull)].

Definition ThisExpression : nat -> nat -> jsval :=
  located [("type", VStr "ThisExpression")].

Definition AssignmentPattern (left right : jsval) : nat -> nat -> jsval :=
  located [("type", VStr "AssignmentPattern"); ("left", left); ("right", right)].

Definition FunctionDeclaration (id : jsval) (params : list jsval) (body : jsval)
  : nat -> nat -> jsval :=
  located [("type", VStr "FunctionDeclaration"); ("id", id);
           ("params", VArr params); ("body", body);
           ("generator", VBool false); ("expression", VBool false);
           ("async", VBool false)].

(** The root: with [tokens] and [tolerant] set, the token list and the
    list of tolerated errors are attached after [range] and [loc]. *)
Definition Program (body tokens : list jsval) (a b : nat) : jsval :=
  match located [("type", VStr "Program"); ("body", VArr body);
                 ("sourceType", VStr "script")] a b with
  | VObj fields => VObj (fields ++ [("tokens", VArr tokens); ("errors", VArr [])])
  | v => v
  end.

(** Every token of a list covers its own text in the source. *)
Definition tokens_agree (buf : string) (tokens : list jsval) : bool :=
  forallb (fun t =>
             match Js.get t "range", Js.get t "value" with
             | Ok (VArr [a; b]), Ok (VStr text) =>
                 String.eqb (Js.substring buf a b) text
             | _, _ => false
             end) tokens.

End Esprima.

Module Samples.
Import Esprima.
Import JsString (dquote).

Definition dq : string := dquote.

(** A subject with two file-system calls and a comparison of an
    identifier that is no parameter with a quoted text. *)
Definition subject_text : string :=
  ("function fileTest(dir,filePath){fs.readdirSync(dir);fs.readFileSync(filePath)}"
   ++ "function blackListNumber(phoneNumber){if(area==" ++ dq ++ "212" ++ dq ++ "){}}")%string.

Definition subject_tokens : list jsval :=
  [
    token "Keyword" "function" 0 8;
    token "Identifier" "fileTest" 9 17;
    token "Punctuator" "(" 17 18;
    token "Identifier" "dir" 18 21;
    token "Punctuator" "," 21 22;
    token "Identifier" "filePath" 22 30;
    token "Punctuator" ")" 30 31;
    token "Punctuator" "{" 31 32;
    token "Identifier" "fs" 32 34;
    token "Punctuator" "." 34 35;
    token "Identifier" "readdirSync" 35 46;
    token "Punctuator" "(" 46 47;
    token "Identifier" "dir" 47 50;
    token "Punctuator" ")" 50 51;
    token "Punctuator" ";" 51 52;
    token "Identifier" "fs" 52 54;
    token "Punctuator" "." 54 55;
    token "Identifier" "readFileSync" 55 67;
    token "Punctuator" "(" 67 68;
    token "Identifier" "filePath" 68 76;
    token "Punctuator" ")" 76 77;
    token "Punctuator" "}" 77 78;
    token "Keyword" "function" 78 86;
    token "Identifier" "blackListNumber" 87 102;
    token "Punctuator" "(" 102 103;
    token "Identifier" "phoneNumber" 103 114;
    token "Punctuator" ")" 114 115;
    token "Punctuator" "{" 115 116;
    token "Keyword" "if" 116 118;
    token "Punctuator" "(" 118 119;
    token "Identifier" "area" 119 123;
    token "Punctuator" "==" 123 125;
    token "String" (dq ++ "212" ++ dq)%string 125 130;
    token "Punctuator" ")" 130 131;
    token "Punctuator" "{" 131 132;
    token "Punctuator" "}" 132 133;
    token "Punctuator" "}" 133 134 ].

Definition subject_readdir_call : jsval :=
  CallExpression
    (MemberExpression (Identifier "fs" 32 34) (Identifier "readdirSync" 35 46) 32 46)
    [Identifier "dir" 47 50] 32 51.

Definition subject_readFile_call : jsval :=
  CallExpression
    (MemberExpression (Identifier "fs" 52 54) (Identifier "readFileSync" 55 67) 52 67)
    [Identifier "filePath" 68 76] 52 77.

Definition subject_area_test : jsval :=
  BinaryExpression "=="
    (Identifier "area" 119 123)
    (Literal (VStr "212") (dq ++ "212" ++ dq) 125 130) 119 130.

Definition subject_fileTest : jsval :=
  FunctionDeclaration (Identifier "fileTest" 9 17)
    [Identifier "dir" 18 21; Identifier "filePath" 22 30]
    (BlockStatement
       [ExpressionStatement subject_readdir_call 32 52;
        ExpressionStatement subject_readFile_call 52 77] 31 78)
    0 78.

Definition subject_blackListNumber : jsval :=
  FunctionDeclaration (Identifier "blackListNumber" 87 102)
    [Identifier "phoneNumber" 103 114]
    (BlockStatement
       [IfStatement subject_area_test (BlockStatement [] 131 133) 116 133] 115 134)
    78 134.

Definition subject_tree : jsval :=
  Program [subject_fileTest; subject_blackListNumber] subject_tokens 0 134.

(** A subject whose first function compares an identifier that is no
    parameter with a number. *)
Definition broken_text : string :=
  "function f(x){if(y==5){}}function g(a){if(a<3){}}".

Definition broken_tokens : list jsval :=
  [
    token "Keyword" "function" 0 8;
    token "Identifier" "f" 9 10;
    token "Punctuator" "(" 10 11;
    token "Identifier" "x" 11 12;
    token "Punctuator" ")" 12 13;
    token "Punctuator" "{" 13 14;
    token "Keyword" "if" 14 16;
    token "Punctuator" "(" 16 17;
    token "Identifier" "y" 17 18;
    token "Punctuator" "==" 18 20;
    token "Numeric" "5" 20 21;
    token "Punctuator" ")" 21 22;
    token "Punctuator" "{" 22 23;
    token "Punctuator" "}" 23 24;
    token "Punctuator" "}" 24 25;
    token "Keyword" "function" 25 33;
    token "Identifier" "g" 34 35;
    token "Punctuator" "(" 35 36;
    token "Identifier" "a" 36 37;
    token "Punctuator" ")" 37 38;
    token "Punctuator" "{" 38 39;
    token "Keyword" "if" 39 41;
    token "Punctuator" "(" 41 42;
    token "Identifier" "a" 42 43;
    token "Punctuator" "<" 43 44;
    token "Numeric" "3" 44 45;
    token "Punctuator" ")" 45 46;
    token "Punctuator" "{" 46 47;
    token "Punctuator" "}" 47 48;
    token "Punctuator" "}" 48 49 ].

Definition broken_y_test : jsval :=
  BinaryExpression "==" (Identifier "y" 17 18) (Literal (VNum (Int 5)) "5" 20 21) 17 21.

Definition broken_f : jsval :=
  FunctionDeclaration (Identifier "f" 9 10) [Identifier "x" 11 12]
    (BlockStatement
       [IfStatement broken_y_test (BlockStatement [] 22 24) 14 24] 13 25)
    0 25.

Definition broken_g : jsval :=
  FunctionDeclaration (Identifier "g" 34 35) [Identifier "a" 36 37]
    (BlockStatement
       [IfStatement
          (BinaryExpression "<" (Identifier "a" 42 43)
             (Literal (VNum (Int 3)) "3" 44 45) 42 45)
          (BlockStatement [] 46 48) 39 48] 38 49)
    25 49.

Definition broken_tree : jsval :=
  Program [broken_f; broken_g] broken_tokens 0 49.

(** A function that declares the same parameter name twice. *)
Definition twice_text : string := "function f(p,p){fs.readFileSync(p)}".

Definition twice_tokens : list jsval :=
  [
    token "Keyword" "function" 0 8;
    token "Identifier" "f" 9 10;
    token "Punctuator" "(" 10 11;
    token "Identifier" "p" 11 12;
    token "Punctuator" "," 12 13;
    token "Identifier" "p" 13 14;
    token "Punctuator" ")" 14 15;
    token "Punctuator" "{" 15 16;
    token "Identifier" "fs" 16 18;
    token "Punctuator" "." 18 19;
    token "Identifier" "readFileSync" 19 31;
    token "Punctuator" "(" 31 32;
    token "Identifier" "p" 32 33;
    token "Punctuator" ")" 33 34;
    token "Punctuator" "}" 34 35 ].

Definition twice_call : jsval :=
  CallExpression
    (MemberExpression (Identifier "fs" 16 18) (Identifier "readFileSync" 19 31) 16 31)
    [Identifier "p" 32 33] 16 34.

Definition twice_f : jsval :=
  FunctionDeclaration (Identifier "f" 9 10)
    [Identifier "p" 11 12; Identifier "p" 13 14]
    (BlockStatement [ExpressionStatement twice_call 16 34] 15 35)
    0 35.

Definition twice_tree : jsval := Program [twice_f] twice_tokens 0 35.

(** A call of [readFileSync] without argument. *)
Definition noargs_text : string := "function h(p){fs.readFileSync()}".

Definition noargs_call : jsval :=
  CallExpression
    (MemberExpression (Identifier "fs" 14 16) (Identifier "readFileSync" 17 29) 14 29)
    [] 14 31.

Definition noargs_h : jsval :=
  FunctionDeclaration (Identifier "h" 9 10) [Identifier "p" 11 12]
    (BlockStatement [ExpressionStatement noargs_call 14 31] 13 32)
    0 32.

(** A relational comparison with a fraction. *)
Definition frac_text : string := "function f(x){x<3.5}".

Definition frac_test : jsval :=
  BinaryExpression "<" (Identifier "x" 14 15)
    (Literal (VNum (Flt "3.5")) "3.5" 16 19) 14 19.

Definition frac_f : jsval :=
  FunctionDeclaration (Identifier "f" 9 10) [Identifier "x" 11 12]
    (BlockStatement [ExpressionStatement frac_test 14 19] 13 20)
    0 20.

(** A unary operator other than the negation on a property of a
    parameter. *)
Definition typeof_text : string := "function f(p){typeof p.foo}".

Definition typeof_expr : jsval :=
  UnaryExpression "typeof"
    (MemberExpression (Identifier "p" 21 22) (Identifier "foo" 23 26) 21 26) 14 26.

Definition typeof_f : jsval :=
  FunctionDeclaration (Identifier "f" 9 10) [Identifier "p" 11 12]
    (BlockStatement [ExpressionStatement typeof_expr 14 26] 13 27)
    0 27.

(** A comparison with a quoted text that is no run of three digits. *)
Definition hello_text : string :=
  ("function f(x){y==" ++ dq ++ "hello" ++ dq ++ "}")%string.

Definition hello_test : jsval :=
  BinaryExpression "==" (Identifier "y" 14 15)
    (Literal (VStr "hello") (dq ++ "hello" ++ dq) 17 24) 14 24.

Definition hello_f : jsval :=
  FunctionDeclaration (Identifier "f" 9 10) [Identifier "x" 11 12]
    (BlockStatement [ExpressionStatement hello_test 14 24] 13 25)
    0 25.

(** Comparisons of parameters. *)
Definition inc_text : string :=
  "function inc(p,q){if(q==undefined){}if(p<32){}if(p>q){}}".

Definition inc_q_test : jsval :=
  BinaryExpression "==" (Identifier "q" 21 22) (Identifier "undefined" 24 33) 21 33.

Definition inc_p_test : jsval :=
  BinaryExpression "<" (Identifier "p" 39 40) (Literal (VNum (Int 32)) "32" 41 43) 39 43.

Definition inc_pq_test : jsval :=
  BinaryExpression ">" (Identifier "p" 49 50) (Identifier "q" 51 52) 49 52.

Definition inc_f : jsval :=
  FunctionDeclaration (Identifier "inc" 9 12)
    [Identifier "p" 13 14; Identifier "q" 15 16]
    (BlockStatement
       [IfStatement inc_q_test (BlockStatement [] 34 36) 18 36;
        IfStatement inc_p_test (BlockStatement [] 44 46) 36 46;
        IfStatement inc_pq_test (BlockStatement [] 53 55) 46 55] 17 56)
    0 56.

(** A negated property of a parameter and a comparison of a method call
    on a parameter. *)
Definition format_text : string :=
  ("function format(s,options){if(!options.normalize){}if(s.indexOf("
   ++ dq ++ "a" ++ dq ++ ")==2){}}")%string.

Definition format_not : jsval :=
  UnaryExpression "!"
    (MemberExpression (Identifier "options" 31 38) (Identifier "normalize" 39 48) 31 48)
    30 48.

Definition format_indexOf : jsval :=
  BinaryExpression "=="
    (CallExpression
       (MemberExpression (Identifier "s" 54 55) (Identifier "indexOf" 56 63) 54 63)
       [Literal (VStr "a") (dq ++ "a" ++ dq) 64 67] 54 68)
    (Literal (VNum (Int 2)) "2" 70 71) 54 71.

Definition format_f : jsval :=
  FunctionDeclaration (Identifier "format" 9 15)
    [Identifier "s" 16 17; Identifier "options" 18 25]
    (BlockStatement
       [IfStatement format_not (BlockStatement [] 49 51) 27 51;
        IfStatement format_indexOf (BlockStatement [] 72 74) 51 74] 26 75)
    0 75.

(** A function with a parameter that no node of its body reads. *)
Definition unused_text : string := "function g(a,b){if(a<1){}}".

Definition unused_tokens : list jsval :=
  [
    token "Keyword" "function" 0 8;
    token "Identifier" "g" 9 10;
    token "Punctuator" "(" 10 11;
    token "Identifier" "a" 11 12;
    token "Punctuator" "," 12 13;
    token "Identifier" "b" 13 14;
    token "Punctuator" ")" 14 15;
    token "Punctuator" "{" 15 16;
    token "Keyword" "if" 16 18;
    token "Punctuator" "(" 18 19;
    token "Identifier" "a" 19 20;
    token "Punctuator" "<" 20 21;
    token "Numeric" "1" 21 22;
    token "Punctuator" ")" 22 23;
    token "Punctuator" "{" 23 24;
    token "Punctuator" "}" 24 25;
    token "Punctuator" "}" 25 26 ].

Definition unused_test : jsval :=
  BinaryExpression "<" (Identifier "a" 19 20) (Literal (VNum (Int 1)) "1" 21 22) 19 22.

Definition unused_g : jsval :=
  FunctionDeclaration (Identifier "g" 9 10)
    [Identifier "a" 11 12; Identifier "b" 13 14]
    (BlockStatement
       [IfStatement unused_test (BlockStatement [] 23 25) 16 25] 15 26)
    0 26.

Definition unused_tree : jsval := Program [unused_g] unused_tokens 0 26.

(** A function whose first parameter has a default value, and that
    negates a property of [this]. *)
Definition default_text : string := "function f(a=1,b){if(!this.x){}}".

Definition default_tokens : list jsval :=
  [
    token "Keyword" "function" 0 8;
    token "Identifier" "f" 9 10;
    token "Punctuator" "(" 10 11;
    token "Identifier" "a" 11 12;
    token "Punctuator" "=" 12 13;
    token "Numeric" "1" 13 14;
    token "Punctuator" "," 14 15;
    token "Identifier" "b" 15 16;
    token "Punctuator" ")" 16 17;
    token "Punctuator" "{" 17 18;
    token "Keyword" "if" 18 20;
    token "Punctuator" "(" 20 21;
    token "Punctuator" "!" 21 22;
    token "Keyword" "this" 22 26;
    token "Punctuator" "." 26 27;
    token "Identifier" "x" 27 28;
    token "Punctuator" ")" 28 29;
    token "Punctuator" "{" 29 30;
    token "Punctuator" "}" 30 31;
    token "Punctuator" "}" 31 32 ].

Definition default_param : jsval :=
  AssignmentPattern (Identifier "a" 11 12) (Literal (VNum (Int 1)) "1" 13 14) 11 14.

Definition default_not : jsval :=
  UnaryExpression "!"
    (MemberExpression (ThisExpression 22 26) (Identifier "x" 27 28) 22 28) 21 28.

Definition default_f : jsval :=
  FunctionDeclaration (Identifier "f" 9 10)
    [default_param; Identifier "b" 15 16]
    (BlockStatement
       [IfStatement default_not (BlockStatement [] 29 31) 18 31] 17 32)
    0 32.

Definition default_tree : jsval := Program [default_f] default_tokens 0 32.

(** A random source: the state is a number, the text its last ten decimal
    digits, and the next state comes from a linear congruence. *)
Definition digits_of (n : N) : string :=
  JsString.text
    (map (fun i => ascii_of_N (48 + (n / 10 ^ i) mod 10)%N)
         [9; 8; 7; 6; 5; 4; 3; 2; 1; 0]%N).

Definition next_state (n : N) : N := ((n * 1103515245 + 12345) mod 2 ^ 31)%N.

(** A host with a few files. *)
#[export] Instance host : Host := {|
  Rand := N;
  randexp_gen := fun n => (digits_of n, next_state n);
  readFileSync := fun path =>
    if String.eqb path "subject.js" then Ok subject_text
    else if String.eqb path "broken.js" then Ok broken_text
    else if String.eqb path "twice.js" then Ok twice_text
    else if String.eqb path "unused.js" then Ok unused_text
    else if String.eqb path "default.js" then Ok default_text
    else if String.eqb path "garbage.js" then Ok "function ("
    else Throw (IOError "ENOENT");
  esprima_parse := fun buf _ =>
    if String.eqb buf subject_text then Ok subject_tree
    else if String.eqb buf broken_text then Ok broken_tree
    else if String.eqb buf twice_text then Ok twice_tree
    else if String.eqb buf unused_text then Ok unused_tree
    else if String.eqb buf default_text then Ok default_tree
    else Throw (ParseError "Unexpected token");
  text_limit := (2 ^ 29 - 24)%Z
|}.

(** A state of the random source, and the state after one draw. *)
Definition seed : Rand := 7%N.
Definition seed_after : Rand := next_state 7.

End Samples.

Unset Implicit Arguments.

(* ================================================================== *)
(** * Vocabulary of the properties *)

(** [v.key] is read without exception and gives [x]. *)
Definition field (v : jsval) (key : string) (x : jsval) : Prop :=
  Js.get v key = Ok x.

(** Between [fc] and [fc'] the constraints [cs] were pushed, in this order,
    on the list of parameter key [k] of function key [f], and nothing else
    changed: every other list and every parameter list is as it was. *)
Definition appended (f k : string) (cs : list Constraint.t)
           (fc fc' : FunctionConstraints.t) : Prop :=
  (exists l, FunctionConstraints.constraints_of f k fc = Some l /\
             FunctionConstraints.constraints_of f k fc' = Some (l ++ cs)) /\
  (forall f' k', (f', k') <> (f, k) ->
     FunctionConstraints.constraints_of f' k' fc'
     = FunctionConstraints.constraints_of f' k' fc) /\
  (forall f', option_map FunctionRecord.params (FunctionConstraints.get f' fc')
              = option_map FunctionRecord.params (FunctionConstraints.get f' fc)).

(** The records of a result: its own properties and its prototype. *)
Definition records (fc : FunctionConstraints.t) : list FunctionRecord.t :=
  map snd (FunctionConstraints.own fc) ++
  match FunctionConstraints.proto fc with
  | Some r => [r]
  | None => []
  end.

(** Every constraint of the record is on one of the record's parameters. *)
Definition idents_declared (r : FunctionRecord.t) : Prop :=
  forall k l c,
    In (k, l) (FunctionRecord.constraints r) -> In c l ->
    In (Constraint.ident c) (FunctionRecord.params r).

(** Two objects used as maps that have the same keys in the same order,
    with related values. *)
Definition keyed {A : Type} (R : A -> A -> Prop) (o1 o2 : Obj.t A) : Prop :=
  Forall2 (fun a b => fst a = fst b /\ R (snd a) (snd b)) o1 o2.

(** The node [child] matches a recognizer with [x] as the parameter: it
    has the shape one of the recognizers tests and carries [x] at the place
    that recognizer reads the name of the parameter from; for the fallback
    of the equality recognizer, the function has a single parameter and
    the left side of the node is no parameter. *)
Definition matched (params : list jsval) (child : jsval) (x : jsval) : bool :=
  let at_ (path : list string) := Js.strict_eq (lodash_get child path) x in
  let type := lodash_get child ["type"] in
  let operator := lodash_get child ["operator"] in
  let left_type := lodash_get child ["left"; "type"] in
  let method := lodash_get child ["callee"; "property"; "name"] in
  Js.is_text type "UnaryExpression"
  && Js.is_text (lodash_get child ["argument"; "type"]) "MemberExpression"
  && at_ ["argument"; "object"; "name"]
  || Js.is_text type "CallExpression"
     && (Js.is_text method "readFileSync" || Js.is_text method "readdirSync")
     && at_ ["arguments"; "0"; "name"]
  || Js.is_text type "BinaryExpression"
     && Js.is_text left_type "Identifier"
     && (is_equality_operator operator || is_relational_operator operator)
     && at_ ["left"; "name"]
  || Js.is_text type "BinaryExpression"
     && Js.is_text left_type "Identifier"
     && is_equality_operator operator
     && negb (lodash_includes params (lodash_get child ["left"; "name"]))
     && (length params =? 1)
  || Js.is_text type "BinaryExpression"
     && Js.is_text left_type "CallExpression"
     && Js.is_text (lodash_get child ["left"; "callee"; "type"]) "MemberExpression"
     && is_equality_operator operator
     && at_ ["left"; "callee"; "object"; "name"].

(** The number [v] is the decimal [d] plus the integer [k].  With [d] the
    conversion of the text of a numeric literal, this is the literal's
    value plus [k]. *)
Definition decimal_plus (d : strnum) (k : Z) (v : cvalue) : Prop :=
  match d, v with
  | SDec m e, Number (Num z) =>
      if (0 <=? e)%Z then z = (m * 10 ^ e + k)%Z
      else (z * 10 ^ (- e) = m + k * 10 ^ (- e))%Z
  | _, _ => False
  end.

(** The text of a decimal integer literal: digits only, without a leading
    zero unless it is the single digit zero. *)
Definition decimal_integer_text (s : string) : bool :=
  match Js.array_index s with
  | Some _ => true
  | None => false
  end.

Definition all_digits (s : string) : bool :=
  forallb JsString.is_digit (JsString.chars s).

(** The value is a text in double quotes holding exactly ten digits, the
    first three of which are [prefix]. *)
Definition quoted_ten_digits (prefix : string) (v : cvalue) : Prop :=
  exists digits,
    v = Text (JsString.dquote ++ digits ++ JsString.dquote)%string /\
    String.length digits = 10 /\
    all_digits digits = true /\
    JsString.substring digits 0 3 = prefix.

(** [node] is a function declaration with a name and with parameters that
    are all identifiers, of the given names.  The name of an identifier is
    never an array index. *)
Definition declares (node : jsval) (name : string) (names : list string) : Prop :=
  field node "type" (VStr "FunctionDeclaration") /\
  (exists id, field node "id" id /\ Js.ToBoolean id = true /\
              field id "name" (VStr name)) /\
  (exists ps, field node "params" (VArr ps) /\
              Forall2 (fun p x => field p "type" (VStr "Identifier") /\
                                  field p "name" (VStr x) /\
                                  Js.array_index x = None) ps names).

(** The key under which the outer walk files a node that is a function
    declaration. *)
Definition declared_key (node : jsval) : option string :=
  match Js.get node "type" with
  | Ok ty =>
      if Js.is_text ty "FunctionDeclaration" then
        match functionName node with
        | Ok name => Some (Js.ToString name)
        | Throw _ => None
        end
      else None
  | Throw _ => None
  end.

(** The shape of a record: its parameters and the keys of its constraints,
    in order. *)
Definition shape (r : FunctionRecord.t) : list jsval * list string :=
  (FunctionRecord.params r, Obj.keys (FunctionRecord.constraints r)).

(** [fc'] has the records of [fc], with the same shapes. *)
Definition same_shapes (fc fc' : FunctionConstraints.t) : Prop :=
  forall f, option_map shape (FunctionConstraints.get f fc')
            = option_map shape (FunctionConstraints.get f fc).

(** The records of [fc] are those of the function declarations among the
    nodes [visited]: every record has the parameters of a visited
    declaration filed under its key and one entry per parameter key, and
    every visited declaration has a record under its key. *)
Definition filed (visited : list jsval) (fc : FunctionConstraints.t) : Prop :=
  (forall f r,
      FunctionConstraints.get f fc = Some r ->
      exists node,
        In node visited /\ declared_key node = Some f /\
        param_names node = Ok (FunctionRecord.params r) /\
        Obj.keys (FunctionRecord.constraints r)
        = Obj.keys (zipObject_empty (FunctionRecord.params r))) /\
  (forall node f,
      In node visited -> declared_key node = Some f ->
      FunctionConstraints.get f fc <> None).

(** The invariant of the inner walk of function [funcName]: every record
    holds constraints on its own parameters only, and the record of the
    function is there with the parameters [params]. *)
Definition walking (funcName : jsval) (params : list jsval)
           (fc : FunctionConstraints.t) : Prop :=
  Forall idents_declared (records fc) /\
  exists r, FunctionConstraints.get (Js.ToString funcName) fc = Some r /\
            FunctionRecord.params r = params.

(** Number of positions of a parameter list that hold the name [p]. *)
Definition occurrences (p : string) (params : list jsval) : nat :=
  length (filter (Js.strict_eq (VStr p)) params).

(** [child] is a binary expression with operator [op], operands [left] and
    [right], and the ranges the parser attaches: [a], [b] for the
    expression and [c], [d] for the right operand. *)
Definition comparison (child : jsval) (op : string) (left right a b c d : jsval)
  : Prop :=
  field child "type" (VStr "BinaryExpression") /\
  field child "operator" (VStr op) /\
  field child "left" left /\
  field child "right" right /\
  field child "range" (VArr [a; b]) /\
  field right "range" (VArr [c; d]).

(** [node] is an identifier node of the given name. *)
Definition identifier (node name : jsval) : Prop :=
  field node "type" (VStr "Identifier") /\ field node "name" name.

(** [child] is a call of a member function named [method], with the array
    [args] of arguments. *)
Definition method_call (child : jsval) (method : string) (args : jsval) : Prop :=
  exists callee property,
    field child "type" (VStr "CallExpression") /\
    field child "callee" callee /\
    field callee "property" property /\
    Js.ToBoolean property = true /\
    field property "name" (VStr method) /\
    field child "arguments" args.

(** [child] is a unary expression with operator [op] on a member access of
    property name [property_name] on [object]; [a], [b] is its range. *)
Definition unary_member (child op object property_name a b : jsval) : Prop :=
  exists argument property,
    field child "type" (VStr "UnaryExpression") /\
    field child "operator" op /\
    field child "argument" argument /\
    field argument "type" (VStr "MemberExpression") /\
    field argument "object" object /\
    field argument "property" property /\
    field property "name" property_name /\
    field child "range" (VArr [a; b]).

Section Outcome.

Context {host : Host}.

(** The visit of [child] returns, leaves the random source in state [r],
    and has pushed exactly [cs] on the parameter key [k] of the function. *)
Definition visit_pushes (buf : string) (funcName : jsval) (params : list jsval)
           (child : jsval) (s : State) (r : Rand) (k : string)
           (cs : list Constraint.t) : Prop :=
  exists fc',
    visit_child buf funcName params child s
    = Ok (tt, {| functionConstraints := fc'; rand := r |}) /\
    appended (Js.ToString funcName) k cs (functionConstraints s) fc'.

(** The state in which the inner walk of a function starts: the record of
    the function has just been filed in [fc]. *)
Definition declared (funcName : jsval) (params : list jsval)
           (fc : FunctionConstraints.t) (r : Rand) : State :=
  {| functionConstraints :=
       FunctionConstraints.set (Js.ToString funcName)
         (FunctionRecord.new (zipObject_empty params) params) fc;
     rand := r |}.

(** A computation keeps a property of the shared object: whenever it
    returns from a state that has the property, the new state has it. *)
Definition preserves {A : Type} (I : FunctionConstraints.t -> Prop) (m : M A)
  : Prop :=
  forall s,
    I (functionConstraints s) ->
    match m s with
    | Ok (_, s') => I (functionConstraints s')
    | Throw _ => True
    end.

(** A text the random source gives in some state. *)
Definition drawn (t : string) : Prop := exists r, fst (randexp_gen r) = t.

(** Two constraints that are the same, or that are the second constraint
    of the fallback on the single parameter for the same inner text and
    two drawn texts: they differ at most in what the drawn texts leave
    after their first three characters. *)
Definition alike (c1 c2 : Constraint.t) : Prop :=
  c1 = c2 \/
  exists ident expression op fn inner t1 t2,
    drawn t1 /\ drawn t2 /\
    c1 = Constraint.new ident expression op
           (Text (JsString.dquote
                  ++ (inner ++ JsString.substring t1 3 (String.length t1))
                  ++ JsString.dquote))
           VUndefined fn Kstring /\
    c2 = Constraint.new ident expression op
           (Text (JsString.dquote
                  ++ (inner ++ JsString.substring t2 3 (String.length t2))
                  ++ JsString.dquote))
           VUndefined fn Kstring.

(** Two records with the same parameters and, for the same parameter
    keys in the same order, as many constraints, alike one by one. *)
Definition alike_records (r1 r2 : FunctionRecord.t) : Prop :=
  FunctionRecord.params r1 = FunctionRecord.params r2 /\
  keyed (Forall2 alike) (FunctionRecord.constraints r1)
    (FunctionRecord.constraints r2).

(** Two results with the same functions in the same order, and alike
    records. *)
Definition alike_results (fc1 fc2 : FunctionConstraints.t) : Prop :=
  keyed alike_records (FunctionConstraints.own fc1) (FunctionConstraints.own fc2) /\
  match FunctionConstraints.proto fc1, FunctionConstraints.proto fc2 with
  | Some r1, Some r2 => alike_records r1 r2
  | None, None => True
  | _, _ => False
  end.

(** The outcomes of two runs: the same exception, or alike results. *)
Definition alike_outcomes (o1 o2 : result (FunctionConstraints.t * Rand)) : Prop :=
  match o1, o2 with
  | Ok (fc1, _), Ok (fc2, _) => alike_results fc1 fc2
  | Throw e1, Throw e2 => e1 = e2
  | _, _ => False
  end.

(** Two states whose shared objects are alike. *)
Definition sim (s1 s2 : State) : Prop :=
  alike_results (functionConstraints s1) (functionConstraints s2).

(** Two outcomes that agree: the same exception, or the same result in
    similar states. *)
Definition agree {A : Type} (o1 o2 : result (A * State)) : Prop :=
  match o1, o2 with
  | Ok (a1, s1), Ok (a2, s2) => a1 = a2 /\ sim s1 s2
  | Throw e1, Throw e2 => e1 = e2
  | _, _ => False
  end.

(** Two computations that, from similar states, end in agreeing outcomes,
    whatever the states of the random source are. *)
Definition oblivious {A : Type} (m1 m2 : M A) : Prop :=
  forall s1 s2, sim s1 s2 -> agree (m1 s1) (m2 s2).

Section Pushing.

Variable funcName : jsval.
Variable allowed : jsval -> Prop.

(** Pairs of computations made of results that do not depend on the
    state, of draws of the random text whose use may differ on the two
    sides, and of pushes, for the function [funcName], of alike
    constraints on the same parameter, which is one of those [allowed].
    A single computation paired with itself is one that touches the shared
    object only by pushing constraints on allowed parameters. *)
Inductive Pushing : forall {A : Type}, M A -> M A -> Prop :=
| Pushing_ret {A : Type} (a : A) : Pushing (ret a) (ret a)
| Pushing_lift {A : Type} (r : result A) : Pushing (lift r) (lift r)
| Pushing_push (ident : jsval) (c1 c2 : Constraint.t) :
    Constraint.ident c1 = ident -> Constraint.ident c2 = ident ->
    allowed ident ->
    alike c1 c2 ->
    Pushing (push funcName ident c1) (push funcName ident c2)
| Pushing_bind {A B : Type} (m1 m2 : M A) (f1 f2 : A -> M B) :
    Pushing m1 m2 -> (forall a, Pushing (f1 a) (f2 a)) ->
    Pushing (bind m1 f1) (bind m2 f2)
| Pushing_gen {B : Type} (f1 f2 : string -> M B) :
    (forall a1 a2, drawn a1 -> drawn a2 -> Pushing (f1 a1) (f2 a2)) ->
    Pushing (bind gen f1) (bind gen f2).

End Pushing.

(** What a visit of [child] may push on: a parameter of the list that the
    node matches a recognizer with. *)
Definition addressed (params : list jsval) (child : jsval) (ident : jsval) : Prop :=
  In ident params /\ matched params child ident = true.

End Outcome.

(** ** Vocabulary of the further properties *)

(** The constraints filed under function key [f] and parameter key [k]
    carry the function name and the parameter they are filed under, and no
    alternative value. *)
Definition stamped (fc : FunctionConstraints.t) : Prop :=
  forall f k l,
    FunctionConstraints.constraints_of f k fc = Some l ->
    Forall (fun c => Js.ToString (Constraint.funcName c) = f /\
                     Js.ToString (Constraint.ident c) = k /\
                     Constraint.altvalue c = VUndefined) l.

(** Every list of [fc] is still in [fc'], with its constraints as a
    prefix. *)
Definition extends (fc fc' : FunctionConstraints.t) : Prop :=
  forall f k l,
    FunctionConstraints.constraints_of f k fc = Some l ->
    exists l', FunctionConstraints.constraints_of f k fc' = Some (l ++ l').

(** The recognizers of the catalogue, in the order of the source. *)
Inductive recognizer : Type :=
| PropertyOfParameter
| ReadFileSync
| ReaddirSync
| Equivalence
| Relational
| IndexOf.

(** The test that opens the block of a recognizer, read on the node alone:
    [Some true] when the block is entered, [Some false] when it is passed
    over, [None] when the test itself raises. *)
Definition entered (rec : recognizer) (child : jsval) : option bool :=
  let binary_with (operators : jsval -> bool) (left_type : string) :=
    Js.is_text (lodash_get child ["type"]) "BinaryExpression"
    && operators (lodash_get child ["operator"])
    && Js.is_text (lodash_get child ["left"; "type"]) left_type in
  let ok (r : result bool) :=
    match r with
    | Ok b => Some b
    | Throw _ => None
    end in
  match rec with
  | PropertyOfParameter =>
      ok (ty <- Js.get child "type" ;;
          if Js.is_text ty "UnaryExpression" then
            argument <- Js.get child "argument" ;;
            aty <- Js.get argument "type" ;;
            Ok (Js.is_text aty "MemberExpression")
          else Ok false)%result
  | ReadFileSync => ok (is_call_of "readFileSync" child)
  | ReaddirSync => ok (is_call_of "readdirSync" child)
  | Equivalence => Some (binary_with is_equality_operator "Identifier")
  | Relational => Some (binary_with is_relational_operator "Identifier")
  | IndexOf =>
      Some (binary_with is_equality_operator "CallExpression"
            && Js.is_text (lodash_get child ["left"; "callee"; "type"])
                 "MemberExpression")
  end.

Section Further.

Context {host : Host}.

(** The block of a recognizer, as the inner visitor runs it. *)
Definition run (rec : recognizer) (buf : string) (funcName : jsval)
           (params : list jsval) : jsval -> M unit :=
  match rec with
  | PropertyOfParameter => handle_property buf funcName params
  | ReadFileSync => handle_readFileSync buf funcName params
  | ReaddirSync => handle_readdirSync buf funcName params
  | Equivalence => handle_equivalence buf funcName params
  | Relational => handle_relational buf funcName params
  | IndexOf => handle_indexOf buf funcName params
  end.

(** A computation that leaves the random source as it found it. *)
Definition keeps_rand {A : Type} (m : M A) : Prop :=
  forall s,
    match m s with
    | Ok (_, s') => rand s' = rand s
    | Throw _ => True
    end.

(** A computation that raises exceptions of the given kind only. *)
Definition raises_only {A : Type} (allowed : exn -> Prop) (m : M A) : Prop :=
  forall s e, m s = Throw e -> allowed e.

End Further.

(** The exceptions of a walk: a read of a property of [undefined] or
    [null], and a text that cannot grow any more. *)
Definition walk_error (e : exn) : Prop := e = TypeError \/ e = RangeError.

(** Further sample programs: a comparison of a method call without
    argument next to a comparison of an identifier that is no parameter,
    in a function of two parameters; and a function declared inside
    another. *)
Module FurtherSamples.
Import Esprima.
Import JsString (dquote).

Definition trim_text : string := "function t(s,u){if(s.trim()==u){}if(y==5){}}".

Definition trim_call : jsval :=
  CallExpression
    (MemberExpression (Identifier "s" 19 20) (Identifier "trim" 21 25) 19 25)
    [] 19 27.

Definition trim_test : jsval :=
  BinaryExpression "==" trim_call (Identifier "u" 29 30) 19 30.

Definition trim_y_test : jsval :=
  BinaryExpression "==" (Identifier "y" 36 37) (Literal (VNum (Int 5)) "5" 39 40)
    36 40.

Definition trim_f : jsval :=
  FunctionDeclaration (Identifier "t" 9 10)
    [Identifier "s" 11 12; Identifier "u" 13 14]
    (BlockStatement
       [IfStatement trim_test (BlockStatement [] 31 33) 16 33;
        IfStatement trim_y_test (BlockStatement [] 41 43) 33 43] 15 44)
    0 44.

Definition nested_text : string :=
  "function outer(a){function inner(b){if(b<1){}}}".

Definition nested_test : jsval :=
  BinaryExpression "<" (Identifier "b" 39 40) (Literal (VNum (Int 1)) "1" 41 42)
    39 42.

Definition nested_inner : jsval :=
  FunctionDeclaration (Identifier "inner" 27 32) [Identifier "b" 33 34]
    (BlockStatement
       [IfStatement nested_test (BlockStatement [] 43 45) 36 45] 35 46)
    18 46.

Definition nested_outer : jsval :=
  FunctionDeclaration (Identifier "outer" 9 14) [Identifier "a" 15 16]
    (BlockStatement [nested_inner] 17 47)
    0 47.

(** A method call on an identifier that is no parameter. *)
Definition other_text : string :=
  ("function k(a){if(x.indexOf(" ++ dquote ++ "b" ++ dquote ++ ")==1){}}")%string.

Definition other_call : jsval :=
  CallExpression
    (MemberExpression (Identifier "x" 17 18) (Identifier "indexOf" 19 26) 17 26)
    [Literal (VStr "b") (dquote ++ "b" ++ dquote) 27 30] 17 31.

Definition other_test : jsval :=
  BinaryExpression "==" other_call (Literal (VNum (Int 1)) "1" 33 34) 17 34.

Definition other_k : jsval :=
  FunctionDeclaration (Identifier "k" 9 10) [Identifier "a" 11 12]
    (BlockStatement
       [IfStatement other_test (BlockStatement [] 35 37) 14 37] 13 38)
    0 38.

(** A method call on [this] and a file-system call on a literal, in
    functions whose parameter has a default value. *)
Definition this_text : string :=
  ("function k(a=1){if(this.indexOf(" ++ dquote ++ "b" ++ dquote ++ ")==1){}}")%string.

Definition this_call : jsval :=
  CallExpression
    (MemberExpression (ThisExpression 19 23) (Identifier "indexOf" 24 31) 19 31)
    [Literal (VStr "b") (dquote ++ "b" ++ dquote) 32 35] 19 36.

Definition this_test : jsval :=
  BinaryExpression "==" this_call (Literal (VNum (Int 1)) "1" 38 39) 19 39.

Definition literal_text : string := "function h(a=1){fs.readFileSync(1)}".

Definition literal_call : jsval :=
  CallExpression
    (MemberExpression (Identifier "fs" 16 18) (Identifier "readFileSync" 19 31) 16 31)
    [Literal (VNum (Int 1)) "1" 32 33] 16 34.

(** A subject that defines its only function by a function expression,
    and a host that holds it. *)
Definition expression_text : string := "var f=function(x){if(x<1){}}".

Definition expression_tokens : list jsval :=
  [ token "Keyword" "var" 0 3;
    token "Identifier" "f" 4 5;
    token "Punctuator" "=" 5 6;
    token "Keyword" "function" 6 14;
    token "Punctuator" "(" 14 15;
    token "Identifier" "x" 15 16;
    token "Punctuator" ")" 16 17;
    token "Punctuator" "{" 17 18;
    token "Keyword" "if" 18 20;
    token "Punctuator" "(" 20 21;
    token "Identifier" "x" 21 22;
    token "Punctuator" "<" 22 23;
    token "Numeric" "1" 23 24;
    token "Punctuator" ")" 24 25;
    token "Punctuator" "{" 25 26;
    token "Punctuator" "}" 26 27;
    token "Punctuator" "}" 27 28 ].

Definition expression_test : jsval :=
  BinaryExpression "<" (Identifier "x" 21 22) (Literal (VNum (Int 1)) "1" 23 24)
    21 24.

Definition expression_function : jsval :=
  located [("type", VStr "FunctionExpression"); ("id", VNull);
           ("params", VArr [Identifier "x" 15 16]);
           ("body",
            BlockStatement
              [IfStatement expression_test (BlockStatement [] 25 27) 18 27] 17 28);
           ("generator", VBool false); ("expression", VBool false);
           ("async", VBool false)] 6 28.

Definition expression_declaration : jsval :=
  located [("type", VStr "VariableDeclaration");
           ("declarations",
            VArr [located [("type", VStr "VariableDeclarator");
                           ("id", Identifier "f" 4 5);
                           ("init", expression_function)] 4 28]);
           ("kind", VStr "var")] 0 28.

Definition expression_tree : jsval :=
  Program [expression_declaration] expression_tokens 0 28.

Definition expression_host : Host := {|
  Rand := N;
  randexp_gen := fun n => (Samples.digits_of n, Samples.next_state n);
  readFileSync := fun path =>
    if String.eqb path "expression.js" then Ok expression_text
    else Throw (IOError "ENOENT");
  esprima_parse := fun buf _ =>
    if String.eqb buf expression_text then Ok expression_tree
    else Throw (ParseError "Unexpected token");
  text_limit := (2 ^ 29 - 24)%Z
|}.

End FurtherSamples.


(* ================================================================== *)
(** * Objects used as maps *)

Lemma Obj_get_set_same {A : Type} (k : string) (a : A) (o : Obj.t A) :
  Obj.get k (Obj.set k a o) = Some a.
Proof.
  induction o as [| [k' x] o IH]; simpl.
  - now rewrite String.eqb_refl.
  - destruct (String.eqb k' k) eqn:E; simpl; rewrite E; auto.
Qed.

Lemma Obj_get_set_other {A : Type} (k k' : string) (a : A) (o : Obj.t A) :
  k' <> k -> Obj.get k' (Obj.set k a o) = Obj.get k' o.
Proof.
  intros Hne. induction o as [| [k0 x] o IH]; simpl.
  - destruct (String.eqb k k') eqn:E; auto.
    apply String.eqb_eq in E. congruence.
  - destruct (String.eqb k0 k) eqn:E; simpl.
    + apply String.eqb_eq in E. subst k0.
      destruct (String.eqb k k') eqn:E'; auto.
      apply String.eqb_eq in E'. congruence.
    + destruct (String.eqb k0 k'); auto.
Qed.

Lemma Obj_keys_set_present {A : Type} (k : string) (a x : A) (o : Obj.t A) :
  Obj.get k o = Some x -> Obj.keys (Obj.set k a o) = Obj.keys o.
Proof.
  induction o as [| [k0 y] o IH]; simpl; [discriminate |].
  destruct (String.eqb k0 k) eqn:E; simpl; intros H.
  - reflexivity.
  - f_equal. now apply IH.
Qed.

Lemma FC_get_set_same (f : string) (r : FunctionRecord.t) (fc : FunctionConstraints.t) :
  FunctionConstraints.get f (FunctionConstraints.set f r fc) = Some r.
Proof.
  unfold FunctionConstraints.get, FunctionConstraints.set.
  destruct (String.eqb f "__proto__") eqn:E; simpl; rewrite ?E; auto.
  apply Obj_get_set_same.
Qed.

Lemma FC_get_set_other (f f' : string) (r : FunctionRecord.t) (fc : FunctionConstraints.t) :
  f' <> f ->
  FunctionConstraints.get f' (FunctionConstraints.set f r fc) = FunctionConstraints.get f' fc.
Proof.
  intros Hne. unfold FunctionConstraints.get, FunctionConstraints.set.
  destruct (String.eqb f "__proto__") eqn:E; simpl.
  - destruct (String.eqb f' "__proto__") eqn:E'; auto.
    apply String.eqb_eq in E, E'. congruence.
  - destruct (String.eqb f' "__proto__") eqn:E'; auto.
    now apply Obj_get_set_other.
Qed.

(** A push succeeds exactly when the list is there, and it appends. *)
Lemma FC_push_appended (f k : string) (c : Constraint.t)
      (fc : FunctionConstraints.t) (l : list Constraint.t) :
  FunctionConstraints.constraints_of f k fc = Some l ->
  exists fc', FunctionConstraints.push f k c fc = Some fc' /\ appended f k [c] fc fc'.
Proof.
  unfold FunctionConstraints.constraints_of, FunctionConstraints.push.
  destruct (FunctionConstraints.get f fc) as [r |] eqn:Hr; [| discriminate].
  intros Hl. rewrite Hl. eexists. split; [reflexivity |].
  unfold appended, FunctionConstraints.constraints_of. repeat split.
  - exists l. rewrite Hr, FC_get_set_same. simpl.
    now rewrite Obj_get_set_same.
  - intros f' k' Hne.
    destruct (String.eqb f' f) eqn:E.
    + apply String.eqb_eq in E. subst f'.
      rewrite FC_get_set_same, Hr. simpl.
      apply Obj_get_set_other. congruence.
    + apply String.eqb_neq in E. now rewrite FC_get_set_other.
  - intros f'.
    destruct (String.eqb f' f) eqn:E.
    + apply String.eqb_eq in E. subst f'.
      now rewrite FC_get_set_same, Hr.
    + apply String.eqb_neq in E. now rewrite FC_get_set_other.
Qed.

Lemma appended_nil (f k : string) (fc : FunctionConstraints.t) (l : list Constraint.t) :
  FunctionConstraints.constraints_of f k fc = Some l -> appended f k [] fc fc.
Proof.
  intros H. repeat split; auto.
  exists l. now rewrite app_nil_r.
Qed.

Lemma appended_trans (f k : string) (cs cs' : list Constraint.t)
      (fc fc' fc'' : FunctionConstraints.t) :
  appended f k cs fc fc' -> appended f k cs' fc' fc'' ->
  appended f k (cs ++ cs') fc fc''.
Proof.
  intros [[l [H1 H2]] [H3 H4]] [[l' [H1' H2']] [H3' H4']].
  repeat split.
  - exists l. split; auto.
    rewrite H2' , app_assoc. congruence.
  - intros f' k' Hne. now rewrite H3', H3.
  - intros f'. now rewrite H4', H4.
Qed.

Lemma appended_list (f k : string) (cs : list Constraint.t)
      (fc fc' : FunctionConstraints.t) :
  appended f k cs fc fc' ->
  exists l, FunctionConstraints.constraints_of f k fc' = Some l.
Proof. intros [[l [_ H]] _]. eauto. Qed.

(* ================================================================== *)
(** * One visit of the inner walk *)

Section Visit.

Context {host : Host}.

Variable buf : string.
Variable funcName : jsval.
Variable params : list jsval.

Local Notation "'fkey'" := (Js.ToString funcName).

Lemma with_constraints_same (s : State) :
  with_constraints s (functionConstraints s) = s.
Proof. now destruct s. Qed.

Lemma lodash_get_field (v : jsval) (k : string) (x : jsval) (path : list string) :
  field v k x -> lodash_get v (k :: path) = lodash_get x path.
Proof. unfold field. intros H. simpl. now rewrite H. Qed.

Ltac follow_path :=
  repeat (erewrite lodash_get_field by eassumption); reflexivity.

Lemma strict_eq_true (a b : jsval) : Js.strict_eq a b = true -> a = b.
Proof.
  destruct a as [| | x | [x | x] | x | | |], b as [| | y | [y | y] | y | | |];
    simpl; try discriminate; auto; intros H.
  - apply Bool.eqb_prop in H. congruence.
  - apply Z.eqb_eq in H. congruence.
  - apply String.eqb_eq in H. congruence.
  - apply String.eqb_eq in H. congruence.
Qed.

Lemma strict_eq_text (x : string) : Js.strict_eq (VStr x) (VStr x) = true.
Proof. apply String.eqb_refl. Qed.

Lemma lodash_includes_In (l : list jsval) (x : jsval) :
  lodash_includes l x = true -> In x l.
Proof.
  unfold lodash_includes. intros H.
  apply existsb_exists in H. destruct H as [y [Hy E]].
  apply strict_eq_true in E. now subst.
Qed.

Lemma includes_strict_refl (l : list jsval) (x : jsval) :
  lodash_includes l x = true -> Js.strict_eq x x = true.
Proof.
  unfold lodash_includes. intros H. apply existsb_exists in H.
  destruct H as [y [_ E]]. assert (E' := E). apply strict_eq_true in E'.
  now subst y.
Qed.

Lemma lodash_includes_text (l : list jsval) (x : string) :
  In (VStr x) l -> lodash_includes l (VStr x) = true.
Proof.
  intros H. apply existsb_exists. exists (VStr x). split; auto.
  apply strict_eq_text.
Qed.

Lemma prop_run (v : jsval) (k : string) (x : jsval) (s : State) :
  field v k x -> prop v k s = Ok (x, s).
Proof. unfold field, prop, lift. now intros ->. Qed.

(** A push on a list that is there. *)
Lemma push_run (ident : jsval) (c : Constraint.t) (s : State)
      (l : list Constraint.t) :
  FunctionConstraints.constraints_of fkey (Js.ToString ident) (functionConstraints s)
  = Some l ->
  exists fc',
    push funcName ident c s = Ok (tt, with_constraints s fc') /\
    appended fkey (Js.ToString ident) [c] (functionConstraints s) fc'.
Proof.
  intros H. destruct (FC_push_appended _ _ c _ _ H) as [fc' [Hp Ha]].
  exists fc'. split; auto.
  unfold push. now rewrite Hp.
Qed.

(** ** Nodes a recognizer lets pass *)

Lemma handle_property_other_type (child ty : jsval) (s : State) :
  field child "type" ty -> Js.is_text ty "UnaryExpression" = false ->
  handle_property buf funcName params child s = Ok (tt, s).
Proof.
  unfold field, handle_property, prop, bind, lift. intros -> ->. reflexivity.
Qed.

Lemma is_call_of_other_type (method : string) (child ty : jsval) :
  field child "type" ty -> Js.is_text ty "CallExpression" = false ->
  is_call_of method child = Ok false.
Proof.
  unfold field, is_call_of. intros -> . simpl. now intros ->.
Qed.

Lemma handle_readFileSync_no_call (child : jsval) (s : State) :
  is_call_of "readFileSync" child = Ok false ->
  handle_readFileSync buf funcName params child s = Ok (tt, s).
Proof.
  unfold handle_readFileSync, bind, lift. now intros ->.
Qed.

Lemma handle_readdirSync_no_call (child : jsval) (s : State) :
  is_call_of "readdirSync" child = Ok false ->
  handle_readdirSync buf funcName params child s = Ok (tt, s).
Proof.
  unfold handle_readdirSync, bind, lift. now intros ->.
Qed.

Lemma handle_equivalence_other (child : jsval) (s : State) :
  Js.is_text (lodash_get child ["type"]) "BinaryExpression"
  && is_equality_operator (lodash_get child ["operator"]) = false ->
  handle_equivalence buf funcName params child s = Ok (tt, s).
Proof. unfold handle_equivalence. now intros ->. Qed.

Lemma handle_relational_other (child : jsval) (s : State) :
  Js.is_text (lodash_get child ["type"]) "BinaryExpression"
  && is_relational_operator (lodash_get child ["operator"]) = false ->
  handle_relational buf funcName params child s = Ok (tt, s).
Proof. unfold handle_relational. now intros ->. Qed.

Lemma handle_indexOf_other (child : jsval) (s : State) :
  Js.is_text (lodash_get child ["type"]) "BinaryExpression"
  && is_equality_operator (lodash_get child ["operator"]) = false ->
  handle_indexOf buf funcName params child s = Ok (tt, s).
Proof. unfold handle_indexOf. now intros ->. Qed.

Lemma handle_indexOf_other_left (child : jsval) (s : State) :
  Js.is_text (lodash_get child ["left"; "type"]) "CallExpression" = false ->
  handle_indexOf buf funcName params child s = Ok (tt, s).
Proof.
  unfold handle_indexOf. intros ->. simpl.
  now destruct (_ && _).
Qed.

Lemma source_text_range (node a b : jsval) :
  field node "range" (VArr [a; b]) ->
  source_text buf node = Ok (Js.substring buf a b).
Proof. unfold field, source_text. now intros ->. Qed.

Lemma right_hand_range (child right c d : jsval) :
  field child "right" right -> field right "range" (VArr [c; d]) ->
  right_hand buf child = Ok (Js.substring buf c d).
Proof. unfold field, right_hand. intros -> . simpl. now intros ->. Qed.

(** ** The relational recognizer *)

Lemma relational_visit (child left right a b c d : jsval) (op p : string)
      (l : list Constraint.t) (s : State) :
  field child "type" (VStr "BinaryExpression") ->
  field child "operator" (VStr op) ->
  op = "<" \/ op = ">" ->
  field child "left" left ->
  field left "type" (VStr "Identifier") ->
  field left "name" (VStr p) ->
  In (VStr p) params ->
  field child "range" (VArr [a; b]) ->
  field child "right" right ->
  field right "range" (VArr [c; d]) ->
  FunctionConstraints.constraints_of fkey p (functionConstraints s) = Some l ->
  exists fc',
    visit_child buf funcName params child s = Ok (tt, with_constraints s fc') /\
    appended fkey p
      [constraint funcName (VStr p)
         (Number (jsnum_add (parseInt (Js.substring buf c d)) (-1)))
         integer (VStr op) (Js.substring buf a b);
       constraint funcName (VStr p)
         (Number (jsnum_add (parseInt (Js.substring buf c d)) 1))
         integer (VStr op) (Js.substring buf a b)]
      (functionConstraints s) fc'.
Proof.
  intros Hty Hop Hrel Hleft Hlty Hname Hin Hrange Hright Hrr Hl.
  assert (Htype : lodash_get child ["type"] = VStr "BinaryExpression")
    by follow_path.
  assert (Hoper : lodash_get child ["operator"] = VStr op) by follow_path.
  assert (Hlt : lodash_get child ["left"; "type"] = VStr "Identifier")
    by follow_path.
  assert (Hln : lodash_get child ["left"; "name"] = VStr p) by follow_path.
  assert (Hnoeq : is_equality_operator (VStr op) = false)
    by (destruct Hrel; subst op; reflexivity).
  assert (Hisrel : is_relational_operator (VStr op) = true)
    by (destruct Hrel; subst op; reflexivity).
  unfold visit_child, bind.
  rewrite (handle_property_other_type _ _ s Hty) by reflexivity.
  rewrite handle_readFileSync_no_call
    by (now apply is_call_of_other_type with (ty := VStr "BinaryExpression")).
  rewrite handle_readdirSync_no_call
    by (now apply is_call_of_other_type with (ty := VStr "BinaryExpression")).
  rewrite handle_equivalence_other by (now rewrite Htype, Hoper, Hnoeq).
  unfold handle_relational at 1.
  rewrite Htype, Hoper, Hisrel, Hlt, Hln. simpl.
  rewrite (lodash_includes_text _ _ Hin).
  unfold bind, prop, lift.
  rewrite Hleft, Hname, (source_text_range _ _ _ Hrange),
    (right_hand_range _ _ _ _ Hright Hrr), Hop.
  destruct (push_run (VStr p)
              (constraint funcName (VStr p)
                 (Number (jsnum_add (parseInt (Js.substring buf c d)) (-1)))
                 integer (VStr op) (Js.substring buf a b)) s l Hl)
    as [fc1 [Hp1 Ha1]].
  rewrite Hp1.
  destruct (appended_list _ _ _ _ _ Ha1) as [l1 Hl1].
  destruct (push_run (VStr p)
              (constraint funcName (VStr p)
                 (Number (jsnum_add (parseInt (Js.substring buf c d)) 1))
                 integer (VStr op) (Js.substring buf a b))
              (with_constraints s fc1) l1 Hl1)
    as [fc2 [Hp2 Ha2]].
  rewrite Hp2. simpl in Ha2.
  rewrite handle_indexOf_other by (now rewrite Htype, Hoper, Hnoeq).
  exists fc2. split; [reflexivity |].
  exact (appended_trans _ _ _ _ _ _ _ Ha1 Ha2).
Qed.

(** ** The loops over the parameter list *)

Lemma occurrences_cons (p : string) (q : jsval) (ps : list jsval) :
  occurrences p (q :: ps)
  = if Js.strict_eq (VStr p) q then S (occurrences p ps) else occurrences p ps.
Proof.
  unfold occurrences. cbn [filter].
  now destruct (Js.strict_eq (VStr p) q).
Qed.

(** A loop whose body does nothing on the other entries and pushes [cs]
    on the entry [name] pushes [cs] once per position that holds [name]. *)
Lemma for_each_entry_run (body : jsval -> M unit) (name : jsval)
      (cs : list Constraint.t) :
  (forall q s, Js.strict_eq name q = false -> body q s = Ok (tt, s)) ->
  (forall s l,
      FunctionConstraints.constraints_of fkey (Js.ToString name)
        (functionConstraints s) = Some l ->
      exists fc', body name s = Ok (tt, with_constraints s fc') /\
                  appended fkey (Js.ToString name) cs (functionConstraints s) fc') ->
  forall ps s l,
    FunctionConstraints.constraints_of fkey (Js.ToString name)
      (functionConstraints s) = Some l ->
    exists fc',
      for_each ps body s = Ok (tt, with_constraints s fc') /\
      appended fkey (Js.ToString name)
        (concat (repeat cs (length (filter (Js.strict_eq name) ps))))
        (functionConstraints s) fc'.
Proof.
  intros Hskip Hhit. induction ps as [| q ps IH]; intros s l Hl.
  - exists (functionConstraints s). simpl. rewrite with_constraints_same.
    split; [reflexivity | now apply appended_nil with (l := l)].
  - cbn [for_each filter]. unfold bind.
    destruct (Js.strict_eq name q) eqn:E.
    + apply strict_eq_true in E. subst q.
      destruct (Hhit s l Hl) as [fc1 [Hb Ha]]. rewrite Hb.
      destruct (appended_list _ _ _ _ _ Ha) as [l1 Hl1].
      destruct (IH (with_constraints s fc1) l1 Hl1) as [fc2 [Hf Ha2]].
      rewrite Hf. exists fc2. split; [reflexivity |].
      simpl. exact (appended_trans _ _ _ _ _ _ _ Ha Ha2).
    + rewrite (Hskip q s E).
      destruct (IH s l Hl) as [fc2 [Hf Ha2]].
      rewrite Hf. exists fc2. split; [reflexivity | exact Ha2].
Qed.

Lemma for_each_params_run (body : jsval -> M unit) (p : string)
      (cs : list Constraint.t) :
  (forall q s, Js.strict_eq (VStr p) q = false -> body q s = Ok (tt, s)) ->
  (forall s l,
      FunctionConstraints.constraints_of fkey p (functionConstraints s) = Some l ->
      exists fc', body (VStr p) s = Ok (tt, with_constraints s fc') /\
                  appended fkey p cs (functionConstraints s) fc') ->
  forall ps s l,
    FunctionConstraints.constraints_of fkey p (functionConstraints s) = Some l ->
    exists fc',
      for_each ps body s = Ok (tt, with_constraints s fc') /\
      appended fkey p (concat (repeat cs (occurrences p ps)))
        (functionConstraints s) fc'.
Proof. exact (for_each_entry_run body (VStr p) cs). Qed.

(** An entry that occurs once in a list without repetition. *)
Lemma entry_once (name : jsval) (ps : list jsval) :
  NoDup ps -> lodash_includes ps name = true ->
  length (filter (Js.strict_eq name) ps) = 1.
Proof.
  intros Hnd Hin. assert (Hrefl := includes_strict_refl ps name Hin).
  apply lodash_includes_In in Hin.
  induction ps as [| q ps IH]; [easy |].
  inversion Hnd as [| ? ? Hq Hnd']; subst. cbn [filter].
  destruct (Js.strict_eq name q) eqn:E.
  - apply strict_eq_true in E. subst q. cbn [length]. f_equal.
    clear IH Hin Hnd Hnd'. induction ps as [| q ps IH]; [reflexivity |].
    cbn [filter]. destruct (Js.strict_eq name q) eqn:E.
    + apply strict_eq_true in E. subst q. exfalso. apply Hq. now left.
    + apply IH. intros H. apply Hq. now right.
  - destruct Hin as [-> | Hin]; [congruence | now apply IH].
Qed.

Lemma occurrences_once (p : string) (ps : list jsval) :
  NoDup ps -> In (VStr p) ps -> occurrences p ps = 1.
Proof.
  induction ps as [| q ps IH]; intros Hnd Hin; [easy |].
  inversion Hnd as [| ? ? Hq Hnd']; subst. rewrite occurrences_cons.
  destruct (Js.strict_eq (VStr p) q) eqn:E.
  - apply strict_eq_true in E. subst q. f_equal.
    clear IH Hin Hnd Hnd'. induction ps as [| q ps IH]; [reflexivity |].
    rewrite occurrences_cons. destruct (Js.strict_eq (VStr p) q) eqn:E.
    + apply strict_eq_true in E. subst q. exfalso. apply Hq. now left.
    + apply IH. intros H. apply Hq. now right.
  - destruct Hin as [-> | Hin].
    + now rewrite strict_eq_text in E.
    + now apply IH.
Qed.

(** One fixture after the other, pushed on the entry [name]. *)
Lemma push_each_entry_run (child op name : jsval) (expression : string)
      (fixtures : list (string * kind)) :
  field child "operator" op ->
  forall s l,
    FunctionConstraints.constraints_of fkey (Js.ToString name)
      (functionConstraints s) = Some l ->
    exists fc',
      for_each fixtures (fun fx =>
        op <- prop child "operator" ;;
        push funcName name
          (constraint funcName name (Text (fst fx)) (snd fx) op expression)) s
      = Ok (tt, with_constraints s fc') /\
      appended fkey (Js.ToString name)
        (map (fun fx => constraint funcName name (Text (fst fx)) (snd fx)
                          op expression) fixtures)
        (functionConstraints s) fc'.
Proof.
  intros Hop. induction fixtures as [| fx fixtures IH]; intros s l Hl.
  - exists (functionConstraints s). simpl. rewrite with_constraints_same.
    split; [reflexivity | now apply appended_nil with (l := l)].
  - cbn [for_each]. unfold bind at 1 2. rewrite (prop_run _ _ _ s Hop).
    destruct (push_run name
                (constraint funcName name (Text (fst fx)) (snd fx) op expression)
                s l Hl) as [fc1 [Hp Ha]].
    rewrite Hp.
    destruct (appended_list _ _ _ _ _ Ha) as [l1 Hl1].
    destruct (IH (with_constraints s fc1) l1 Hl1) as [fc2 [Hf Ha2]].
    rewrite Hf.
    exists fc2. split; [reflexivity |].
    exact (appended_trans _ _ _ _ _ _ _ Ha Ha2).
Qed.

Lemma push_fixtures_entry_run (child args first op name : jsval)
      (expression : string) (fixtures : list (string * kind)) :
  field child "arguments" args ->
  field args "0" first ->
  field first "name" name ->
  field child "operator" op ->
  Js.strict_eq name name = true ->
  forall ps s l,
    FunctionConstraints.constraints_of fkey (Js.ToString name)
      (functionConstraints s) = Some l ->
    exists fc',
      push_fixtures funcName ps fixtures expression child s
      = Ok (tt, with_constraints s fc') /\
      appended fkey (Js.ToString name)
        (concat (repeat
                   (map (fun fx => constraint funcName name (Text (fst fx))
                                     (snd fx) op expression) fixtures)
                   (length (filter (Js.strict_eq name) ps))))
        (functionConstraints s) fc'.
Proof.
  intros Hargs Hfirst Hname Hop Hrefl. unfold push_fixtures.
  apply for_each_entry_run.
  - intros q s E. unfold bind.
    now rewrite (prop_run _ _ _ s Hargs), (prop_run _ _ _ s Hfirst),
      (prop_run _ _ _ s Hname), E.
  - intros s l Hl. unfold bind at 1 2 3.
    rewrite (prop_run _ _ _ s Hargs), (prop_run _ _ _ s Hfirst),
      (prop_run _ _ _ s Hname), Hrefl.
    exact (push_each_entry_run child op name expression fixtures Hop s l Hl).
Qed.

Lemma push_fixtures_run (child args first op : jsval) (p expression : string)
      (fixtures : list (string * kind)) :
  field child "arguments" args ->
  field args "0" first ->
  field first "name" (VStr p) ->
  field child "operator" op ->
  forall ps s l,
    FunctionConstraints.constraints_of fkey p (functionConstraints s) = Some l ->
    exists fc',
      push_fixtures funcName ps fixtures expression child s
      = Ok (tt, with_constraints s fc') /\
      appended fkey p
        (concat (repeat
                   (map (fun fx => constraint funcName (VStr p) (Text (fst fx))
                                     (snd fx) op expression) fixtures)
                   (occurrences p ps)))
        (functionConstraints s) fc'.
Proof.
  intros Hargs Hfirst Hname Hop.
  exact (push_fixtures_entry_run child args first op (VStr p) expression fixtures
           Hargs Hfirst Hname Hop (strict_eq_text p)).
Qed.

Lemma for_each_skip {A : Type} (body : A -> M unit) (l : list A) (s : State) :
  (forall a, In a l -> body a s = Ok (tt, s)) -> for_each l body s = Ok (tt, s).
Proof.
  induction l as [| a l IH]; intros H; [reflexivity |].
  cbn [for_each]. unfold bind. rewrite (H a) by now left.
  apply IH. intros a' Ha'. apply H. now right.
Qed.

Lemma lodash_includes_false (l : list jsval) (x q : jsval) :
  lodash_includes l x = false -> In q l -> Js.strict_eq x q = false.
Proof.
  unfold lodash_includes. intros H Hq.
  destruct (Js.strict_eq x q) eqn:E; auto.
  rewrite <- H. symmetry. apply existsb_exists. eauto.
Qed.

(** ** The file-system recognizers *)

Lemma is_call_of_named (method name : string) (child callee property : jsval) :
  field child "type" (VStr "CallExpression") ->
  field child "callee" callee ->
  field callee "property" property ->
  Js.ToBoolean property = true ->
  field property "name" (VStr name) ->
  is_call_of method child = Ok (String.eqb name method).
Proof.
  unfold field, is_call_of. intros -> . cbn. intros -> . cbn.
  intros -> . cbn. intros -> . intros ->. reflexivity.
Qed.

Lemma readFileSync_visit (child callee property args first op a b : jsval)
      (p : string) (l : list Constraint.t) (s : State) :
  field child "type" (VStr "CallExpression") ->
  field child "callee" callee ->
  field callee "property" property ->
  Js.ToBoolean property = true ->
  field property "name" (VStr "readFileSync") ->
  field child "arguments" args ->
  field args "0" first ->
  field first "name" (VStr p) ->
  field child "operator" op ->
  field child "range" (VArr [a; b]) ->
  FunctionConstraints.constraints_of fkey p (functionConstraints s) = Some l ->
  exists fc',
    visit_child buf funcName params child s = Ok (tt, with_constraints s fc') /\
    appended fkey p
      (concat (repeat
         [constraint funcName (VStr p)
            (Text ("'pathContent/file1'"))
            fileWithContent op (Js.substring buf a b);
          constraint funcName (VStr p)
            (Text ("'pathContent/someDir'"))
            fileWithContent op (Js.substring buf a b);
          constraint funcName (VStr p)
            (Text ("'file'"))
            fileExists op (Js.substring buf a b)]
         (occurrences p params)))
      (functionConstraints s) fc'.
Proof.
  intros Hty Hcallee Hprop Htruthy Hname Hargs Hfirst Hfn Hop Hrange Hl.
  assert (Htype : lodash_get child ["type"] = VStr "CallExpression")
    by follow_path.
  destruct (push_fixtures_run child args first op p (Js.substring buf a b)
              readFileSync_fixtures Hargs Hfirst Hfn Hop params s l Hl)
    as [fc' [Hrun Happ]].
  exists fc'. split; [| exact Happ].
  unfold visit_child, bind.
  rewrite (handle_property_other_type _ _ s Hty) by reflexivity.
  unfold handle_readFileSync at 1. unfold bind, lift.
  rewrite (is_call_of_named "readFileSync" _ _ _ _ Hty Hcallee Hprop Htruthy Hname).
  change (String.eqb "readFileSync" "readFileSync") with true. cbv beta iota.
  rewrite (source_text_range _ _ _ Hrange), Hrun.
  unfold handle_readdirSync at 1. unfold bind, lift.
  rewrite (is_call_of_named "readdirSync" _ _ _ _ Hty Hcallee Hprop Htruthy Hname).
  change (String.eqb "readFileSync" "readdirSync") with false. cbv beta iota.
  unfold ret at 1.
  rewrite handle_equivalence_other by (now rewrite Htype).
  rewrite handle_relational_other by (now rewrite Htype).
  rewrite handle_indexOf_other by (now rewrite Htype).
  reflexivity.
Qed.

(** ** The recognizer of properties of a parameter *)

Lemma handle_property_other_argument (child argument aty : jsval) (s : State) :
  field child "type" (VStr "UnaryExpression") ->
  field child "argument" argument ->
  field argument "type" aty ->
  Js.is_text aty "MemberExpression" = false ->
  handle_property buf funcName params child s = Ok (tt, s).
Proof.
  intros Hty Harg Haty Hno. unfold handle_property, bind.
  rewrite (prop_run _ _ _ s Hty).
  change (Js.is_text (VStr "UnaryExpression") "UnaryExpression") with true.
  cbv beta iota.
  now rewrite (prop_run _ _ _ s Harg), (prop_run _ _ _ s Haty), Hno.
Qed.

Lemma handle_property_other_object (child argument object name a b : jsval)
      (s : State) :
  field child "type" (VStr "UnaryExpression") ->
  field child "argument" argument ->
  field argument "type" (VStr "MemberExpression") ->
  field child "range" (VArr [a; b]) ->
  field argument "object" object ->
  field object "name" name ->
  lodash_includes params name = false ->
  handle_property buf funcName params child s = Ok (tt, s).
Proof.
  intros Hty Harg Haty Hrange Hobj Hname Hno. unfold handle_property, bind.
  rewrite (prop_run _ _ _ s Hty).
  change (Js.is_text (VStr "UnaryExpression") "UnaryExpression") with true.
  cbv beta iota.
  rewrite (prop_run _ _ _ s Harg), (prop_run _ _ _ s Haty).
  change (Js.is_text (VStr "MemberExpression") "MemberExpression") with true.
  cbv beta iota.
  unfold lift. rewrite (source_text_range _ _ _ Hrange).
  apply for_each_skip. intros q Hq.
  rewrite (prop_run _ _ _ s Harg), (prop_run _ _ _ s Hobj), (prop_run _ _ _ s Hname).
  now rewrite (lodash_includes_false _ _ _ Hno Hq).
Qed.

Lemma property_visit (child argument object property property_name op a b : jsval)
      (name : jsval) (l : list Constraint.t) (s : State) :
  field child "type" (VStr "UnaryExpression") ->
  field child "operator" op ->
  field child "argument" argument ->
  field argument "type" (VStr "MemberExpression") ->
  field argument "object" object ->
  field object "name" name ->
  Js.strict_eq name name = true ->
  field argument "property" property ->
  field property "name" property_name ->
  field child "range" (VArr [a; b]) ->
  FunctionConstraints.constraints_of fkey (Js.ToString name) (functionConstraints s)
  = Some l ->
  exists fc',
    visit_child buf funcName params child s = Ok (tt, with_constraints s fc') /\
    appended fkey (Js.ToString name)
      (concat (repeat
         [constraint funcName name
            (Text (Js.ToString name ++ " = {'" ++ Js.ToString property_name
                   ++ "': true}"))
            Kstring op (Js.substring buf a b);
          constraint funcName name False_ Kstring op (Js.substring buf a b)]
         (length (filter (Js.strict_eq name) params))))
      (functionConstraints s) fc'.
Proof.
  intros Hty Hop Harg Haty Hobj Hname Hrefl Hprop Hpn Hrange Hl.
  assert (Htype : lodash_get child ["type"] = VStr "UnaryExpression")
    by follow_path.
  assert (Hloop : exists fc',
    for_each params (fun q =>
      argument <- prop child "argument" ;;
      object <- prop argument "object" ;;
      name <- prop object "name" ;;
      if Js.strict_eq name q then
        argument <- prop child "argument" ;;
        property <- prop argument "property" ;;
        property_name <- prop property "name" ;;
        op <- prop child "operator" ;;
        push funcName q
          (constraint funcName q
             (Text (Js.ToString q ++ " = {'"
                    ++ Js.ToString property_name ++ "': true}"))
             Kstring op (Js.substring buf a b)) ;;
        op <- prop child "operator" ;;
        push funcName q (constraint funcName q False_ Kstring op (Js.substring buf a b))
      else ret tt) s = Ok (tt, with_constraints s fc') /\
    appended fkey (Js.ToString name)
      (concat (repeat
         [constraint funcName name
            (Text (Js.ToString name ++ " = {'" ++ Js.ToString property_name
                   ++ "': true}"))
            Kstring op (Js.substring buf a b);
          constraint funcName name False_ Kstring op (Js.substring buf a b)]
         (length (filter (Js.strict_eq name) params))))
      (functionConstraints s) fc').
  { apply for_each_entry_run with (l := l); [| | exact Hl].
    - intros q s0 E. unfold bind.
      now rewrite (prop_run _ _ _ s0 Harg), (prop_run _ _ _ s0 Hobj),
        (prop_run _ _ _ s0 Hname), E.
    - intros s0 l0 Hl0. unfold bind.
      rewrite (prop_run _ _ _ s0 Harg), (prop_run _ _ _ s0 Hobj),
        (prop_run _ _ _ s0 Hname), Hrefl.
      rewrite (prop_run _ _ _ s0 Harg), (prop_run _ _ _ s0 Hprop),
        (prop_run _ _ _ s0 Hpn), (prop_run _ _ _ s0 Hop).
      destruct (push_run name
                  (constraint funcName name
                     (Text (Js.ToString name ++ " = {'"
                            ++ Js.ToString property_name ++ "': true}"))
                     Kstring op (Js.substring buf a b)) s0 l0 Hl0)
        as [fc1 [Hp1 Ha1]].
      rewrite Hp1.
      rewrite (prop_run _ _ _ (with_constraints s0 fc1) Hop).
      destruct (appended_list _ _ _ _ _ Ha1) as [l1 Hl1].
      destruct (push_run name
                  (constraint funcName name False_ Kstring op
                     (Js.substring buf a b))
                  (with_constraints s0 fc1) l1 Hl1)
        as [fc2 [Hp2 Ha2]].
      rewrite Hp2. exists fc2. split; [reflexivity |].
      exact (appended_trans _ _ _ _ _ _ _ Ha1 Ha2). }
  destruct Hloop as [fc' [Hrun Happ]].
  exists fc'. split; [| exact Happ].
  unfold visit_child, bind.
  unfold handle_property at 1. unfold bind.
  rewrite (prop_run _ _ _ s Hty).
  change (Js.is_text (VStr "UnaryExpression") "UnaryExpression") with true.
  cbv beta iota.
  rewrite (prop_run _ _ _ s Harg), (prop_run _ _ _ s Haty).
  change (Js.is_text (VStr "MemberExpression") "MemberExpression") with true.
  cbv beta iota.
  unfold lift at 1. rewrite (source_text_range _ _ _ Hrange).
  unfold bind in Hrun. rewrite Hrun.
  rewrite handle_readFileSync_no_call
    by (now apply is_call_of_other_type with (ty := VStr "UnaryExpression")).
  rewrite handle_readdirSync_no_call
    by (now apply is_call_of_other_type with (ty := VStr "UnaryExpression")).
  rewrite handle_equivalence_other by (now rewrite Htype).
  rewrite handle_relational_other by (now rewrite Htype).
  rewrite handle_indexOf_other by (now rewrite Htype).
  reflexivity.
Qed.

(** ** The equality recognizer, fallback on the single parameter *)

Lemma gen_run (s : State) (digits : string) (r : Rand) :
  randexp_gen (rand s) = (digits, r) ->
  gen s = Ok (digits, {| functionConstraints := functionConstraints s; rand := r |}).
Proof. unfold gen. now intros ->. Qed.

Lemma equality_not_relational (op : jsval) :
  is_equality_operator op = true -> is_relational_operator op = false.
Proof.
  intros H. apply lodash_includes_In in H.
  simpl in H. decompose [or] H; subst; try reflexivity; contradiction.
Qed.

(** The steps the fallback shares, whatever the right-hand text is: up to
    the draw of the random text. *)
Lemma fallback_steps (child left name right a b c d : jsval) (op : string)
      (s : State) :
  field child "type" (VStr "BinaryExpression") ->
  field child "operator" (VStr op) ->
  is_equality_operator (VStr op) = true ->
  field child "left" left ->
  field left "type" (VStr "Identifier") ->
  field left "name" name ->
  lodash_includes params name = false ->
  length params = 1 ->
  field child "range" (VArr [a; b]) ->
  field child "right" right ->
  field right "range" (VArr [c; d]) ->
  visit_child buf funcName params child s
  = ((let ident := nth 0 params VUndefined in
      phone_number <- gen ;;
      inner <- lift (group1 (Js.match_quoted (Js.substring buf c d))) ;;
      let phone_number :=
        (inner ++ JsString.substring phone_number 3 (String.length phone_number))%string in
      op' <- prop child "operator" ;;
      push funcName ident
        (constraint funcName ident
           (Text ("'NEQ - " ++ Js.substring buf c d ++ "'"))
           Kstring op' (Js.substring buf a b)) ;;
      op' <- prop child "operator" ;;
      push funcName ident
        (constraint funcName ident
           (Text (JsString.dquote ++ phone_number ++ JsString.dquote))
           Kstring op' (Js.substring buf a b))) ;;
     handle_relational buf funcName params child ;;
     handle_indexOf buf funcName params child) s.
Proof.
  intros Hty Hop Heq Hleft Hlty Hname Hno Hlen Hrange Hright Hrr.
  assert (Htype : lodash_get child ["type"] = VStr "BinaryExpression")
    by follow_path.
  assert (Hoper : lodash_get child ["operator"] = VStr op) by follow_path.
  assert (Hlt : lodash_get child ["left"; "type"] = VStr "Identifier")
    by follow_path.
  assert (Hln : lodash_get child ["left"; "name"] = name) by follow_path.
  unfold visit_child, bind.
  rewrite (handle_property_other_type _ _ s Hty) by reflexivity.
  rewrite handle_readFileSync_no_call
    by (now apply is_call_of_other_type with (ty := VStr "BinaryExpression")).
  rewrite handle_readdirSync_no_call
    by (now apply is_call_of_other_type with (ty := VStr "BinaryExpression")).
  unfold handle_equivalence at 1.
  rewrite Htype, Hoper, Heq, Hlt, Hln, Hno, Hlen.
  change (Js.is_text (VStr "BinaryExpression") "BinaryExpression") with true.
  change (Js.is_text (VStr "Identifier") "Identifier") with true.
  cbn [andb Nat.eqb]. unfold bind, lift.
  rewrite (prop_run _ _ _ s Hleft), (prop_run _ _ _ s Hname),
    (source_text_range _ _ _ Hrange), (right_hand_range _ _ _ _ Hright Hrr).
  reflexivity.
Qed.

Lemma fallback_visit (child left name right a b c d p0 : jsval)
      (op inner digits : string) (r : Rand) (l : list Constraint.t) (s : State) :
  field child "type" (VStr "BinaryExpression") ->
  field child "operator" (VStr op) ->
  is_equality_operator (VStr op) = true ->
  field child "left" left ->
  field left "type" (VStr "Identifier") ->
  field left "name" name ->
  lodash_includes params name = false ->
  params = [p0] ->
  field child "range" (VArr [a; b]) ->
  field child "right" right ->
  field right "range" (VArr [c; d]) ->
  Js.match_quoted (Js.substring buf c d) = Some inner ->
  randexp_gen (rand s) = (digits, r) ->
  FunctionConstraints.constraints_of fkey (Js.ToString p0) (functionConstraints s)
  = Some l ->
  exists fc',
    visit_child buf funcName params child s
    = Ok (tt, {| functionConstraints := fc'; rand := r |}) /\
    appended fkey (Js.ToString p0)
      [constraint funcName p0
         (Text ("'NEQ - " ++ Js.substring buf c d ++ "'"))
         Kstring (VStr op) (Js.substring buf a b);
       constraint funcName p0
         (Text (JsString.dquote
                ++ (inner ++ JsString.substring digits 3 (String.length digits))
                ++ JsString.dquote))
         Kstring (VStr op) (Js.substring buf a b)]
      (functionConstraints s) fc'.
Proof.
  intros Hty Hop Heq Hleft Hlty Hname Hno Hparams Hrange Hright Hrr Hmatch Hgen Hl.
  assert (Hlen : length params = 1) by now rewrite Hparams.
  assert (Hnth : nth 0 params VUndefined = p0) by now rewrite Hparams.
  assert (Htype : lodash_get child ["type"] = VStr "BinaryExpression")
    by follow_path.
  assert (Hoper : lodash_get child ["operator"] = VStr op) by follow_path.
  assert (Hlt : lodash_get child ["left"; "type"] = VStr "Identifier")
    by follow_path.
  rewrite (fallback_steps child left name right a b c d op s
             Hty Hop Heq Hleft Hlty Hname Hno Hlen Hrange Hright Hrr).
  cbv zeta. rewrite Hnth, Hmatch. unfold bind, lift.
  rewrite (gen_run s digits r Hgen). cbn [group1].
  set (s1 := {| functionConstraints := functionConstraints s; rand := r |}).
  rewrite (prop_run _ _ _ s1 Hop).
  destruct (push_run p0
              (constraint funcName p0
                 (Text ("'NEQ - " ++ Js.substring buf c d
                        ++ "'"))
                 Kstring (VStr op) (Js.substring buf a b)) s1 l Hl)
    as [fc1 [Hp1 Ha1]].
  rewrite Hp1. rewrite (prop_run _ _ _ (with_constraints s1 fc1) Hop).
  destruct (appended_list _ _ _ _ _ Ha1) as [l1 Hl1].
  destruct (push_run p0
              (constraint funcName p0
                 (Text (JsString.dquote
                        ++ (inner ++ JsString.substring digits 3 (String.length digits))
                        ++ JsString.dquote))
                 Kstring (VStr op) (Js.substring buf a b))
              (with_constraints s1 fc1) l1 Hl1)
    as [fc2 [Hp2 Ha2]].
  rewrite Hp2.
  rewrite handle_relational_other
    by (now rewrite Htype, Hoper, (equality_not_relational _ Heq)).
  rewrite handle_indexOf_other_left by (now rewrite Hlt).
  exists fc2. split; [reflexivity |].
  exact (appended_trans _ _ _ _ _ _ _ Ha1 Ha2).
Qed.

(** When the right-hand text is no quoted text there is no match to take
    the group from, and the visit raises. *)
Lemma fallback_unquoted_raises (child left name right a b c d : jsval)
      (op : string) (s : State) :
  field child "type" (VStr "BinaryExpression") ->
  field child "operator" (VStr op) ->
  is_equality_operator (VStr op) = true ->
  field child "left" left ->
  field left "type" (VStr "Identifier") ->
  field left "name" name ->
  lodash_includes params name = false ->
  length params = 1 ->
  field child "range" (VArr [a; b]) ->
  field child "right" right ->
  field right "range" (VArr [c; d]) ->
  Js.match_quoted (Js.substring buf c d) = None ->
  visit_child buf funcName params child s = Throw TypeError.
Proof.
  intros Hty Hop Heq Hleft Hlty Hname Hno Hlen Hrange Hright Hrr Hmatch.
  rewrite (fallback_steps child left name right a b c d op s
             Hty Hop Heq Hleft Hlty Hname Hno Hlen Hrange Hright Hrr).
  cbv zeta. rewrite Hmatch. unfold bind, lift, gen.
  now destruct (randexp_gen (rand s)).
Qed.

End Visit.

(* ================================================================== *)
(** * Texts of decimal integers *)

Lemma is_digit_cases (c : ascii) :
  JsString.is_digit c = true ->
  In c ["0"; "1"; "2"; "3"; "4"; "5"; "6"; "7"; "8"; "9"]%char.
Proof.
  destruct c as [[] [] [] [] [] [] [] []]; intros H; vm_compute in H;
    try discriminate H; cbn; tauto.
Qed.

Lemma digit_not_space (c : ascii) :
  JsString.is_digit c = true -> JsString.is_space c = false.
Proof.
  intros H. apply is_digit_cases in H. cbn in H.
  decompose [or] H; subst; try reflexivity; contradiction.
Qed.

Lemma digit_value_digit (c : ascii) :
  JsString.is_digit c = true -> exists d, JsString.digit_value 10 c = Some d.
Proof.
  intros H. apply is_digit_cases in H. cbn in H.
  decompose [or] H; subst; try contradiction; eexists; reflexivity.
Qed.

Lemma read_digits_all (l : list ascii) :
  forallb JsString.is_digit l = true ->
  forall acc n, exists z, JsString.read_digits 10 acc n l = (z, n + length l, []).
Proof.
  induction l as [| c l IH]; intros H acc n.
  - exists acc. cbn. now rewrite Nat.add_0_r.
  - cbn [forallb] in H. apply andb_true_iff in H. destruct H as [Hc Hl].
    destruct (digit_value_digit c Hc) as [d Hd].
    cbn [JsString.read_digits]. rewrite Hd.
    destruct (IH Hl (acc * Z.of_nat 10 + Z.of_nat d)%Z (S n)) as [z Hz].
    exists z. rewrite Hz. cbn [length]. now rewrite Nat.add_succ_r.
Qed.

Lemma drop_while_head (f : ascii -> bool) (c : ascii) (l : list ascii) :
  f c = false -> JsString.drop_while f (c :: l) = c :: l.
Proof. intros H. cbn. now rewrite H. Qed.

Lemma trim_digits (l : list ascii) :
  forallb JsString.is_digit l = true -> JsString.trim l = l.
Proof.
  intros H. unfold JsString.trim.
  assert (Hdrop : forall l', forallb JsString.is_digit l' = true ->
                             JsString.drop_while JsString.is_space l' = l').
  { intros [| c l'] H'; [reflexivity |].
    cbn [forallb] in H'. apply andb_true_iff in H'.
    apply drop_while_head, digit_not_space, H'. }
  rewrite (Hdrop l H), Hdrop, rev_involutive; [reflexivity |].
  apply forallb_forall. intros c Hc. apply in_rev in Hc.
  now apply (proj1 (forallb_forall _ _) H).
Qed.

Lemma read_digits_bound (l : list ascii) :
  forallb JsString.is_digit l = true ->
  forall acc n z count rest,
    (0 <= acc)%Z ->
    JsString.read_digits 10 acc n l = (z, count, rest) ->
    (0 <= z < (acc + 1) * 10 ^ Z.of_nat (length l))%Z.
Proof.
  induction l as [| c l IH]; intros H acc n z count rest Hacc.
  - cbn. intros [= <- _ _]. lia.
  - cbn [forallb] in H. apply andb_true_iff in H. destruct H as [Hc Hl].
    cbn [JsString.read_digits].
    assert (Hd : exists d, JsString.digit_value 10 c = Some d /\ d < 10).
    { apply is_digit_cases in Hc. cbn in Hc.
      decompose [or] Hc; subst; try contradiction;
        eexists; (split; [cbv; reflexivity | lia]). }
    destruct Hd as [d [-> Hd]]. intros Hrun.
    apply IH in Hrun; [| exact Hl | lia].
    replace (Z.of_nat (length (c :: l))) with (Z.of_nat (length l) + 1)%Z
      by (cbn [length]; lia).
    rewrite Z.pow_add_r by lia.
    assert (0 < 10 ^ Z.of_nat (length l))%Z by (apply Z.pow_pos_nonneg; lia).
    nia.
Qed.

Lemma chars_length (s : string) : length (JsString.chars s) = String.length s.
Proof. induction s as [| c s IH]; cbn; auto. Qed.

Lemma round_integer_small (z : Z) :
  (Z.abs z <= 2 ^ 53)%Z -> round_integer z = Num z.
Proof.
  intros H. unfold round_integer. apply Z.leb_le in H. now rewrite H.
Qed.

(** On the text of a decimal integer literal [parseInt] and the conversion
    of the text to a number read the same integer, the one the digits
    denote, which is below ten to the number of digits; [parseInt] gives
    the double nearest to it. *)
Lemma decimal_text_agree (s : string) :
  decimal_integer_text s = true ->
  exists z,
    (0 <= z < 10 ^ Z.of_nat (String.length s))%Z /\
    parseInt s = round_integer z /\ StringToNumber.of_string s = SDec z 0.
Proof.
  unfold decimal_integer_text, Js.array_index.
  destruct (JsString.chars s) as [| c l] eqn:Hs; [discriminate |].
  destruct (forallb JsString.is_digit (c :: l)
            && ((JsString.code c =? 48) && (length l =? 0)
                || negb (JsString.code c =? 48))) eqn:Hc; [| discriminate].
  intros _. apply andb_true_iff in Hc. destruct Hc as [Hall Hlead].
  assert (Htrim := trim_digits _ Hall).
  destruct (read_digits_all _ Hall 0%Z 0) as [z Hz].
  assert (Hb := read_digits_bound _ Hall 0%Z 0 z _ _ (Z.le_refl 0) Hz).
  exists z. rewrite <- chars_length, Hs.
  split; [lia |].
  unfold parseInt, StringToNumber.of_string.
  rewrite Hs, Htrim.
  cbn [forallb] in Hall. apply andb_true_iff in Hall. destruct Hall as [Hd Hl].
  rewrite (drop_while_head _ _ _ (digit_not_space c Hd)).
  apply is_digit_cases in Hd. cbn in Hd.
  decompose [or] Hd; try contradiction; subst c;
    try (cbn in Hlead; destruct l; [| discriminate Hlead]);
    unfold StringToNumber.signed, StringToNumber.decimal;
    cbn [JsString.text string_of_list_ascii String.eqb Ascii.eqb Bool.eqb andb];
    rewrite Hz; cbn -[round_integer]; auto.
Qed.

(* ================================================================== *)
(** * What one visit pushes *)

Section Recognizers.

Context {host : Host}.

Variable buf : string.
Variable funcName : jsval.
Variable params : list jsval.

Local Notation "'fkey'" := (Js.ToString funcName).

(** C10.  A comparison with [<] or [>] whose left side is a declared
    parameter [p] and whose right-hand source text does not start with an
    integer is not skipped: the visit pushes exactly two constraints on
    [p], both of kind [integer], both with value [NaN]. *)
Theorem relational_unparsable_pushes_NaN
        (child left right a b c d : jsval) (op p : string)
        (l : list Constraint.t) (s : State) :
  comparison child op left right a b c d ->
  op = "<" \/ op = ">" ->
  identifier left (VStr p) ->
  In (VStr p) params ->
  parseInt (Js.substring buf c d) = NaN ->
  FunctionConstraints.constraints_of fkey p (functionConstraints s) = Some l ->
  visit_pushes buf funcName params child s (rand s) p
    [constraint funcName (VStr p) (Number NaN) integer (VStr op) (Js.substring buf a b);
     constraint funcName (VStr p) (Number NaN) integer (VStr op) (Js.substring buf a b)].
Proof.
  intros (Hty & Hop & Hleft & Hright & Hrange & Hrr) Hrel [Hlty Hname] Hin Hnan Hl.
  destruct (relational_visit buf funcName params child left right a b c d op p l s
              Hty Hop Hrel Hleft Hlty Hname Hin Hrange Hright Hrr Hl)
    as [fc' [Hrun Happ]].
  exists fc'. split; [exact Hrun |].
  rewrite Hnan in Happ. exact Happ.
Qed.

(** C2, as the code has it.  A comparison with [<] or [>] whose left side
    is a declared parameter [p] pushes exactly two constraints on [p], of
    kind [integer], whose values are [parseInt] of the right-hand source
    text minus one and plus one, computed on doubles, in that order and
    whatever the operator.  When that text is a decimal integer literal
    of at most 15 digits, where doubles are exact, these are the
    literal's value minus one and plus one. *)
Theorem relational_pushes_parseInt_offsets
        (child left right a b c d : jsval) (op p : string)
        (l : list Constraint.t) (s : State) :
  comparison child op left right a b c d ->
  op = "<" \/ op = ">" ->
  identifier left (VStr p) ->
  In (VStr p) params ->
  FunctionConstraints.constraints_of fkey p (functionConstraints s) = Some l ->
  let low := Number (jsnum_add (parseInt (Js.substring buf c d)) (-1)) in
  let high := Number (jsnum_add (parseInt (Js.substring buf c d)) 1) in
  visit_pushes buf funcName params child s (rand s) p
    [constraint funcName (VStr p) low integer (VStr op) (Js.substring buf a b);
     constraint funcName (VStr p) high integer (VStr op) (Js.substring buf a b)]
  /\ (decimal_integer_text (Js.substring buf c d) = true ->
      String.length (Js.substring buf c d) <= 15 ->
      decimal_plus (StringToNumber.of_string (Js.substring buf c d)) (-1) low /\
      decimal_plus (StringToNumber.of_string (Js.substring buf c d)) 1 high).
Proof.
  intros (Hty & Hop & Hleft & Hright & Hrange & Hrr) Hrel [Hlty Hname] Hin Hl low high.
  split.
  - exact (relational_visit buf funcName params child left right a b c d op p l s
             Hty Hop Hrel Hleft Hlty Hname Hin Hrange Hright Hrr Hl).
  - intros Hdec Hlen. subst low high.
    destruct (decimal_text_agree _ Hdec) as [z [Hb [Hp Hn]]].
    assert (Hsmall : (z < 10 ^ 15)%Z).
    { apply Z.lt_le_trans with (1 := proj2 Hb).
      apply Z.pow_le_mono_r; lia. }
    assert (Hexact : (10 ^ 15 < 2 ^ 53 - 1)%Z) by reflexivity.
    rewrite Hp, Hn, (round_integer_small z) by lia.
    unfold jsnum_add. rewrite !round_integer_small by lia.
    cbn. split; lia.
Qed.

(** C3, as the code has it.  A call of a member function named
    [readFileSync] whose first argument is an identifier naming a declared
    parameter [p] pushes on [p], once for every position of the parameter
    list that holds [p], three constraints: kinds [fileWithContent],
    [fileWithContent], [fileExists], in that order, with the values naming
    a path with content, a directory and a plain file.  They are exactly
    three when no parameter name is declared twice. *)
Theorem readFileSync_pushes_three_per_position
        (child args first op a b : jsval) (p : string)
        (l : list Constraint.t) (s : State) :
  method_call child "readFileSync" args ->
  field args "0" first ->
  field first "name" (VStr p) ->
  In (VStr p) params ->
  field child "operator" op ->
  field child "range" (VArr [a; b]) ->
  FunctionConstraints.constraints_of fkey p (functionConstraints s) = Some l ->
  let three :=
    [constraint funcName (VStr p)
       (Text ("'pathContent/file1'"))
       fileWithContent op (Js.substring buf a b);
     constraint funcName (VStr p)
       (Text ("'pathContent/someDir'"))
       fileWithContent op (Js.substring buf a b);
     constraint funcName (VStr p)
       (Text ("'file'"))
       fileExists op (Js.substring buf a b)] in
  visit_pushes buf funcName params child s (rand s) p
    (concat (repeat three (occurrences p params)))
  /\ (NoDup params -> visit_pushes buf funcName params child s (rand s) p three).
Proof.
  intros (callee & property & Hty & Hcallee & Hprop & Htruthy & Hname & Hargs)
         Hfirst Hfn Hin Hop Hrange Hl three.
  assert (H := readFileSync_visit buf funcName params child callee property args
                 first op a b p l s Hty Hcallee Hprop Htruthy Hname Hargs Hfirst
                 Hfn Hop Hrange Hl).
  split; [exact H |].
  intros Hnd. rewrite (occurrences_once p params Hnd Hin) in H.
  cbn [repeat concat] in H. rewrite app_nil_r in H. exact H.
Qed.

(** C4, as the code has it.  The recognizer of properties leaves alone
    every node that is not a unary expression, every unary expression whose
    argument is not a member access, and every member access whose object
    has a [name] that is no entry of the parameter list.  On a unary
    expression, with any operator and not only the negation, applied to a
    member access whose object has a [name] that is an entry of the
    parameter list (the name of an identifier parameter; or [undefined],
    for an object without a name, when a parameter that is no identifier
    has put [undefined] in the list), the visit pushes on that entry, once
    for every position of the parameter list that holds it, two
    constraints of kind [string] with the operator of the expression: the
    text of an object literal that sets the accessed property to true,
    then [false].  They are exactly two when no entry of the list occurs
    twice. *)
Theorem property_any_unary_operator :
  (forall (child ty : jsval) (s : State),
      field child "type" ty -> Js.is_text ty "UnaryExpression" = false ->
      handle_property buf funcName params child s = Ok (tt, s)) /\
  (forall (child argument aty : jsval) (s : State),
      field child "type" (VStr "UnaryExpression") ->
      field child "argument" argument ->
      field argument "type" aty ->
      Js.is_text aty "MemberExpression" = false ->
      handle_property buf funcName params child s = Ok (tt, s)) /\
  (forall (child op object property_name a b name : jsval) (s : State),
      unary_member child op object property_name a b ->
      field object "name" name ->
      lodash_includes params name = false ->
      handle_property buf funcName params child s = Ok (tt, s)) /\
  (forall (child op object property_name a b name : jsval)
          (l : list Constraint.t) (s : State),
      unary_member child op object property_name a b ->
      field object "name" name ->
      lodash_includes params name = true ->
      FunctionConstraints.constraints_of fkey (Js.ToString name)
        (functionConstraints s) = Some l ->
      let two :=
        [constraint funcName name
           (Text (Js.ToString name ++ " = {'" ++ Js.ToString property_name
                  ++ "': true}"))
           Kstring op (Js.substring buf a b);
         constraint funcName name False_ Kstring op (Js.substring buf a b)] in
      visit_pushes buf funcName params child s (rand s) (Js.ToString name)
        (concat (repeat two (length (filter (Js.strict_eq name) params))))
      /\ (NoDup params ->
          visit_pushes buf funcName params child s (rand s) (Js.ToString name)
            two)).
Proof.
  split; [| split; [| split]].
  - intros child ty s. apply handle_property_other_type.
  - intros child argument aty s. apply handle_property_other_argument.
  - intros child op object property_name a b name s
           (argument & property & Hty & Hop & Harg & Haty & Hobj & Hprop & Hpn & Hrange)
           Hname Hno.
    exact (handle_property_other_object buf funcName params child argument object
             name a b s Hty Harg Haty Hrange Hobj Hname Hno).
  - intros child op object property_name a b name l s
           (argument & property & Hty & Hop & Harg & Haty & Hobj & Hprop & Hpn & Hrange)
           Hname Hin Hl two.
    assert (Hv := property_visit buf funcName params child argument object property
                    property_name op a b name l s Hty Hop Harg Haty Hobj Hname
                    (includes_strict_refl _ _ Hin) Hprop Hpn Hrange Hl).
    split; [exact Hv |].
    intros Hnd. rewrite (entry_once name params Hnd Hin) in Hv.
    cbn [repeat concat] in Hv. rewrite app_nil_r in Hv. exact Hv.
Qed.

Lemma string_length_append (x y : string) :
  String.length (x ++ y) = String.length x + String.length y.
Proof. induction x as [| c x IH]; cbn; auto. Qed.


End Recognizers.

(* ================================================================== *)
(** * The visitor pushes on declared parameters only *)

Section VisitorPushes.

Context {host : Host}.

Variable buf : string.
Variable funcName : jsval.
Variable params : list jsval.

Section Combinators.

Variable allowed : jsval -> Prop.

Lemma Pushing_bind_lift {A B : Type} (r : result A) (f1 f2 : A -> M B) :
  (forall x, r = Ok x -> Pushing funcName allowed (f1 x) (f2 x)) ->
  Pushing funcName allowed (bind (lift r) f1) (bind (lift r) f2).
Proof.
  intros H. destruct r as [x | e].
  - exact (H x eq_refl).
  - exact (Pushing_lift funcName allowed (Throw e)).
Qed.

Lemma Pushing_prop {B : Type} (v : jsval) (k : string) (f1 f2 : jsval -> M B) :
  (forall x, field v k x -> Pushing funcName allowed (f1 x) (f2 x)) ->
  Pushing funcName allowed (bind (prop v k) f1) (bind (prop v k) f2).
Proof. intros H. apply Pushing_bind_lift. exact H. Qed.

Lemma Pushing_for_each {A : Type} (l : list A) (body : A -> M unit) :
  (forall a, In a l -> Pushing funcName allowed (body a) (body a)) ->
  Pushing funcName allowed (for_each l body) (for_each l body).
Proof.
  induction l as [| a l IH]; intros H; cbn [for_each].
  - apply Pushing_ret.
  - apply Pushing_bind.
    + apply H. now left.
    + intros _. apply IH. intros a' Ha'. apply H. now right.
Qed.

End Combinators.

Lemma alike_refl (c : Constraint.t) : alike c c.
Proof. now left. Qed.

Lemma is_text_true (v : jsval) (x : string) : Js.is_text v x = true -> v = VStr x.
Proof. apply strict_eq_true. Qed.

Lemma lodash_get_nil (v : jsval) : lodash_get v [] = v.
Proof. reflexivity. Qed.

Lemma is_text_same (x : string) : Js.is_text (VStr x) x = true.
Proof. apply String.eqb_refl. Qed.

(** The name of the method of a file-system call. *)
Lemma is_call_of_shape (method : string) (child : jsval) :
  is_call_of method child = Ok true ->
  lodash_get child ["type"] = VStr "CallExpression" /\
  lodash_get child ["callee"; "property"; "name"] = VStr method.
Proof.
  unfold is_call_of, rbind. cbn [lodash_get].
  destruct (Js.get child "type") as [ty | e]; [| discriminate].
  destruct (Js.is_text ty "CallExpression") eqn:Ety; [| discriminate].
  destruct (Js.get child "callee") as [callee | e]; [| discriminate].
  destruct (Js.get callee "property") as [property | e]; [| discriminate].
  destruct (Js.ToBoolean property); [| discriminate].
  destruct (Js.get property "name") as [name | e]; [| discriminate].
  intros [= H]. split; now apply is_text_true.
  (*X*)
Qed.

Ltac pushing :=
  repeat first
    [ apply Pushing_ret
    | apply Pushing_lift
    | apply Pushing_prop; intros ? ?
    | apply Pushing_bind_lift; intros ? ?
    | apply Pushing_gen; intros ? ? ? ?
    | apply Pushing_for_each; intros ? ?
    | match goal with
      | |- Pushing _ _ (if ?b then _ else _) (if ?b then _ else _) =>
          destruct b eqn:?
      | |- Pushing _ _ (bind (push _ _ _) _) (bind (push _ _ _) _) =>
          apply Pushing_bind; [| intros _]
      | |- Pushing _ _ (push _ _ _) (push _ _ _) =>
          apply Pushing_push;
          [ reflexivity | reflexivity |
          | first [ apply alike_refl
                  | right; do 7 eexists;
                    (split; [| split; [| split; reflexivity]]); assumption ] ]
      end ].

(** The facts a branch of a recognizer has read, brought to the form the
    test [matched] has them in. *)
Ltac reading :=
  repeat match goal with
         | H1 : field ?v ?k ?x, H2 : field ?v ?k ?y |- _ =>
             assert (y = x) by (unfold field in H1, H2; congruence);
             subst y; clear H2
         end;
  repeat match goal with
         | H : _ && _ = true |- _ => apply andb_true_iff in H; destruct H
         | H : is_call_of _ _ = Ok true |- _ =>
             apply is_call_of_shape in H; destruct H
         | H : (_ =? _) = true |- _ => apply Nat.eqb_eq in H
         end;
  repeat match goal with
         | H : field ?v ?k ?x, H' : context [lodash_get ?v (?k :: ?path)] |- _ =>
             rewrite (lodash_get_field v k x path H) in H'
         end;
  rewrite ?lodash_get_nil in *.

Lemma nth_single : length params = 1 -> In (nth 0 params VUndefined) params.
Proof.
  destruct params as [| q [| ? ?]]; try discriminate. intros _. now left.
Qed.

(** The parameter a branch pushes on is one the node is matched with. *)
Ltac addressing :=
  reading; split;
  [ first [ assumption
          | apply lodash_includes_In; assumption
          | apply nth_single; assumption ]
  | unfold matched;
    repeat match goal with
           | H : lodash_get _ _ = VStr _ |- _ => rewrite H
           end;
    repeat match goal with
           | H : field ?v ?k ?x |- context [lodash_get ?v (?k :: ?path)] =>
               rewrite (lodash_get_field v k x path H)
           end;
    rewrite ?lodash_get_nil, ?is_text_same;
    repeat match goal with
           | H : length params = 1 |- _ => rewrite H
           | H : ?b = true |- context [?b] => rewrite H
           | H : ?b = false |- context [?b] => rewrite H
           | H : lodash_includes params ?x = true |- context [Js.strict_eq ?x ?x] =>
               rewrite (includes_strict_refl params x H)
           end;
    repeat first [ progress cbn [andb orb negb Nat.eqb]
                 | rewrite orb_true_r ];
    try reflexivity ].

Lemma handle_property_pushing (child : jsval) :
  Pushing funcName (addressed params child)
    (handle_property buf funcName params child)
    (handle_property buf funcName params child).
Proof. unfold handle_property. pushing; addressing. Qed.

Lemma handle_readFileSync_pushing (child : jsval) :
  Pushing funcName (addressed params child)
    (handle_readFileSync buf funcName params child)
    (handle_readFileSync buf funcName params child).
Proof.
  unfold handle_readFileSync, push_fixtures. pushing; addressing.
Qed.

Lemma handle_readdirSync_pushing (child : jsval) :
  Pushing funcName (addressed params child)
    (handle_readdirSync buf funcName params child)
    (handle_readdirSync buf funcName params child).
Proof.
  unfold handle_readdirSync, push_fixtures. pushing; addressing.
Qed.

Lemma handle_equivalence_pushing (child : jsval) :
  Pushing funcName (addressed params child)
    (handle_equivalence buf funcName params child)
    (handle_equivalence buf funcName params child).
Proof. unfold handle_equivalence. pushing; addressing. Qed.

Lemma handle_relational_pushing (child : jsval) :
  Pushing funcName (addressed params child)
    (handle_relational buf funcName params child)
    (handle_relational buf funcName params child).
Proof. unfold handle_relational. pushing; addressing. Qed.

Lemma handle_indexOf_pushing (child : jsval) :
  Pushing funcName (addressed params child)
    (handle_indexOf buf funcName params child)
    (handle_indexOf buf funcName params child).
Proof. unfold handle_indexOf. pushing; addressing. Qed.

Lemma visit_child_pushing (child : jsval) :
  Pushing funcName (addressed params child)
    (visit_child buf funcName params child)
    (visit_child buf funcName params child).
Proof.
  unfold visit_child.
  apply Pushing_bind; [apply handle_property_pushing | intros _].
  apply Pushing_bind; [apply handle_readFileSync_pushing | intros _].
  apply Pushing_bind; [apply handle_readdirSync_pushing | intros _].
  apply Pushing_bind; [apply handle_equivalence_pushing | intros _].
  apply Pushing_bind; [apply handle_relational_pushing | intros _].
  apply handle_indexOf_pushing.
Qed.

End VisitorPushes.

(* REST *)


(* ================================================================== *)
(** * Alike results stay alike under the updates *)

Lemma keyed_refl {A : Type} (R : A -> A -> Prop) (o : Obj.t A) :
  (forall a, R a a) -> keyed R o o.
Proof. intros H. induction o; constructor; auto. Qed.

Lemma keyed_get {A : Type} (R : A -> A -> Prop) (k : string) (o1 o2 : Obj.t A) :
  keyed R o1 o2 ->
  match Obj.get k o1, Obj.get k o2 with
  | Some a, Some b => R a b
  | None, None => True
  | _, _ => False
  end.
Proof.
  induction 1 as [| [k1 a] [k2 b] o1 o2 [Hk HR] _ IH]; cbn; [exact I |].
  cbn in Hk, HR. subst k2. destruct (String.eqb k1 k); [exact HR | exact IH].
Qed.

Lemma keyed_set {A : Type} (R : A -> A -> Prop) (k : string) (a b : A)
      (o1 o2 : Obj.t A) :
  keyed R o1 o2 -> R a b -> keyed R (Obj.set k a o1) (Obj.set k b o2).
Proof.
  intros H HR. induction H as [| [k1 x] [k2 y] o1 o2 [Hk Hxy] Ho IH]; cbn.
  - constructor; [now split | constructor].
  - cbn in Hk, Hxy. subst k2. destruct (String.eqb k1 k).
    + constructor; [now split | exact Ho].
    + constructor; [now split | exact IH].
Qed.

Lemma Forall2_same {A : Type} (R : A -> A -> Prop) (l : list A) :
  (forall a, R a a) -> Forall2 R l l.
Proof. intros H. induction l; constructor; auto. Qed.

Section Alike.

Context {host : Host}.

Lemma alike_records_refl (r : FunctionRecord.t) : alike_records r r.
Proof.
  split; [reflexivity |]. apply keyed_refl. intros l.
  apply Forall2_same. intros c. now left.
Qed.

Lemma alike_results_refl (fc : FunctionConstraints.t) : alike_results fc fc.
Proof.
  split.
  - apply keyed_refl. exact alike_records_refl.
  - destruct (FunctionConstraints.proto fc); [apply alike_records_refl | exact I].
Qed.

Lemma FC_get_alike (f : string) (fc1 fc2 : FunctionConstraints.t) :
  alike_results fc1 fc2 ->
  match FunctionConstraints.get f fc1, FunctionConstraints.get f fc2 with
  | Some r1, Some r2 => alike_records r1 r2
  | None, None => True
  | _, _ => False
  end.
Proof.
  intros [Hown Hproto]. unfold FunctionConstraints.get.
  destruct (String.eqb f "__proto__"); [exact Hproto |].
  now apply keyed_get.
Qed.

Lemma FC_set_alike (f : string) (r1 r2 : FunctionRecord.t)
      (fc1 fc2 : FunctionConstraints.t) :
  alike_results fc1 fc2 -> alike_records r1 r2 ->
  alike_results (FunctionConstraints.set f r1 fc1) (FunctionConstraints.set f r2 fc2).
Proof.
  intros [Hown Hproto] Hr. unfold FunctionConstraints.set.
  destruct (String.eqb f "__proto__"); split; cbn; auto.
  now apply keyed_set.
Qed.

Lemma FC_push_alike (f k : string) (c1 c2 : Constraint.t)
      (fc1 fc2 : FunctionConstraints.t) :
  alike_results fc1 fc2 -> alike c1 c2 ->
  match FunctionConstraints.push f k c1 fc1, FunctionConstraints.push f k c2 fc2 with
  | Some fc1', Some fc2' => alike_results fc1' fc2'
  | None, None => True
  | _, _ => False
  end.
Proof.
  intros Hfc Hc. unfold FunctionConstraints.push.
  assert (Hget := FC_get_alike f fc1 fc2 Hfc).
  destruct (FunctionConstraints.get f fc1) as [r1 |],
           (FunctionConstraints.get f fc2) as [r2 |]; try contradiction; auto.
  destruct Hget as [Hparams Hcs].
  assert (Hl := keyed_get (Forall2 alike) k _ _ Hcs).
  destruct (Obj.get k (FunctionRecord.constraints r1)) as [l1 |],
           (Obj.get k (FunctionRecord.constraints r2)) as [l2 |];
    try contradiction; auto.
  apply FC_set_alike; [exact Hfc |]. split; cbn; [exact Hparams |].
  apply keyed_set; [exact Hcs |].
  apply Forall2_app; [exact Hl | now constructor].
Qed.

End Alike.

(* ================================================================== *)
(** * What the computations of the visitor keep *)

Section Soundness.

Context {host : Host}.

Lemma oblivious_lift {A : Type} (r : result A) : oblivious (lift r) (lift r).
Proof. intros s1 s2 Hs. unfold lift. destruct r; cbn; auto. Qed.

Lemma oblivious_ret {A : Type} (a : A) : oblivious (ret a) (ret a).
Proof. intros s1 s2 Hs. cbn. auto. Qed.

Lemma oblivious_bind {A B : Type} (m1 m2 : M A) (f1 f2 : A -> M B) :
  oblivious m1 m2 -> (forall a, oblivious (f1 a) (f2 a)) ->
  oblivious (bind m1 f1) (bind m2 f2).
Proof.
  intros Hm Hf s1 s2 Hs. unfold bind. specialize (Hm s1 s2 Hs).
  destruct (m1 s1) as [[a1 s1'] | e1], (m2 s2) as [[a2 s2'] | e2];
    cbn in Hm; try contradiction; auto.
  destruct Hm as [<- Hs']. now apply Hf.
Qed.

Lemma oblivious_for_each {A : Type} (l : list A) (body : A -> M unit) :
  (forall a, In a l -> oblivious (body a) (body a)) ->
  oblivious (for_each l body) (for_each l body).
Proof.
  induction l as [| a l IH]; intros H; cbn [for_each].
  - apply oblivious_ret.
  - apply oblivious_bind; [apply H; now left |].
    intros _. apply IH. intros a' Ha'. apply H. now right.
Qed.

Lemma oblivious_push (funcName ident : jsval) (c1 c2 : Constraint.t) :
  alike c1 c2 ->
  oblivious (push funcName ident c1) (push funcName ident c2).
Proof.
  intros Hc s1 s2 Hs. unfold push, sim in *.
  assert (H := FC_push_alike (Js.ToString funcName) (Js.ToString ident) c1 c2
                 _ _ Hs Hc).
  destruct (FunctionConstraints.push _ _ c1 _), (FunctionConstraints.push _ _ c2 _);
    cbn; try contradiction; auto.
Qed.

Lemma oblivious_init (funcName : jsval) (params : list jsval) :
  oblivious (init_record funcName params) (init_record funcName params).
Proof.
  intros s1 s2 Hs. unfold init_record, agree. split; [reflexivity |].
  unfold sim, with_constraints in *. cbn [functionConstraints].
  apply FC_set_alike; [exact Hs | apply alike_records_refl].
Qed.

Lemma Pushing_oblivious (funcName : jsval) (allowed : jsval -> Prop)
      {A : Type} (m1 m2 : M A) :
  Pushing funcName allowed m1 m2 -> oblivious m1 m2.
Proof.
  induction 1 as [A a | A r | ident c1 c2 _ _ _ Hc | A B m1 m2 f1 f2 _ IHm _ IHf
                  | B f1 f2 _ IHf].
  - apply oblivious_ret.
  - apply oblivious_lift.
  - now apply oblivious_push.
  - now apply oblivious_bind.
  - intros s1 s2 Hs. unfold bind, gen.
    destruct (randexp_gen (rand s1)) as [t1 r1] eqn:E1,
             (randexp_gen (rand s2)) as [t2 r2] eqn:E2.
    apply IHf.
    + exists (rand s1). now rewrite E1.
    + exists (rand s2). now rewrite E2.
    + exact Hs.
Qed.

Lemma preserves_ret {A : Type} (I : FunctionConstraints.t -> Prop) (a : A) :
  preserves I (ret a).
Proof. intros s Hs. exact Hs. Qed.

Lemma preserves_lift {A : Type} (I : FunctionConstraints.t -> Prop) (r : result A) :
  preserves I (lift r).
Proof. intros s Hs. unfold lift. destruct r; auto. Qed.

Lemma preserves_bind {A B : Type} (I : FunctionConstraints.t -> Prop)
      (m : M A) (f : A -> M B) :
  preserves I m -> (forall a, preserves I (f a)) -> preserves I (bind m f).
Proof.
  intros Hm Hf s Hs. unfold bind. specialize (Hm s Hs).
  destruct (m s) as [[a s'] | e]; auto. now apply Hf.
Qed.

Lemma preserves_for_each {A : Type} (I : FunctionConstraints.t -> Prop)
      (l : list A) (body : A -> M unit) :
  (forall a, In a l -> preserves I (body a)) -> preserves I (for_each l body).
Proof.
  induction l as [| a l IH]; intros H; cbn [for_each].
  - apply preserves_ret.
  - apply preserves_bind; [apply H; now left |].
    intros _. apply IH. intros a' Ha'. apply H. now right.
Qed.

(** A property that every push on an allowed parameter keeps is kept by
    every computation of the class. *)
Lemma Pushing_preserves (funcName : jsval) (allowed : jsval -> Prop)
      (I : FunctionConstraints.t -> Prop) :
  (forall ident c fc fc',
      I fc -> allowed ident -> Constraint.ident c = ident ->
      FunctionConstraints.push (Js.ToString funcName) (Js.ToString ident) c fc
      = Some fc' ->
      I fc') ->
  forall {A : Type} (m1 m2 : M A), Pushing funcName allowed m1 m2 -> preserves I m1.
Proof.
  intros Hpush A m1 m2.
  induction 1 as [A a | A r | ident c1 c2 Hc _ Hin _ | A B m1 m2 f1 f2 _ IHm _ IHf
                  | B f1 f2 _ IHf].
  - apply preserves_ret.
  - apply preserves_lift.
  - intros s Hs. unfold push.
    destruct (FunctionConstraints.push _ _ c1 _) as [fc' |] eqn:E; auto.
    cbn. exact (Hpush ident c1 _ fc' Hs Hin Hc E).
  - now apply preserves_bind.
  - intros s Hs. unfold bind, gen.
    destruct (randexp_gen (rand s)) as [t r] eqn:E.
    assert (Ht : drawn t) by (exists (rand s); now rewrite E).
    exact (IHf t t Ht Ht {| functionConstraints := functionConstraints s; rand := r |} Hs).
Qed.

(** ** The walk as a loop over the visited nodes *)

Lemma for_each_app {A : Type} (l1 l2 : list A) (body : A -> M unit) (s : State) :
  for_each (l1 ++ l2) body s = bind (for_each l1 body) (fun _ => for_each l2 body) s.
Proof.
  revert s. induction l1 as [| a l1 IH]; intros s; cbn [app for_each].
  - reflexivity.
  - unfold bind in *. destruct (body a s) as [[[] s'] | e]; [apply IH | reflexivity].
Qed.

Lemma jsval_induction (P : jsval -> Prop) :
  P VUndefined -> P VNull -> (forall b, P (VBool b)) -> (forall n, P (VNum n)) ->
  (forall s, P (VStr s)) ->
  (forall elems, Forall P elems -> P (VArr elems)) ->
  (forall props, Forall (fun kv => P (snd kv)) props -> P (VObj props)) ->
  (forall text, P (VRegExp text)) ->
  forall v, P v.
Proof.
  intros Hu Hn Hb Hnum Hs Harr Hobj Hre.
  fix IH 1. intros [| | b | n | s | elems | props | text].
  - exact Hu.
  - exact Hn.
  - apply Hb.
  - apply Hnum.
  - apply Hs.
  - apply Harr.
    exact ((fix go (l : list jsval) : Forall P l :=
              match l with
              | [] => Forall_nil P
              | x :: l' => Forall_cons x (IH x) (go l')
              end) elems).
  - apply Hobj.
    exact ((fix go (l : list (string * jsval)) : Forall (fun kv => P (snd kv)) l :=
              match l with
              | [] => Forall_nil _
              | x :: l' => Forall_cons x (IH (snd x)) (go l')
              end) props).
  - apply Hre.
Qed.

Lemma traverse_nodes (visitor : jsval -> M unit) (object : jsval) :
  forall s, traverse object visitor s = for_each (nodes object) visitor s.
Proof.
  induction object as [| | b | n | x | elems IH | props IH | x]
    using jsval_induction;
    intros s; cbn [traverse nodes for_each]; try reflexivity.
  - unfold bind. destruct (visitor (VArr elems) s) as [[[] s'] | e];
      [| reflexivity].
    clear s. revert s'. induction IH as [| child elems Hc _ IHl]; intros s.
    + reflexivity.
    + cbv beta iota fix. rewrite for_each_app. unfold bind.
      destruct (Js.is_object child).
      * rewrite Hc. destruct (for_each (nodes child) visitor s) as [[[] s'] | e];
          [apply IHl | reflexivity].
      * apply IHl.
  - unfold bind. destruct (visitor (VObj props) s) as [[[] s'] | e];
      [| reflexivity].
    clear s. revert s'. induction IH as [| [k child] props Hc _ IHl]; intros s.
    + reflexivity.
    + cbv beta iota fix. rewrite for_each_app. unfold bind.
      destruct (Js.is_object child).
      * cbn [snd] in Hc. rewrite Hc.
        destruct (for_each (nodes child) visitor s) as [[[] s'] | e];
          [apply IHl | reflexivity].
      * apply IHl.
Qed.

End Soundness.

(* ================================================================== *)
(** * The whole extraction *)

Lemma Obj_get_In {A : Type} (k : string) (a : A) (o : Obj.t A) :
  Obj.get k o = Some a -> In (k, a) o.
Proof.
  induction o as [| [k' x] o IH]; cbn; [discriminate |].
  destruct (String.eqb k' k) eqn:E.
  - apply String.eqb_eq in E. intros [= ->]. subst. now left.
  - intros H. right. now apply IH.
Qed.

Lemma Obj_set_In {A : Type} (k k' : string) (a a' : A) (o : Obj.t A) :
  In (k', a') (Obj.set k a o) -> (k', a') = (k, a) \/ In (k', a') o.
Proof.
  induction o as [| [k0 x] o IH]; cbn.
  - intros [H | []]. left. now symmetry.
  - destruct (String.eqb k0 k) eqn:E; cbn.
    + apply String.eqb_eq in E. subst k0.
      intros [H | H]; [left; now symmetry | right; now right].
    + intros [H | H]; [right; now left |].
      destruct (IH H) as [H' | H']; [now left | right; now right].
Qed.

Lemma Obj_keys_set_absent {A : Type} (k : string) (a : A) (o : Obj.t A) :
  ~ In k (Obj.keys o) -> Obj.keys (Obj.set k a o) = Obj.keys o ++ [k].
Proof.
  induction o as [| [k0 x] o IH]; cbn; intros H; [reflexivity |].
  destruct (String.eqb k0 k) eqn:E.
  - apply String.eqb_eq in E. exfalso. apply H. now left.
  - cbn. f_equal. apply IH. intros Hin. apply H. now right.
Qed.

Lemma Obj_get_key {A : Type} (k : string) (o : Obj.t A) :
  In k (Obj.keys o) -> exists a, Obj.get k o = Some a.
Proof.
  induction o as [| [k' x] o IH]; cbn; [intros [] |].
  destruct (String.eqb k' k) eqn:E; [eauto |].
  intros [H | H]; [apply String.eqb_neq in E; contradiction | auto].
Qed.

Lemma In_records_set (f : string) (r x : FunctionRecord.t)
      (fc : FunctionConstraints.t) :
  In x (records (FunctionConstraints.set f r fc)) -> x = r \/ In x (records fc).
Proof.
  unfold records, FunctionConstraints.set.
  destruct (String.eqb f "__proto__"); cbn; rewrite !in_app_iff.
  - intros [H | [H | []]]; [right; now left | left; now symmetry].
  - intros [H | H]; [| right; now right].
    apply in_map_iff in H. destruct H as [[k y] [Hy Hin]]. cbn in Hy. subst y.
    destruct (Obj_set_In _ _ _ _ _ Hin) as [H | H].
    + left. congruence.
    + right. left. apply in_map_iff. now exists (k, x).
Qed.

Lemma get_In_records (f : string) (r : FunctionRecord.t) (fc : FunctionConstraints.t) :
  FunctionConstraints.get f fc = Some r -> In r (records fc).
Proof.
  unfold FunctionConstraints.get, records. rewrite in_app_iff.
  destruct (String.eqb f "__proto__").
  - intros ->. right. now left.
  - intros H. left. apply in_map_iff. exists (f, r). split; [reflexivity |].
    now apply Obj_get_In.
Qed.

Lemma zipObject_empty_lists (params : list jsval) (k : string)
      (l : list Constraint.t) :
  In (k, l) (zipObject_empty params) -> l = [].
Proof.
  unfold zipObject_empty.
  assert (H : forall o : Obj.t (list Constraint.t),
             (forall k l, In (k, l) o -> l = []) ->
             In (k, l) (fold_left (fun o p => Obj.set (Js.ToString p) [] o) params o) ->
             l = []).
  { induction params as [| p ps IH]; intros o Ho; cbn.
    - apply Ho.
    - apply IH. intros k' l' Hin.
      destruct (Obj_set_In _ _ _ _ _ Hin) as [E | Hin']; [congruence | eauto]. }
  apply H. intros ? ? [].
Qed.

Lemma zipObject_empty_keys (names : list string) :
  NoDup names -> Obj.keys (zipObject_empty (map VStr names)) = names.
Proof.
  unfold zipObject_empty.
  assert (H : forall o : Obj.t (list Constraint.t),
             NoDup names -> (forall x, In x names -> ~ In x (Obj.keys o)) ->
             Obj.keys (fold_left (fun o p => Obj.set (Js.ToString p) [] o)
                         (map VStr names) o)
             = Obj.keys o ++ names).
  { induction names as [| x names IH]; intros o Hnd Hfresh; cbn [map fold_left].
    - now rewrite app_nil_r.
    - inversion Hnd as [| ? ? Hx Hnd']; subst.
      rewrite IH; auto.
      + rewrite Obj_keys_set_absent by (apply Hfresh; now left).
        now rewrite <- app_assoc.
      + intros y Hy. rewrite Obj_keys_set_absent by (apply Hfresh; now left).
        rewrite in_app_iff. intros [H | [H | []]].
        * apply (Hfresh y); [now right | exact H].
        * subst y. contradiction. }
  intros Hnd. now rewrite H.
Qed.

Section Extraction.

Context {host : Host}.

(** ** Constraints are on declared parameters *)

Lemma walking_push (funcName : jsval) (params : list jsval) (ident : jsval)
      (c : Constraint.t) (fc fc' : FunctionConstraints.t) :
  walking funcName params fc -> In ident params -> Constraint.ident c = ident ->
  FunctionConstraints.push (Js.ToString funcName) (Js.ToString ident) c fc = Some fc' ->
  walking funcName params fc'.
Proof.
  intros [Hall [r [Hr Hps]]] Hin Hc. unfold FunctionConstraints.push.
  rewrite Hr.
  destruct (Obj.get (Js.ToString ident) (FunctionRecord.constraints r)) as [l |] eqn:Hl;
    [| discriminate].
  intros [= <-]. split.
  - apply Forall_forall. intros x Hx.
    apply In_records_set in Hx. destruct Hx as [-> | Hx];
      [| exact (proj1 (Forall_forall _ _) Hall x Hx)].
    intros k' l' c' Hkl Hc'. cbn [FunctionRecord.constraints FunctionRecord.params] in *.
    assert (Hrdecl : idents_declared r)
      by exact (proj1 (Forall_forall _ _) Hall r (get_In_records _ _ _ Hr)).
    destruct (Obj_set_In _ _ _ _ _ Hkl) as [E | Hold].
    + injection E as -> ->. apply in_app_iff in Hc'.
      destruct Hc' as [Hc' | [<- | []]].
      * exact (Hrdecl _ _ _ (Obj_get_In _ _ _ Hl) Hc').
      * rewrite Hc, Hps. exact Hin.
    + exact (Hrdecl _ _ _ Hold Hc').
  - eexists. split; [apply FC_get_set_same | exact Hps].
Qed.

Lemma visit_child_walking (buf : string) (funcName : jsval) (params : list jsval)
      (child : jsval) :
  preserves (walking funcName params) (visit_child buf funcName params child).
Proof.
  apply (Pushing_preserves funcName (addressed params child)
           (walking funcName params))
    with (m2 := visit_child buf funcName params child).
  - intros ident c fc fc' H [Hin _]. now apply walking_push.
  - apply visit_child_pushing.
Qed.

Lemma walking_init (funcName : jsval) (params : list jsval)
      (fc : FunctionConstraints.t) :
  Forall idents_declared (records fc) ->
  walking funcName params
    (FunctionConstraints.set (Js.ToString funcName)
       (FunctionRecord.new (zipObject_empty params) params) fc).
Proof.
  intros Hall. split.
  - apply Forall_forall. intros x Hx.
    apply In_records_set in Hx. destruct Hx as [-> | Hx];
      [| exact (proj1 (Forall_forall _ _) Hall x Hx)].
    intros k l c Hkl Hc. cbn in Hkl.
    rewrite (zipObject_empty_lists _ _ _ Hkl) in Hc. destruct Hc.
  - eexists. split; [apply FC_get_set_same | reflexivity].
Qed.

Lemma traverse_preserves (I : FunctionConstraints.t -> Prop)
      (visitor : jsval -> M unit) (object : jsval) :
  (forall n, preserves I (visitor n)) -> preserves I (traverse object visitor).
Proof.
  intros H s Hs. rewrite traverse_nodes.
  apply preserves_for_each; auto.
Qed.

Lemma visit_node_declared (buf : string) (node : jsval) :
  preserves (fun fc => Forall idents_declared (records fc)) (visit_node buf node).
Proof.
  intros s Hs. unfold visit_node, bind, prop, lift.
  destruct (Js.get node "type") as [ty | e]; [| exact I].
  destruct (Js.is_text ty "FunctionDeclaration"); [| exact Hs].
  destruct (functionName node) as [fn | e]; [| exact I].
  destruct (param_names node) as [ps | e]; [| exact I].
  unfold init_record.
  assert (H := traverse_preserves (walking fn ps) (visit_child buf fn ps) node
                 (visit_child_walking buf fn ps)
                 (with_constraints s
                    (FunctionConstraints.set (Js.ToString fn)
                       (FunctionRecord.new (zipObject_empty ps) ps)
                       (functionConstraints s)))
                 (walking_init fn ps _ Hs)).
  destruct (traverse node (visit_child buf fn ps) _) as [[[] s'] | e]; [| exact I].
  exact (proj1 H).
Qed.

Lemma rmap_In {A B : Type} (f : A -> result B) (l : list A) (l' : list B) (y : B) :
  rmap f l = Ok l' -> In y l' -> exists x, In x l /\ f x = Ok y.
Proof.
  revert l'. induction l as [| a l IH]; intros l'; cbn [rmap]; unfold rbind.
  - intros [= <-] [].
  - destruct (f a) as [b | e] eqn:Hb; [| discriminate].
    destruct (rmap f l) as [bs | e]; [| discriminate].
    intros [= <-] [<- | Hin].
    + exists a. split; [now left | exact Hb].
    + destruct (IH bs eq_refl Hin) as [x [Hx Hfx]].
      exists x. split; [now right | exact Hfx].
Qed.

Lemma param_names_In (node : jsval) (params : list jsval) (x : jsval) :
  param_names node = Ok params -> In x params ->
  exists ps p, field node "params" (VArr ps) /\ In p ps /\ field p "name" x.
Proof.
  unfold param_names, rbind, field.
  destruct (Js.get node "params") as [[| | | | | ps | |] | e]; try discriminate.
  intros Hmap Hin. destruct (rmap_In _ _ _ _ Hmap Hin) as [p [Hp Hname]].
  exists ps, p. auto.
Qed.

Lemma push_same_shapes (fc0 : FunctionConstraints.t) (f k : string)
      (c : Constraint.t) (fc fc' : FunctionConstraints.t) :
  same_shapes fc0 fc -> FunctionConstraints.push f k c fc = Some fc' ->
  same_shapes fc0 fc'.
Proof.
  intros H0. unfold FunctionConstraints.push.
  destruct (FunctionConstraints.get f fc) as [r |] eqn:Hr; [| discriminate].
  destruct (Obj.get k (FunctionRecord.constraints r)) as [l |] eqn:Hl; [| discriminate].
  intros [= <-] f'. rewrite <- H0.
  destruct (String.eqb f' f) eqn:E.
  - apply String.eqb_eq in E. subst f'. rewrite FC_get_set_same, Hr.
    cbn [option_map]. unfold shape.
    cbn [FunctionRecord.params FunctionRecord.constraints].
    now rewrite (Obj_keys_set_present _ _ _ _ Hl).
  - apply String.eqb_neq in E. now rewrite FC_get_set_other.
Qed.

Lemma visit_child_same_shapes (fc0 : FunctionConstraints.t) (buf : string)
      (funcName : jsval) (params : list jsval) (child : jsval) :
  preserves (same_shapes fc0) (visit_child buf funcName params child).
Proof.
  apply (Pushing_preserves funcName (addressed params child) (same_shapes fc0))
    with (m2 := visit_child buf funcName params child).
  - intros ident c fc fc' H _ _. now apply push_same_shapes.
  - apply visit_child_pushing.
Qed.

Lemma declared_key_function (node ty fn : jsval) :
  Js.get node "type" = Ok ty -> Js.is_text ty "FunctionDeclaration" = true ->
  functionName node = Ok fn -> declared_key node = Some (Js.ToString fn).
Proof. unfold declared_key. now intros -> -> ->. Qed.

Lemma declared_key_other (node ty : jsval) :
  Js.get node "type" = Ok ty -> Js.is_text ty "FunctionDeclaration" = false ->
  declared_key node = None.
Proof. unfold declared_key. now intros -> ->. Qed.

Lemma filed_more (visited : list jsval) (node : jsval) (fc : FunctionConstraints.t) :
  declared_key node = None -> filed visited fc -> filed (visited ++ [node]) fc.
Proof.
  intros Hk [K1 K2]. split.
  - intros f r Hr. destruct (K1 f r Hr) as [n [Hn H]].
    exists n. split; [apply in_app_iff; now left | exact H].
  - intros n f Hn Hf. apply in_app_iff in Hn.
    destruct Hn as [Hn | [<- | []]]; [now apply (K2 n) | congruence].
Qed.

Lemma filed_function (visited : list jsval) (node fn : jsval) (ps : list jsval)
      (fc fc' : FunctionConstraints.t) :
  declared_key node = Some (Js.ToString fn) ->
  param_names node = Ok ps ->
  same_shapes
    (FunctionConstraints.set (Js.ToString fn)
       (FunctionRecord.new (zipObject_empty ps) ps) fc) fc' ->
  filed visited fc -> filed (visited ++ [node]) fc'.
Proof.
  intros Hk Hps Hsh [K1 K2].
  set (fc1 := FunctionConstraints.set (Js.ToString fn)
                (FunctionRecord.new (zipObject_empty ps) ps) fc) in *.
  split.
  - intros f r Hr. specialize (Hsh f). rewrite Hr in Hsh. cbn in Hsh.
    destruct (FunctionConstraints.get f fc1) as [r1 |] eqn:Hr1; [| discriminate].
    injection Hsh as Hp Hkeys.
    destruct (String.eqb f (Js.ToString fn)) eqn:E.
    + apply String.eqb_eq in E. subst f. unfold fc1 in Hr1.
      rewrite FC_get_set_same in Hr1. injection Hr1 as <-. cbn in Hp, Hkeys.
      exists node. repeat split.
      * apply in_app_iff. right. now left.
      * exact Hk.
      * now rewrite Hp.
      * now rewrite Hkeys, Hp.
    + apply String.eqb_neq in E. unfold fc1 in Hr1.
      rewrite FC_get_set_other in Hr1 by exact E.
      destruct (K1 f r1 Hr1) as [n [Hn [Hkn [Hpn Hkeysn]]]].
      exists n. repeat split.
      * apply in_app_iff. now left.
      * exact Hkn.
      * now rewrite Hp.
      * now rewrite Hkeys, Hp.
  - intros n f Hn Hf Hnone. specialize (Hsh f). rewrite Hnone in Hsh. cbn in Hsh.
    destruct (FunctionConstraints.get f fc1) as [r1 |] eqn:Hr1; [discriminate |].
    unfold fc1 in Hr1.
    destruct (String.eqb f (Js.ToString fn)) eqn:E.
    + apply String.eqb_eq in E. subst f. now rewrite FC_get_set_same in Hr1.
    + apply String.eqb_neq in E. rewrite FC_get_set_other in Hr1 by exact E.
      apply in_app_iff in Hn. destruct Hn as [Hn | [<- | []]].
      * exact (K2 n f Hn Hf Hr1).
      * rewrite Hk in Hf. injection Hf as <-. now apply E.
Qed.

Lemma same_shapes_refl (fc : FunctionConstraints.t) : same_shapes fc fc.
Proof. intros f. reflexivity. Qed.

Lemma Obj_keys_set_In {A : Type} (k k' : string) (a : A) (o : Obj.t A) :
  In k (Obj.keys o) \/ k = k' -> In k (Obj.keys (Obj.set k' a o)).
Proof.
  induction o as [| [k0 x] o IH]; cbn.
  - intros [[] | ->]. now left.
  - destruct (String.eqb k0 k') eqn:E; cbn.
    + apply String.eqb_eq in E. subst k0. intros [[H | H] | ->]; auto.
    + intros [[H | H] | ->]; auto.
Qed.

Lemma zipObject_empty_has_key (params : list jsval) (p : jsval) :
  In p params -> In (Js.ToString p) (Obj.keys (zipObject_empty params)).
Proof.
  unfold zipObject_empty.
  assert (H : forall o : Obj.t (list Constraint.t),
             In (Js.ToString p) (Obj.keys o) \/ In p params ->
             In (Js.ToString p)
                (Obj.keys (fold_left (fun o q => Obj.set (Js.ToString q) [] o)
                             params o))).
  { induction params as [| q ps IH]; intros o; cbn [fold_left].
    - intros [H | []]. exact H.
    - intros [H | [-> | H]]; apply IH; auto; left; apply Obj_keys_set_In; auto. }
  intros Hin. apply H. now right.
Qed.

(** The visits of the inner walk find the list of every declared parameter:
    it is there when the walk starts and no visit removes it. *)
Lemma inner_walk_keeps_lists (buf : string) (funcName : jsval)
      (params visited : list jsval) (fc : FunctionConstraints.t) (r : Rand)
      (s' : State) (p : jsval) :
  In p params ->
  for_each visited (visit_child buf funcName params) (declared funcName params fc r)
  = Ok (tt, s') ->
  exists l,
    FunctionConstraints.constraints_of (Js.ToString funcName) (Js.ToString p)
      (functionConstraints s') = Some l.
Proof.
  intros Hin Hrun.
  assert (H := preserves_for_each
                 (same_shapes (functionConstraints (declared funcName params fc r)))
                 visited (visit_child buf funcName params)
                 (fun child _ => visit_child_same_shapes _ buf funcName params child)
                 (declared funcName params fc r) (same_shapes_refl _)).
  rewrite Hrun in H. specialize (H (Js.ToString funcName)).
  unfold declared in H. cbn [functionConstraints] in H.
  rewrite FC_get_set_same in H. cbn [option_map] in H.
  unfold FunctionConstraints.constraints_of.
  destruct (FunctionConstraints.get (Js.ToString funcName) (functionConstraints s'))
    as [r1 |]; [| discriminate].
  injection H as _ Hkeys. apply Obj_get_key. rewrite Hkeys.
  now apply zipObject_empty_has_key.
Qed.

Lemma visit_node_filed (buf : string) (node : jsval) (visited : list jsval)
      (s s' : State) :
  visit_node buf node s = Ok (tt, s') ->
  filed visited (functionConstraints s) ->
  filed (visited ++ [node]) (functionConstraints s').
Proof.
  unfold visit_node, bind, prop, lift. intros Hrun Hf.
  destruct (Js.get node "type") as [ty | e] eqn:Hty; [| discriminate].
  destruct (Js.is_text ty "FunctionDeclaration") eqn:Hfd.
  - destruct (functionName node) as [fn | e] eqn:Hfn; [| discriminate].
    destruct (param_names node) as [ps | e] eqn:Hps; [| discriminate].
    unfold init_record in Hrun.
    assert (H := traverse_preserves _ (visit_child buf fn ps) node
                   (visit_child_same_shapes
                      (FunctionConstraints.set (Js.ToString fn)
                         (FunctionRecord.new (zipObject_empty ps) ps)
                         (functionConstraints s)) buf fn ps)
                   (with_constraints s
                      (FunctionConstraints.set (Js.ToString fn)
                         (FunctionRecord.new (zipObject_empty ps) ps)
                         (functionConstraints s)))
                   (same_shapes_refl _)).
    rewrite Hrun in H.
    exact (filed_function visited node fn ps _ _
             (declared_key_function _ _ _ Hty Hfd Hfn) Hps H Hf).
  - injection Hrun as <-.
    exact (filed_more visited node _ (declared_key_other _ _ Hty Hfd) Hf).
Qed.

Lemma for_each_filed (buf : string) (l visited : list jsval) (s s' : State) :
  for_each l (visit_node buf) s = Ok (tt, s') ->
  filed visited (functionConstraints s) ->
  filed (visited ++ l) (functionConstraints s').
Proof.
  revert visited s. induction l as [| node l IH]; intros visited s; cbn [for_each].
  - intros [= <-]. now rewrite app_nil_r.
  - unfold bind. destruct (visit_node buf node s) as [[[] s1] | e] eqn:E;
      [| discriminate].
    intros Hrun Hf.
    replace (visited ++ node :: l) with ((visited ++ [node]) ++ l)
      by (now rewrite <- app_assoc).
    apply (IH _ s1 Hrun). exact (visit_node_filed buf node visited s s1 E Hf).
Qed.

Lemma filed_empty : filed [] FunctionConstraints.empty.
Proof.
  split.
  - intros f r. unfold FunctionConstraints.get. cbn.
    destruct (String.eqb f "__proto__"); discriminate.
  - intros n f [].
Qed.


(** C6, as the code has it.  Every constraint is on an entry of the
    parameter list of the function that owns it: each visit of the inner
    walk keeps this, in every branch that pushes, and it holds of every
    record of a result the extraction returns.  The parameter list of a
    record is that of a function declaration of the tree filed under the
    key of the record, and its entries are what the parameter nodes of
    the declaration have as [name]: the ident of a constraint is the
    [name] property of a parameter node, which for an identifier is the
    name of the parameter. *)
Theorem constraint_idents_are_parameter_list_entries :
  (forall buf funcName params child,
      preserves (walking funcName params) (visit_child buf funcName params child)) /\
  (forall filePath r fc r',
      constraints filePath r = Ok (fc, r') ->
      Forall idents_declared (records fc)) /\
  (forall filePath r fc r' buf tree f rec k l c,
      readFileSync filePath = Ok buf ->
      esprima_parse buf options = Ok tree ->
      constraints filePath r = Ok (fc, r') ->
      FunctionConstraints.get f fc = Some rec ->
      In (k, l) (FunctionRecord.constraints rec) -> In c l ->
      exists node ps p,
        In node (nodes tree) /\ declared_key node = Some f /\
        field node "params" (VArr ps) /\ In p ps /\
        field p "name" (Constraint.ident c)).
Proof.
  assert (Hall : forall filePath r fc r',
             constraints filePath r = Ok (fc, r') ->
             Forall idents_declared (records fc)).
  { intros filePath r fc r'. unfold constraints.
    destruct (readFileSync filePath) as [buf | e]; [| discriminate].
    destruct (esprima_parse buf options) as [tree | e]; [| discriminate].
    assert (H := traverse_preserves _ (visit_node buf) tree (visit_node_declared buf)
                   {| functionConstraints := FunctionConstraints.empty; rand := r |}
                   (Forall_nil _)).
    destruct (traverse tree (visit_node buf) _) as [[[] s] | e]; [| discriminate].
    intros [= <- _]. exact H. }
  split; [exact visit_child_walking |]. split; [exact Hall |].
  intros filePath r fc r' buf tree f rec k l c Hread Hparse Hrun Hrec Hkl Hc.
  assert (Hin : In (Constraint.ident c) (FunctionRecord.params rec)).
  { exact (proj1 (Forall_forall _ _) (Hall _ _ _ _ Hrun) rec
             (get_In_records _ _ _ Hrec) k l c Hkl Hc). }
  unfold constraints in Hrun. rewrite Hread, Hparse in Hrun.
  destruct (traverse tree (visit_node buf) _) as [[[] s] | e] eqn:E;
    [| discriminate].
  injection Hrun as <- _. rewrite traverse_nodes in E.
  destruct (for_each_filed buf (nodes tree) [] _ s E filed_empty) as [K1 _].
  cbn [app] in K1.
  destruct (K1 f rec Hrec) as [node [Hnode [Hkey [Hps _]]]].
  destruct (param_names_In node _ _ Hps Hin) as [ps [p [Hfield [Hp Hname]]]].
  exists node, ps, p. auto.
Qed.

(** ** Input errors *)

(** C8.  An unreadable file and an unparsable text abort the extraction
    with the error of the file system or of the parser; and every call
    either raises or returns the object that the walk of the whole tree
    has built. *)
Theorem input_errors_abort_extraction (filePath : string) (r : Rand) :
  (forall e, readFileSync filePath = Throw e -> constraints filePath r = Throw e) /\
  (forall buf e,
      readFileSync filePath = Ok buf -> esprima_parse buf options = Throw e ->
      constraints filePath r = Throw e) /\
  ((exists e, constraints filePath r = Throw e) \/
   (exists buf tree s,
       readFileSync filePath = Ok buf /\
       esprima_parse buf options = Ok tree /\
       traverse tree (visit_node buf)
         {| functionConstraints := FunctionConstraints.empty; rand := r |}
       = Ok (tt, s) /\
       constraints filePath r = Ok (functionConstraints s, rand s))).
Proof.
  unfold constraints. split; [| split].
  - now intros e ->.
  - now intros buf e -> ->.
  - destruct (readFileSync filePath) as [buf | e]; [| left; eauto].
    destruct (esprima_parse buf options) as [tree | e] eqn:Hp; [| left; eauto].
    destruct (traverse tree (visit_node buf) _) as [[[] s] | e] eqn:E;
      [| left; eauto].
    right. exists buf, tree, s. auto.
Qed.

(** ** Two runs *)

Lemma traverse_oblivious (visitor : jsval -> M unit) (object : jsval) :
  (forall n, oblivious (visitor n) (visitor n)) ->
  oblivious (traverse object visitor) (traverse object visitor).
Proof.
  intros H s1 s2 Hs. rewrite !traverse_nodes.
  apply oblivious_for_each; auto.
Qed.

Lemma visit_node_oblivious (buf : string) (node : jsval) :
  oblivious (visit_node buf node) (visit_node buf node).
Proof.
  unfold visit_node.
  apply oblivious_bind; [apply oblivious_lift | intros ty].
  destruct (Js.is_text ty "FunctionDeclaration"); [| apply oblivious_ret].
  apply oblivious_bind; [apply oblivious_lift | intros fn].
  apply oblivious_bind; [apply oblivious_lift | intros ps].
  apply oblivious_bind; [apply oblivious_init | intros _].
  apply traverse_oblivious. intros n.
  exact (Pushing_oblivious fn _ _ _ (visit_child_pushing buf fn ps n)).
Qed.

Lemma alike_same_frame (c1 c2 : Constraint.t) :
  alike c1 c2 ->
  Constraint.ident c1 = Constraint.ident c2 /\
  Constraint.kind_ c1 = Constraint.kind_ c2 /\
  Constraint.operator c1 = Constraint.operator c2 /\
  Constraint.expression c1 = Constraint.expression c2 /\
  Constraint.funcName c1 = Constraint.funcName c2 /\
  Constraint.altvalue c1 = Constraint.altvalue c2.
Proof.
  intros [-> | [ident [expression [op [fn [inner [t1 [t2 [_ [_ [-> ->]]]]]]]]]]];
    repeat split.
Qed.

(** C9.  Two runs on the same file, from any two states of the random
    source, end alike: both raise the same exception, or both return and
    their results have the same functions with the same parameters and,
    per parameter, as many constraints, which are one by one the same
    constraint, or the second constraint of the fallback on the single
    parameter with the same inner text, whose values differ only in what
    is kept of the two drawn texts, their characters after the third.
    Two alike constraints have the same ident, kind, operator, expression
    and function name. *)
Theorem runs_differ_in_drawn_digits_only (filePath : string) (r1 r2 : Rand) :
  alike_outcomes (constraints filePath r1) (constraints filePath r2) /\
  (forall c1 c2,
      alike c1 c2 ->
      Constraint.ident c1 = Constraint.ident c2 /\
      Constraint.kind_ c1 = Constraint.kind_ c2 /\
      Constraint.operator c1 = Constraint.operator c2 /\
      Constraint.expression c1 = Constraint.expression c2 /\
      Constraint.funcName c1 = Constraint.funcName c2 /\
      Constraint.altvalue c1 = Constraint.altvalue c2).
Proof.
  split; [| exact alike_same_frame].
  unfold constraints.
  destruct (readFileSync filePath) as [buf | e]; [| reflexivity].
  destruct (esprima_parse buf options) as [tree | e]; [| reflexivity].
  assert (H := traverse_oblivious (visit_node buf) tree (visit_node_oblivious buf)
                 {| functionConstraints := FunctionConstraints.empty; rand := r1 |}
                 {| functionConstraints := FunctionConstraints.empty; rand := r2 |}
                 (alike_results_refl _)).
  destruct (traverse tree (visit_node buf) _) as [[[] s1] | e1],
           (traverse tree (visit_node buf) _) as [[[] s2] | e2];
    cbn in H |- *; try contradiction.
  - exact (proj2 H).
  - exact H.
Qed.

(** ** One entry per declared parameter *)

Lemma declares_functionName (node : jsval) (name : string) (names : list string) :
  declares node name names -> functionName node = Ok (VStr name).
Proof.
  intros [Hty [[id [Hid [Ht Hn]]] _]]. unfold field in *.
  unfold functionName, rbind. rewrite Hid. cbv beta iota.
  rewrite Ht. cbv beta iota. exact Hn.
Qed.

Lemma declares_key (node : jsval) (name : string) (names : list string) :
  declares node name names -> declared_key node = Some name.
Proof.
  intros H. unfold declared_key.
  rewrite (declares_functionName node name names H).
  destruct H as [Hty _]. unfold field in Hty. now rewrite Hty.
Qed.

Lemma declares_params (node : jsval) (name : string) (names : list string) :
  declares node name names -> param_names node = Ok (map VStr names).
Proof.
  intros [_ [_ [ps [Hps Hall]]]]. unfold field in *.
  unfold param_names, rbind. rewrite Hps. clear Hps.
  induction Hall as [| p x ps names [_ [Hp _]] _ IH]; [reflexivity |].
  cbn [rmap map]. unfold rbind, field in *. now rewrite Hp, IH.
Qed.

Lemma push_other_list (f k f' k' : string) (c : Constraint.t)
      (fc fc' : FunctionConstraints.t) :
  FunctionConstraints.push f k c fc = Some fc' -> (f', k') <> (f, k) ->
  FunctionConstraints.constraints_of f' k' fc'
  = FunctionConstraints.constraints_of f' k' fc.
Proof.
  intros Hpush Hne.
  destruct (FunctionConstraints.constraints_of f k fc) as [l |] eqn:Hl.
  - destruct (FC_push_appended f k c fc l Hl) as [fc'' [Hpush' [_ [Hother _]]]].
    rewrite Hpush in Hpush'. injection Hpush' as <-. now apply Hother.
  - unfold FunctionConstraints.push, FunctionConstraints.constraints_of in *.
    destruct (FunctionConstraints.get f fc); [| discriminate].
    now rewrite Hl in Hpush.
Qed.

(** A visit pushes nothing on the list of [x] in the record of [name]
    unless it is a visit of the walk of that function at a node that is
    matched with a parameter of key [x]. *)
Lemma visit_child_keeps_empty (buf : string) (fn : jsval) (ps : list jsval)
      (child : jsval) (name x : string) :
  (Js.ToString fn = name ->
   forall ident, In ident ps -> Js.ToString ident = x ->
                 matched ps child ident = false) ->
  preserves (fun fc => forall l,
                 FunctionConstraints.constraints_of name x fc = Some l -> l = [])
    (visit_child buf fn ps child).
Proof.
  intros Hquiet.
  apply (Pushing_preserves fn (addressed ps child) _)
    with (m2 := visit_child buf fn ps child); [| apply visit_child_pushing].
  intros ident c fc fc' Hfc [Hin Hm] _ Hpush l.
  rewrite (push_other_list _ _ name x _ _ _ Hpush); [apply Hfc |].
  intros [= Hf Hk].
  rewrite (Hquiet (eq_sym Hf) ident Hin (eq_sym Hk)) in Hm. discriminate.
Qed.

Lemma visit_node_keeps_empty (buf : string) (node : jsval) (name : string)
      (names : list string) (x : string) :
  (declared_key node = Some name ->
   param_names node = Ok (map VStr names) /\
   forall child, In child (nodes node) ->
                 matched (map VStr names) child (VStr x) = false) ->
  preserves (fun fc => forall l,
                 FunctionConstraints.constraints_of name x fc = Some l -> l = [])
    (visit_node buf node).
Proof.
  intros Hdecl s Hs. unfold visit_node, bind, prop, lift.
  destruct (Js.get node "type") as [ty | e] eqn:Hty; [| exact I].
  destruct (Js.is_text ty "FunctionDeclaration") eqn:Hfd; [| exact Hs].
  destruct (functionName node) as [fn | e] eqn:Hfn; [| exact I].
  destruct (param_names node) as [ps | e] eqn:Hps; [| exact I].
  unfold init_record. rewrite traverse_nodes.
  apply (preserves_for_each
           (fun fc => forall l,
                FunctionConstraints.constraints_of name x fc = Some l -> l = [])).
  - intros child Hchild. apply visit_child_keeps_empty.
    intros Hname ident Hin Hx.
    destruct Hdecl as [Hparams Hquiet].
    { rewrite <- Hname. exact (declared_key_function _ _ _ Hty Hfd Hfn). }
    injection Hparams as ->. apply in_map_iff in Hin.
    destruct Hin as [y [<- _]]. cbn in Hx. subst y. now apply Hquiet.
  - cbn [functionConstraints with_constraints].
    unfold FunctionConstraints.constraints_of. intros l.
    destruct (String.eqb name (Js.ToString fn)) eqn:E.
    + apply String.eqb_eq in E. subst name. rewrite FC_get_set_same.
      cbn [FunctionRecord.constraints]. intros Hl.
      exact (zipObject_empty_lists _ _ _ (Obj_get_In _ _ _ Hl)).
    + apply String.eqb_neq in E. rewrite FC_get_set_other by exact E.
      apply Hs.
Qed.

(** C7, as the code has it.  When the extraction returns, a function
    declaration with N identifier parameters of pairwise distinct names,
    named other than [__proto__], whose name is shared only with
    declarations of the same parameter names, has in the result a record
    under its name with its parameters, and the constraints of the record
    have exactly N entries, one per parameter in declaration order, each
    present whether or not a recognizer matched.  A parameter that no
    node of the declarations of that name is matched with maps, in the
    result, to the empty list. *)
Theorem declaration_has_one_entry_per_distinct_parameter
        (filePath : string) (r r' : Rand) (fc : FunctionConstraints.t)
        (buf : string) (tree node : jsval) (name : string) (names : list string) :
  readFileSync filePath = Ok buf ->
  esprima_parse buf options = Ok tree ->
  constraints filePath r = Ok (fc, r') ->
  In node (nodes tree) ->
  declares node name names ->
  name <> "__proto__" ->
  NoDup names ->
  (forall node', In node' (nodes tree) -> declared_key node' = Some name ->
                 param_names node' = param_names node) ->
  (exists rec,
      Obj.get name (FunctionConstraints.own fc) = Some rec /\
      FunctionRecord.params rec = map VStr names /\
      Obj.keys (FunctionRecord.constraints rec) = names /\
      length (FunctionRecord.constraints rec) = length names /\
      forall x, In x names ->
                exists l, Obj.get x (FunctionRecord.constraints rec) = Some l) /\
  (forall x,
      In x names ->
      (forall node' child,
          In node' (nodes tree) -> declared_key node' = Some name ->
          In child (nodes node') ->
          matched (map VStr names) child (VStr x) = false) ->
      FunctionConstraints.constraints_of name x fc = Some []).
Proof.
  intros Hread Hparse Hrun Hnode Hdecl Hname Hnd Huniq.
  unfold constraints in Hrun. rewrite Hread, Hparse in Hrun.
  destruct (traverse tree (visit_node buf) _) as [[[] s] | e] eqn:E;
    [| discriminate].
  injection Hrun as <- _. rewrite traverse_nodes in E.
  assert (Hfirst :
            exists rec,
              Obj.get name (FunctionConstraints.own (functionConstraints s))
              = Some rec /\
              FunctionRecord.params rec = map VStr names /\
              Obj.keys (FunctionRecord.constraints rec) = names /\
              length (FunctionRecord.constraints rec) = length names /\
              forall x, In x names ->
                        exists l, Obj.get x (FunctionRecord.constraints rec) = Some l).
  { destruct (for_each_filed buf (nodes tree) [] _ s E filed_empty) as [K1 K2].
    cbn [app] in K1, K2.
    destruct (FunctionConstraints.get name (functionConstraints s)) as [rec |] eqn:Hrec;
      [| now destruct (K2 node name Hnode (declares_key _ _ _ Hdecl))].
    destruct (K1 name rec Hrec) as [node' [Hin' [Hk' [Hp' Hkeys']]]].
    rewrite (Huniq node' Hin' Hk'), (declares_params _ _ _ Hdecl) in Hp'.
    injection Hp' as Hp'. rewrite <- Hp', (zipObject_empty_keys names Hnd) in Hkeys'.
    exists rec. unfold FunctionConstraints.get in Hrec.
    apply String.eqb_neq in Hname. rewrite Hname in Hrec.
    repeat split; auto.
    + unfold Obj.keys in Hkeys'. rewrite <- Hkeys'. now rewrite length_map.
    + intros x Hx. apply Obj_get_key. now rewrite Hkeys'. }
  split; [exact Hfirst |].
  intros x Hx Hquiet.
  destruct Hfirst as [rec [Hrec [_ [_ [_ Hlists]]]]].
  destruct (Hlists x Hx) as [l Hl].
  assert (Hof : FunctionConstraints.constraints_of name x (functionConstraints s)
                = Some l).
  { unfold FunctionConstraints.constraints_of, FunctionConstraints.get.
    apply String.eqb_neq in Hname. now rewrite Hname, Hrec. }
  rewrite Hof. f_equal.
  assert (H := preserves_for_each
                 (fun fc => forall l,
                      FunctionConstraints.constraints_of name x fc = Some l -> l = [])
                 (nodes tree) (visit_node buf)).
  specialize (H (fun node' Hin' =>
                   visit_node_keeps_empty buf node' name names x
                     (fun Hk => conj (eq_trans (Huniq node' Hin' Hk)
                                        (declares_params _ _ _ Hdecl))
                                  (fun child Hc => Hquiet node' child Hin' Hk Hc)))
                {| functionConstraints := FunctionConstraints.empty; rand := r |}).
  rewrite E in H. apply H; [| exact Hof].
  intros l0. unfold FunctionConstraints.constraints_of, FunctionConstraints.get.
  cbn. destruct (String.eqb name "__proto__"); discriminate.
Qed.

End Extraction.

(* ================================================================== *)
(** * The sample programs *)

Section OnSamples.

Import Samples Esprima.

Example subject_tokens_cover_text :
  tokens_agree subject_text subject_tokens
  && tokens_agree broken_text broken_tokens
  && tokens_agree twice_text twice_tokens
  && tokens_agree unused_text unused_tokens
  && tokens_agree default_text default_tokens = true.
Proof. vm_compute. reflexivity. Qed.

Example parseInt_samples :
  parseInt "32" = Num 32 /\ parseInt "3.5" = Num 3 /\ parseInt "0x1F" = Num 31 /\
  parseInt "1e3" = Num 1 /\ parseInt "q" = NaN /\ parseInt "-7" = Num (-7).
Proof. repeat split. Qed.

(** Beyond 2^53 the values are rounded as doubles are: a comparison with
    9007199254740993 gives 9007199254740991 and 9007199254740992. *)
Example parseInt_beyond_safe_integers :
  parseInt "9007199254740993" = Num 9007199254740992 /\
  jsnum_add (parseInt "9007199254740993") (-1) = Num 9007199254740991 /\
  jsnum_add (parseInt "9007199254740993") 1 = Num 9007199254740992.
Proof. repeat split. Qed.

(** The rounds of the counting loop for some right-hand texts: the text is
    converted to a double, and the counter stops at the least integer that
    is not below it. *)
Example filler_rounds_samples :
  filler_rounds "2" = Some 2%Z /\ filler_rounds "2.5" = Some 3%Z /\
  filler_rounds "-1" = Some 0%Z /\ filler_rounds "x" = Some 0%Z /\
  filler_rounds "1e-400" = Some 0%Z /\
  filler_rounds "1.00000000000000000001" = Some 1%Z /\
  filler_rounds "1e21" = None /\ filler_rounds "Infinity" = None.
Proof. repeat split. Qed.

(** The comparison [p>q] of [inc]: the right-hand side is an identifier. *)
Lemma relational_unparsable_pushes_NaN_witness :
  visit_pushes inc_text (VStr "inc") [VStr "p"; VStr "q"] inc_pq_test
    (declared (VStr "inc") [VStr "p"; VStr "q"] FunctionConstraints.empty seed)
    seed "p"
    [constraint (VStr "inc") (VStr "p") (Number NaN) integer (VStr ">") "p>q";
     constraint (VStr "inc") (VStr "p") (Number NaN) integer (VStr ">") "p>q"].
Proof.
  apply (relational_unparsable_pushes_NaN inc_text (VStr "inc") [VStr "p"; VStr "q"]
           inc_pq_test (Identifier "p" 49 50) (Identifier "q" 51 52)
           (int 49) (int 52) (int 51) (int 52) ">" "p" []).
  - repeat split.
  - right. reflexivity.
  - split; reflexivity.
  - left. reflexivity.
  - reflexivity.
  - reflexivity.
Defined.

(** The comparison [p<32] of [inc]. *)
Lemma relational_pushes_parseInt_offsets_witness :
  visit_pushes inc_text (VStr "inc") [VStr "p"; VStr "q"] inc_p_test
    (declared (VStr "inc") [VStr "p"; VStr "q"] FunctionConstraints.empty seed)
    seed "p"
    [constraint (VStr "inc") (VStr "p") (Number (Num 31)) integer (VStr "<") "p<32";
     constraint (VStr "inc") (VStr "p") (Number (Num 33)) integer (VStr "<") "p<32"]
  /\ decimal_plus (StringToNumber.of_string "32") (-1) (Number (Num 31))
  /\ decimal_plus (StringToNumber.of_string "32") 1 (Number (Num 33)).
Proof.
  destruct (relational_pushes_parseInt_offsets inc_text (VStr "inc")
              [VStr "p"; VStr "q"] inc_p_test (Identifier "p" 39 40)
              (Literal (VNum (Int 32)) "32" 41 43)
              (int 39) (int 43) (int 41) (int 43) "<" "p" []
              (declared (VStr "inc") [VStr "p"; VStr "q"] FunctionConstraints.empty seed))
    as [Hpush Hdec].
  - repeat split.
  - left. reflexivity.
  - split; reflexivity.
  - left. reflexivity.
  - reflexivity.
  - split; [exact Hpush |]. apply Hdec; [reflexivity | vm_compute; lia].
Defined.

(** C2 fails on a fraction: for [x<3.5] the extractor pushes 2 and 4, which
    are not 3.5 minus one and 3.5 plus one. *)
Lemma relational_fraction_counterexample :
  comparison frac_test "<" (Identifier "x" 14 15)
    (Literal (VNum (Flt "3.5")) "3.5" 16 19) (int 14) (int 19) (int 16) (int 19) /\
  Js.substring frac_text (int 16) (int 19) = "3.5" /\
  visit_pushes frac_text (VStr "f") [VStr "x"] frac_test
    (declared (VStr "f") [VStr "x"] FunctionConstraints.empty seed) seed "x"
    [constraint (VStr "f") (VStr "x") (Number (Num 2)) integer (VStr "<") "x<3.5";
     constraint (VStr "f") (VStr "x") (Number (Num 4)) integer (VStr "<") "x<3.5"] /\
  ~ decimal_plus (StringToNumber.of_string "3.5") (-1) (Number (Num 2)) /\
  ~ decimal_plus (StringToNumber.of_string "3.5") 1 (Number (Num 4)).
Proof.
  split; [repeat split |]. split; [reflexivity |]. split.
  - exact (relational_visit frac_text (VStr "f") [VStr "x"] frac_test
             (Identifier "x" 14 15) (Literal (VNum (Flt "3.5")) "3.5" 16 19)
             (int 14) (int 19) (int 16) (int 19) "<" "x" []
             (declared (VStr "f") [VStr "x"] FunctionConstraints.empty seed)
             eq_refl eq_refl (or_introl eq_refl) eq_refl eq_refl eq_refl
             (or_introl eq_refl) eq_refl eq_refl eq_refl eq_refl).
  - split; vm_compute; intros H; discriminate H.
Qed.

(** The call [fs.readFileSync(filePath)] of [fileTest]. *)
Lemma readFileSync_pushes_three_per_position_witness :
  visit_pushes subject_text (VStr "fileTest") [VStr "dir"; VStr "filePath"]
    subject_readFile_call
    (declared (VStr "fileTest") [VStr "dir"; VStr "filePath"]
       FunctionConstraints.empty seed)
    seed "filePath"
    [constraint (VStr "fileTest") (VStr "filePath") (Text "'pathContent/file1'")
       fileWithContent VUndefined "fs.readFileSync(filePath)";
     constraint (VStr "fileTest") (VStr "filePath") (Text "'pathContent/someDir'")
       fileWithContent VUndefined "fs.readFileSync(filePath)";
     constraint (VStr "fileTest") (VStr "filePath") (Text "'file'")
       fileExists VUndefined "fs.readFileSync(filePath)"].
Proof.
  apply (readFileSync_pushes_three_per_position subject_text (VStr "fileTest")
           [VStr "dir"; VStr "filePath"] subject_readFile_call
           (VArr [Identifier "filePath" 68 76]) (Identifier "filePath" 68 76)
           VUndefined (int 52) (int 77) "filePath" []).
  - do 2 eexists. repeat split.
  - reflexivity.
  - reflexivity.
  - right. left. reflexivity.
  - reflexivity.
  - reflexivity.
  - reflexivity.
  - repeat constructor; cbn; intuition discriminate.
Defined.

(** C3 fails when a parameter name is declared twice: in
    [function f(p,p){fs.readFileSync(p)}] the call pushes six constraints
    on [p]. *)
Lemma readFileSync_twice_counterexample :
  declares twice_f "f" ["p"; "p"] /\
  method_call twice_call "readFileSync" (VArr [Identifier "p" 32 33]) /\
  In (VStr "p") [VStr "p"; VStr "p"] /\
  exists fc l,
    constraints "twice.js" seed = Ok (fc, seed) /\
    FunctionConstraints.constraints_of "f" "p" fc = Some l /\
    map Constraint.kind_ l
    = [fileWithContent; fileWithContent; fileExists;
       fileWithContent; fileWithContent; fileExists].
Proof.
  split.
  { split; [reflexivity |]. split.
    - eexists. repeat split.
    - eexists. split; [reflexivity |]. repeat constructor. }
  split; [do 2 eexists; repeat split |].
  split; [now left |].
  do 2 eexists. split; [vm_compute; reflexivity |].
  split; vm_compute; reflexivity.
Qed.

(** The negation [!options.normalize] of [format], and the negation
    [!this.x] in a function whose first parameter is no identifier. *)
Lemma property_any_unary_operator_witness :
  visit_pushes format_text (VStr "format") [VStr "s"; VStr "options"] format_not
    (declared (VStr "format") [VStr "s"; VStr "options"]
       FunctionConstraints.empty seed)
    seed "options"
    [constraint (VStr "format") (VStr "options")
       (Text "options = {'normalize': true}") Kstring (VStr "!")
       "!options.normalize";
     constraint (VStr "format") (VStr "options") False_ Kstring (VStr "!")
       "!options.normalize"] /\
  visit_pushes default_text (VStr "f") [VUndefined; VStr "b"] default_not
    (declared (VStr "f") [VUndefined; VStr "b"] FunctionConstraints.empty seed)
    seed "undefined"
    [constraint (VStr "f") VUndefined
       (Text "undefined = {'x': true}") Kstring (VStr "!") "!this.x";
     constraint (VStr "f") VUndefined False_ Kstring (VStr "!") "!this.x"].
Proof.
  split.
  - apply (proj2 (proj2 (proj2
             (property_any_unary_operator format_text (VStr "format")
                [VStr "s"; VStr "options"])))
             format_not (VStr "!") (Identifier "options" 31 38) (VStr "normalize")
             (int 30) (int 48) (VStr "options") []).
    + do 2 eexists. repeat split.
    + reflexivity.
    + reflexivity.
    + reflexivity.
    + repeat constructor; cbn; intuition discriminate.
  - apply (proj2 (proj2 (proj2
             (property_any_unary_operator default_text (VStr "f")
                [VUndefined; VStr "b"])))
             default_not (VStr "!") (ThisExpression 22 26) (VStr "x")
             (int 21) (int 28) VUndefined []).
    + do 2 eexists. repeat split.
    + reflexivity.
    + reflexivity.
    + reflexivity.
    + repeat constructor; cbn; intuition discriminate.
Defined.

(** C4 fails on a unary operator that is not the negation: for
    [typeof p.foo] the recognizer pushes its two constraints. *)
Lemma property_typeof_counterexample :
  unary_member typeof_expr (VStr "typeof") (Identifier "p" 21 22) (VStr "foo")
    (int 14) (int 26) /\
  exists s',
    handle_property typeof_text (VStr "f") [VStr "p"] typeof_expr
      (declared (VStr "f") [VStr "p"] FunctionConstraints.empty seed)
    = Ok (tt, s') /\
    FunctionConstraints.constraints_of "f" "p" (functionConstraints s')
    = Some [constraint (VStr "f") (VStr "p") (Text "p = {'foo': true}") Kstring
              (VStr "typeof") "typeof p.foo";
            constraint (VStr "f") (VStr "p") False_ Kstring (VStr "typeof")
              "typeof p.foo"].
Proof.
  split; [do 2 eexists; repeat split |].
  eexists. split; vm_compute; reflexivity.
Qed.



(** The two constraints of [function f(a=1,b){if(!this.x){}}] are on what
    the first parameter node has as [name]. *)
Lemma constraint_idents_are_parameter_list_entries_witness :
  exists fc r' rec l c,
    constraints "default.js" seed = Ok (fc, r') /\
    FunctionConstraints.get "f" fc = Some rec /\
    In ("undefined"%string, l) (FunctionRecord.constraints rec) /\ In c l /\
    exists node ps p,
      In node (nodes default_tree) /\ declared_key node = Some "f"%string /\
      field node "params" (VArr ps) /\ In p ps /\
      field p "name" (Constraint.ident c).
Proof.
  assert (E : exists fc r',
             constraints "default.js" seed = Ok (fc, r') /\
             exists rec l c,
               FunctionConstraints.get "f" fc = Some rec /\
               In ("undefined"%string, l) (FunctionRecord.constraints rec) /\
               In c l).
  { do 2 eexists. split; [vm_compute; reflexivity |].
    do 3 eexists. split; [vm_compute; reflexivity |].
    split; [cbn; left; reflexivity | left; reflexivity]. }
  destruct E as [fc [r' [E [rec [l [c [Hrec [Hkl Hc]]]]]]]].
  exists fc, r', rec, l, c. repeat split; try assumption.
  apply (proj2 (proj2 constraint_idents_are_parameter_list_entries)
           "default.js" seed fc r' default_text default_tree "f"%string rec
           "undefined"%string l c);
    [reflexivity | reflexivity | exact E | exact Hrec | exact Hkl | exact Hc].
Defined.

(** C6 fails when a parameter is no plain identifier: the first
    parameter of [function f(a=1,b){if(!this.x){}}] is an assignment
    pattern, the parameter list of the record holds [undefined] for it,
    and the negation of [this.x], whose object has no name, files two
    constraints with the ident [undefined], which is no parameter name. *)
Lemma nameless_parameter_counterexample :
  field default_f "params" (VArr [default_param; Identifier "b" 15 16]) /\
  field default_param "type" (VStr "AssignmentPattern") /\
  exists fc r' rec c1 c2,
    constraints "default.js" seed = Ok (fc, r') /\
    FunctionConstraints.get "f" fc = Some rec /\
    FunctionRecord.params rec = [VUndefined; VStr "b"] /\
    FunctionConstraints.constraints_of "f" "undefined" fc = Some [c1; c2] /\
    Constraint.ident c1 = VUndefined /\ Constraint.ident c2 = VUndefined /\
    Constraint.value c1 = Text "undefined = {'x': true}" /\
    Constraint.value c2 = False_.
Proof.
  split; [reflexivity |]. split; [reflexivity |].
  do 5 eexists. split; [vm_compute; reflexivity |].
  split; [vm_compute; reflexivity |].
  split; [reflexivity |].
  split; [vm_compute; reflexivity |].
  repeat split.
Qed.

(** A file that does not exist and a text the parser refuses. *)
Lemma input_errors_abort_extraction_witness :
  constraints "nothing.js" seed = Throw (IOError "ENOENT") /\
  constraints "garbage.js" seed = Throw (ParseError "Unexpected token").
Proof.
  split.
  - apply (proj1 (input_errors_abort_extraction "nothing.js" seed)). reflexivity.
  - apply (proj1 (proj2 (input_errors_abort_extraction "garbage.js" seed))
             "function ("); reflexivity.
Defined.

(** C1 fails on the code.  In [function f(x){if(y==5){}}] the comparison
    reaches the fallback on the single parameter with a right-hand side
    that is no quoted text; the recognizer reads the group of a match that
    is [null], and the whole extraction ends with a [TypeError]: the
    function [g] that follows gets no record.  A call of [readFileSync]
    without argument ends the extraction the same way. *)
Theorem missing_subfield_aborts_extraction :
  comparison broken_y_test "==" (Identifier "y" 17 18)
    (Literal (VNum (Int 5)) "5" 20 21) (int 17) (int 21) (int 20) (int 21) /\
  Js.match_quoted (Js.substring broken_text (int 20) (int 21)) = None /\
  (forall r : Rand, constraints "broken.js" r = Throw TypeError) /\
  method_call noargs_call "readFileSync" (VArr []) /\
  (forall r : Rand,
      visit_node noargs_text noargs_h
        {| functionConstraints := FunctionConstraints.empty; rand := r |}
      = Throw TypeError).
Proof.
  split; [repeat split |]. split; [reflexivity |].
  split; [intros r; vm_compute; reflexivity |].
  split; [do 2 eexists; repeat split |].
  intros r. vm_compute. reflexivity.
Qed.

(** The comparison [a<1] is matched with [a] and not with [b]; the
    comparison of [area] with a quoted text, in a function of one
    parameter, is matched with that parameter by the fallback. *)
Example matched_samples :
  matched [VStr "a"; VStr "b"] unused_test (VStr "a") = true /\
  matched [VStr "a"; VStr "b"] unused_test (VStr "b") = false /\
  matched [VStr "phoneNumber"] subject_area_test (VStr "phoneNumber") = true /\
  matched [VUndefined; VStr "b"] default_not VUndefined = true /\
  matched [VUndefined; VStr "b"] default_not (VStr "b") = false.
Proof. repeat split. Qed.

Lemma unmatched_check (tree : jsval) (name : string) (params : list jsval)
      (x : jsval) :
  forallb (fun node' =>
             match declared_key node' with
             | Some k =>
                 negb (String.eqb k name)
                 || forallb (fun child => negb (matched params child x))
                      (nodes node')
             | None => true
             end) (nodes tree) = true ->
  forall node' child,
    In node' (nodes tree) -> declared_key node' = Some name ->
    In child (nodes node') -> matched params child x = false.
Proof.
  intros H node' child Hin Hk Hc.
  assert (H' := proj1 (forallb_forall _ _) H node' Hin). cbn beta in H'.
  rewrite Hk, String.eqb_refl in H'. cbn [negb orb] in H'.
  assert (H'' := proj1 (forallb_forall _ _) H' child Hc). cbn beta in H''.
  now apply negb_true_iff in H''.
Qed.

(** The function [g] of [function g(a,b){if(a<1){}}]: two entries, and
    the parameter [b], which no node is matched with, has the empty
    list. *)
Lemma declaration_has_one_entry_per_distinct_parameter_witness :
  exists fc r' rec,
    constraints "unused.js" seed = Ok (fc, r') /\
    Obj.get "g" (FunctionConstraints.own fc) = Some rec /\
    FunctionRecord.params rec = [VStr "a"; VStr "b"] /\
    Obj.keys (FunctionRecord.constraints rec) = ["a"; "b"]%string /\
    length (FunctionRecord.constraints rec) = 2 /\
    FunctionConstraints.constraints_of "g" "b" fc = Some [].
Proof.
  destruct (constraints "unused.js" seed) as [[fc r'] | e] eqn:E;
    [| vm_compute in E; discriminate E].
  destruct (declaration_has_one_entry_per_distinct_parameter "unused.js" seed r'
              fc unused_text unused_tree unused_g "g" ["a"; "b"]%string)
    as [[rec [Hget [Hps [Hkeys [Hlen _]]]]] Hempty].
  - reflexivity.
  - reflexivity.
  - exact E.
  - vm_compute. right. right. left. reflexivity.
  - split; [reflexivity |]. split.
    + eexists. repeat split.
    + eexists. split; [reflexivity |]. repeat constructor.
  - discriminate.
  - repeat constructor; cbn; intuition discriminate.
  - intros node' Hin Hk.
    assert (Hf : In node'
                   (filter (fun n => match declared_key n with
                                     | Some _ => true
                                     | None => false
                                     end) (nodes unused_tree))).
    { apply filter_In. split; [exact Hin | now rewrite Hk]. }
    vm_compute in Hf.
    destruct Hf as [<- | []]. reflexivity.
  - exists fc, r', rec. repeat split; try assumption.
    apply (Hempty "b"%string); [right; left; reflexivity |].
    apply unmatched_check. vm_compute. reflexivity.
Defined.

(** C7 fails when a parameter name is declared twice: the function
    [function f(p,p){...}] has two identifier parameters and its record has
    one entry. *)
Lemma duplicate_parameter_counterexample :
  declares twice_f "f" ["p"; "p"] /\
  exists fc rec,
    constraints "twice.js" seed = Ok (fc, seed) /\
    Obj.get "f" (FunctionConstraints.own fc) = Some rec /\
    FunctionRecord.params rec = [VStr "p"; VStr "p"] /\
    Obj.keys (FunctionRecord.constraints rec) = ["p"] /\
    length (FunctionRecord.constraints rec) = 1.
Proof.
  split.
  { split; [reflexivity |]. split.
    - eexists. repeat split.
    - eexists. split; [reflexivity |]. repeat constructor. }
  do 2 eexists. split; [vm_compute; reflexivity |].
  repeat split.
Qed.

(** The other recognizers, on whole functions: the comparisons of [inc]
    and the negation and the method call of [format]. *)
Example inc_values :
  exists s',
    visit_node inc_text inc_f
      {| functionConstraints := FunctionConstraints.empty; rand := seed |}
    = Ok (tt, s') /\
    option_map (map Constraint.value)
      (FunctionConstraints.constraints_of "inc" "q" (functionConstraints s'))
    = Some [Text "undefined"; Number NaN] /\
    option_map (map Constraint.value)
      (FunctionConstraints.constraints_of "inc" "p" (functionConstraints s'))
    = Some [Number (Num 31); Number (Num 33); Number NaN; Number NaN].
Proof. eexists. repeat split; vm_compute; reflexivity. Qed.

Example format_values :
  exists s',
    visit_node format_text format_f
      {| functionConstraints := FunctionConstraints.empty; rand := seed |}
    = Ok (tt, s') /\
    option_map (map Constraint.value)
      (FunctionConstraints.constraints_of "format" "options" (functionConstraints s'))
    = Some [Text "options = {'normalize': true}"; False_] /\
    option_map (map Constraint.value)
      (FunctionConstraints.constraints_of "format" "s" (functionConstraints s'))
    = Some [Text "'aaa'"].
Proof. eexists. repeat split; vm_compute; reflexivity. Qed.

(** Two runs on the sample subject from two states of the random source
    differ, in a value. *)
Example two_runs_differ :
  constraints "subject.js" seed <> constraints "subject.js" seed_after.
Proof. vm_compute. intros H. discriminate H. Qed.

(** The same two runs end alike. *)
Lemma runs_differ_in_drawn_digits_only_witness :
  alike_outcomes (constraints "subject.js" seed) (constraints "subject.js" seed_after).
Proof.
  exact (proj1 (runs_differ_in_drawn_digits_only "subject.js" seed seed_after)).
Defined.

(** The sample functions wrap the nodes the lemmas above visit. *)
Example sample_functions_declare :
  declares frac_f "f" ["x"] /\ declares typeof_f "f" ["p"] /\
  declares hello_f "f" ["x"].
Proof.
  repeat split; try (eexists; repeat split); repeat constructor.
Qed.

End OnSamples.

(* ================================================================== *)
(** * The other branches of the catalogue *)

Section OtherBranches.

Context {host : Host}.

Variable buf : string.
Variable funcName : jsval.
Variable params : list jsval.

Local Notation "'fkey'" := (Js.ToString funcName).

Ltac follow_path :=
  repeat (erewrite lodash_get_field by eassumption); reflexivity.

(** ** The directory recognizer *)

(** X1.  A call of a member function named [readdirSync] whose first
    argument is an identifier naming a declared parameter [p] pushes on [p],
    once for every position of the parameter list that holds [p], two
    constraints of kind [fileExists] whose values name an empty and a
    non-empty directory, in that order; the read-file recognizer, which
    tests the same node type, pushes nothing.  They are exactly two when no
    parameter name is declared twice. *)
Theorem readdirSync_pushes_two_per_position
        (child args first op a b : jsval) (p : string)
        (l : list Constraint.t) (s : State) :
  method_call child "readdirSync" args ->
  field args "0" first ->
  field first "name" (VStr p) ->
  In (VStr p) params ->
  field child "operator" op ->
  field child "range" (VArr [a; b]) ->
  FunctionConstraints.constraints_of fkey p (functionConstraints s) = Some l ->
  let two :=
    [constraint funcName (VStr p) (Text "'emptyDir'")
       fileExists op (Js.substring buf a b);
     constraint funcName (VStr p) (Text "'nonEmptyDir'")
       fileExists op (Js.substring buf a b)] in
  visit_pushes buf funcName params child s (rand s) p
    (concat (repeat two (occurrences p params)))
  /\ (NoDup params -> visit_pushes buf funcName params child s (rand s) p two).
Proof.
  intros (callee & property & Hty & Hcallee & Hprop & Htruthy & Hname & Hargs)
         Hfirst Hfn Hin Hop Hrange Hl two.
  assert (Htype : lodash_get child ["type"] = VStr "CallExpression")
    by follow_path.
  assert (H : visit_pushes buf funcName params child s (rand s) p
                (concat (repeat two (occurrences p params)))).
  { destruct (push_fixtures_run funcName child args first op p
                (Js.substring buf a b) readdirSync_fixtures Hargs Hfirst Hfn Hop
                params s l Hl) as [fc' [Hrun Happ]].
    exists fc'. split; [| exact Happ].
    unfold visit_child, bind.
    rewrite (handle_property_other_type buf funcName params _ _ s Hty)
      by reflexivity.
    unfold handle_readFileSync at 1. unfold bind, lift.
    rewrite (is_call_of_named "readFileSync" _ _ _ _ Hty Hcallee Hprop Htruthy
               Hname).
    change (String.eqb "readdirSync" "readFileSync") with false. cbv beta iota.
    unfold ret at 1.
    unfold handle_readdirSync at 1. unfold bind, lift.
    rewrite (is_call_of_named "readdirSync" _ _ _ _ Hty Hcallee Hprop Htruthy
               Hname).
    change (String.eqb "readdirSync" "readdirSync") with true. cbv beta iota.
    rewrite (source_text_range buf _ _ _ Hrange), Hrun.
    rewrite handle_equivalence_other by (now rewrite Htype).
    rewrite handle_relational_other by (now rewrite Htype).
    rewrite handle_indexOf_other by (now rewrite Htype).
    reflexivity. }
  split; [exact H |].
  intros Hnd. rewrite (occurrences_once p params Hnd Hin) in H.
  cbn [repeat concat] in H. rewrite app_nil_r in H. exact H.
Qed.

(** ** Equality with a declared parameter *)

(** X3.  An equality or inequality comparison whose left side is a declared
    parameter [p] pushes exactly two constraints on [p], both of kind
    [integer] whatever the right-hand side is: the right-hand source text as
    it stands, then the negation sentinel around the inner text when the
    right-hand text is quoted, and [NaN] when it is not.  The random source
    is not used. *)
Theorem equality_on_parameter_pushes_text_and_sentinel
        (child left right a b c d : jsval) (op p : string)
        (l : list Constraint.t) (s : State) :
  comparison child op left right a b c d ->
  is_equality_operator (VStr op) = true ->
  identifier left (VStr p) ->
  In (VStr p) params ->
  FunctionConstraints.constraints_of fkey p (functionConstraints s) = Some l ->
  let rightHand := Js.substring buf c d in
  let other :=
    match Js.match_quoted rightHand with
    | Some inner => Text ("'NEQ - " ++ inner ++ "'")
    | None => Number NaN
    end in
  visit_pushes buf funcName params child s (rand s) p
    [constraint funcName (VStr p) (Text rightHand) integer (VStr op)
       (Js.substring buf a b);
     constraint funcName (VStr p) other integer (VStr op) (Js.substring buf a b)].
Proof.
  intros (Hty & Hop & Hleft & Hright & Hrange & Hrr) Heq [Hlty Hname] Hin Hl
         rightHand other.
  assert (Htype : lodash_get child ["type"] = VStr "BinaryExpression")
    by follow_path.
  assert (Hoper : lodash_get child ["operator"] = VStr op) by follow_path.
  assert (Hlt : lodash_get child ["left"; "type"] = VStr "Identifier")
    by follow_path.
  assert (Hln : lodash_get child ["left"; "name"] = VStr p) by follow_path.
  unfold visit_pushes, visit_child, bind.
  rewrite (handle_property_other_type buf funcName params _ _ s Hty)
    by reflexivity.
  rewrite handle_readFileSync_no_call
    by (now apply is_call_of_other_type with (ty := VStr "BinaryExpression")).
  rewrite handle_readdirSync_no_call
    by (now apply is_call_of_other_type with (ty := VStr "BinaryExpression")).
  unfold handle_equivalence at 1.
  rewrite Htype, Hoper, Heq, Hlt, Hln, (lodash_includes_text _ _ Hin).
  change (Js.is_text (VStr "BinaryExpression") "BinaryExpression") with true.
  change (Js.is_text (VStr "Identifier") "Identifier") with true.
  cbn [andb]. unfold bind, prop, lift.
  rewrite Hleft, Hname, (source_text_range buf _ _ _ Hrange),
    (right_hand_range buf _ _ _ _ Hright Hrr), Hop.
  fold rightHand. fold other.
  destruct (push_run funcName (VStr p)
              (constraint funcName (VStr p) (Text rightHand) integer (VStr op)
                 (Js.substring buf a b)) s l Hl)
    as [fc1 [Hp1 Ha1]].
  rewrite Hp1.
  destruct (appended_list _ _ _ _ _ Ha1) as [l1 Hl1].
  destruct (push_run funcName (VStr p)
              (constraint funcName (VStr p) other integer (VStr op)
                 (Js.substring buf a b))
              (with_constraints s fc1) l1 Hl1)
    as [fc2 [Hp2 Ha2]].
  rewrite Hp2. simpl in Ha2.
  rewrite handle_relational_other
    by (now rewrite Htype, Hoper, (equality_not_relational _ Heq)).
  rewrite handle_indexOf_other_left by (now rewrite Hlt).
  exists fc2. split; [reflexivity |].
  exact (appended_trans _ _ _ _ _ _ _ Ha1 Ha2).
Qed.

End OtherBranches.

(* ================================================================== *)
(** * Comparisons of a method call *)

(** A property read raises on [undefined] and [null] only, and only a
    [TypeError]. *)
Lemma get_defined (v : jsval) (k k' : string) (x : jsval) :
  field v k x -> exists y, Js.get v k' = Ok y.
Proof.
  unfold field. destruct v; try discriminate; intros _; unfold Js.get;
    repeat match goal with
           | |- context [match ?e with _ => _ end] => destruct e
           end; eauto.
Qed.

Lemma get_raises (v : jsval) (k : string) (e : exn) :
  Js.get v k = Throw e -> e = TypeError.
Proof.
  destruct v; unfold Js.get;
    repeat match goal with
           | |- context [match ?e with _ => _ end] => destruct e
           end; congruence.
Qed.

(** The rounds of the counting loop are never negative. *)
Lemma nearest_nonneg (n d q e : Z) :
  (0 <= n)%Z -> (0 < d)%Z -> Double.nearest n d = Some (q, e) -> (0 <= q)%Z.
Proof.
  intros Hn Hd. unfold Double.nearest.
  destruct (Double.scaled n d (Z.log2 n - Z.log2 d - 52)) as [n0 d0].
  set (e' := Z.max _ (-1074)).
  assert (Hs : exists n1 d1, Double.scaled n d e' = (n1, d1) /\
                             (0 <= n1)%Z /\ (0 < d1)%Z).
  { unfold Double.scaled. destruct (0 <=? e')%Z eqn:E.
    - apply Z.leb_le in E. exists n, (d * 2 ^ e')%Z.
      split; [reflexivity |]. split; [exact Hn |].
      apply Z.mul_pos_pos; [exact Hd | now apply Z.pow_pos_nonneg].
    - apply Z.leb_gt in E. exists (n * 2 ^ (- e'))%Z, d.
      split; [reflexivity |]. split; [| exact Hd].
      apply Z.mul_nonneg_nonneg; [exact Hn |]. apply Z.pow_nonneg. lia. }
  destruct Hs as [n1 [d1 [-> [Hn1 Hd1]]]].
  assert (Hq : (0 <= n1 / d1)%Z) by now apply Z.div_pos.
  match goal with
  | |- (if ?b then None else _) = _ -> _ => destruct b; [discriminate |]
  end.
  intros [= <- _].
  match goal with
  | |- (0 <= if ?b then _ else _)%Z => destruct b; lia
  end.
Qed.

Lemma filler_rounds_nonneg (rightHand : string) (n : Z) :
  filler_rounds rightHand = Some n -> (0 <= n)%Z.
Proof.
  unfold filler_rounds.
  destruct (StringToNumber.of_string rightHand) as [| negative | m e].
  - intros [= <-]. lia.
  - destruct negative; [intros [= <-]; lia | discriminate].
  - destruct (m <=? 0)%Z eqn:Hm; [intros [= <-]; lia |].
    apply Z.leb_gt in Hm.
    destruct (0 <=? e)%Z eqn:He.
    + apply Z.leb_le in He.
      assert (Hz : (0 < m * 10 ^ e)%Z)
        by (apply Z.mul_pos_pos; [exact Hm | now apply Z.pow_pos_nonneg]).
      unfold round_integer.
      destruct (Z.abs (m * 10 ^ e) <=? 2 ^ 53)%Z.
      * destruct (2 ^ 53 <? m * 10 ^ e)%Z; [discriminate |].
        intros [= <-]. lia.
      * destruct (Double.nearest (Z.abs (m * 10 ^ e)) 1) as [[q e2] |] eqn:Hq;
          [| discriminate].
        apply nearest_nonneg in Hq; [| lia | lia].
        destruct (2 ^ 53 <? _)%Z; [discriminate |].
        intros [= <-]. rewrite Z.sgn_pos by exact Hz.
        assert (0 <= 2 ^ e2)%Z by (apply Z.pow_nonneg; lia). nia.
    + apply Z.leb_gt in He.
      destruct (Double.nearest m (10 ^ (- e))) as [[q e2] |] eqn:Hq;
        [| discriminate].
      apply nearest_nonneg in Hq; [| lia | apply Z.pow_pos_nonneg; lia].
      destruct (2 ^ 53 <? _)%Z; [discriminate |].
      intros [= <-]. unfold Double.ceiling.
      destruct (0 <=? e2)%Z eqn:E2.
      * assert (0 <= 2 ^ e2)%Z by (apply Z.pow_nonneg; lia). nia.
      * apply Z.leb_gt in E2.
        assert (0 < 2 ^ (- e2))%Z by (apply Z.pow_pos_nonneg; lia).
        apply Z.div_pos; lia.
Qed.

Lemma text_length (l : list ascii) : String.length (JsString.text l) = length l.
Proof.
  unfold JsString.text. induction l as [| c l IH]; cbn; [reflexivity | now rewrite IH].
Qed.

(** The quoted word, when the padded word and its quotes fit the limit of
    the engine. *)
Lemma padded_word_fits {host : Host} (rightHand : string) (token : jsval) (n : Z) :
  filler_rounds rightHand = Some n ->
  (n + Z.of_nat (String.length (Js.ToString token)) + 2 <= text_limit)%Z ->
  let word := (JsString.text (repeat "a"%char (Z.to_nat n)) ++ Js.ToString token)%string in
  padded_word rightHand token = Ok word /\
  single_quoted word = Ok ("'" ++ word ++ "'")%string.
Proof.
  intros Hn Hfit word. assert (H0 := filler_rounds_nonneg _ _ Hn).
  unfold padded_word, single_quoted. rewrite Hn.
  assert (Hlen : Z.of_nat (String.length word)
                 = (n + Z.of_nat (String.length (Js.ToString token)))%Z).
  { unfold word. rewrite string_length_append, text_length, repeat_length. lia. }
  rewrite Hlen.
  replace (n + Z.of_nat (String.length (Js.ToString token)) <=? text_limit)%Z
    with true by (symmetry; apply Z.leb_le; lia).
  replace (n + Z.of_nat (String.length (Js.ToString token)) + 2 <=? text_limit)%Z
    with true by (symmetry; apply Z.leb_le; lia).
  split; reflexivity.
Qed.

Section MethodCalls.

Context {host : Host}.

Variable buf : string.
Variable funcName : jsval.
Variable params : list jsval.

Local Notation "'fkey'" := (Js.ToString funcName).

Ltac follow_path :=
  repeat (erewrite lodash_get_field by eassumption); reflexivity.

(** The steps of a visit of an equality comparison whose left side is a
    call of a member function, up to the block of the last recognizer. *)
Lemma member_call_steps (child left right callee a b c d : jsval) (op : string)
      (s : State) :
  comparison child op left right a b c d ->
  is_equality_operator (VStr op) = true ->
  field left "type" (VStr "CallExpression") ->
  field left "callee" callee ->
  field callee "type" (VStr "MemberExpression") ->
  visit_child buf funcName params child s
  = (left <- prop child "left" ;;
     callee <- prop left "callee" ;;
     object <- prop callee "object" ;;
     ident <- prop object "name" ;;
     left <- prop child "left" ;;
     arguments <- prop left "arguments" ;;
     first <- prop arguments "0" ;;
     given_word <- prop first "value" ;;
     expression <- lift (source_text buf child) ;;
     rightHand <- lift (right_hand buf child) ;;
     word <- lift (padded_word rightHand given_word) ;;
     if lodash_includes params
          (lodash_get child ["left"; "callee"; "object"; "name"])
     then
       value <- lift (single_quoted word) ;;
       op <- prop child "operator" ;;
       push funcName ident
         (constraint funcName ident (Text value) Kstring op expression)
     else ret tt) s.
Proof.
  intros (Hty & Hop & Hleft & Hright & Hrange & Hrr) Heq Hlty Hcallee Hcty.
  assert (Htype : lodash_get child ["type"] = VStr "BinaryExpression")
    by follow_path.
  assert (Hoper : lodash_get child ["operator"] = VStr op) by follow_path.
  assert (Hlt : lodash_get child ["left"; "type"] = VStr "CallExpression")
    by follow_path.
  assert (Hct : lodash_get child ["left"; "callee"; "type"]
                = VStr "MemberExpression") by follow_path.
  unfold visit_child. unfold bind at 1 2 3 4 5.
  rewrite (handle_property_other_type buf funcName params _ _ s Hty)
    by reflexivity.
  rewrite handle_readFileSync_no_call
    by (now apply is_call_of_other_type with (ty := VStr "BinaryExpression")).
  rewrite handle_readdirSync_no_call
    by (now apply is_call_of_other_type with (ty := VStr "BinaryExpression")).
  unfold handle_equivalence at 1. rewrite Htype, Hoper, Heq, Hlt.
  change (Js.is_text (VStr "BinaryExpression") "BinaryExpression") with true.
  change (Js.is_text (VStr "CallExpression") "Identifier") with false.
  cbn [andb]. cbv beta iota. unfold ret at 1.
  rewrite handle_relational_other
    by (now rewrite Htype, Hoper, (equality_not_relational _ Heq)).
  unfold handle_indexOf at 1. rewrite Htype, Hoper, Heq, Hlt, Hct.
  reflexivity.
Qed.


(** X6.  An equality or inequality comparison whose left side is a call of a
    member function without arguments makes the visit raise a [TypeError],
    whatever the method and the parameters of the function are: the
    recognizer reads the value of a first argument that is not there. *)
Theorem method_call_without_argument_raises
        (child left right callee args a b c d : jsval) (op : string) (s : State) :
  comparison child op left right a b c d ->
  is_equality_operator (VStr op) = true ->
  field left "type" (VStr "CallExpression") ->
  field left "callee" callee ->
  field callee "type" (VStr "MemberExpression") ->
  field left "arguments" args ->
  field args "0" VUndefined ->
  visit_child buf funcName params child s = Throw TypeError.
Proof.
  intros Hcmp Heq Hlty Hcallee Hcty Hargs Hfirst.
  rewrite (member_call_steps child left right callee a b c d op s
             Hcmp Heq Hlty Hcallee Hcty).
  destruct Hcmp as (Hty & Hop & Hleft & Hright & Hrange & Hrr).
  unfold bind, prop, lift. rewrite Hleft, Hcallee. cbv beta iota.
  destruct (get_defined callee "type" "object" _ Hcty) as [object ->].
  destruct (Js.get object "name") as [name | e] eqn:Hname.
  - rewrite Hleft, Hargs, Hfirst. reflexivity.
  - now rewrite (get_raises _ _ _ Hname).
Qed.

(** ** Nodes no recognizer matches *)

(** X8.  A node whose type is none of the three the recognizers test, among
    them every statement, identifier and literal, a node without a type and
    an array, is left alone: the visit returns and the state is as it was. *)
Theorem other_nodes_are_left_alone (child ty : jsval) (s : State) :
  field child "type" ty ->
  Js.is_text ty "UnaryExpression" = false ->
  Js.is_text ty "CallExpression" = false ->
  Js.is_text ty "BinaryExpression" = false ->
  visit_child buf funcName params child s = Ok (tt, s).
Proof.
  intros Hty Hu Hc Hb.
  assert (Htype : lodash_get child ["type"] = ty) by follow_path.
  unfold visit_child, bind.
  rewrite (handle_property_other_type buf funcName params _ _ s Hty Hu).
  rewrite handle_readFileSync_no_call
    by (now apply is_call_of_other_type with (ty := ty)).
  rewrite handle_readdirSync_no_call
    by (now apply is_call_of_other_type with (ty := ty)).
  rewrite handle_equivalence_other by (now rewrite Htype, Hb).
  rewrite handle_relational_other by (now rewrite Htype, Hb).
  rewrite handle_indexOf_other by (now rewrite Htype, Hb).
  reflexivity.
Qed.

(** ** Comparisons of an identifier that is no parameter *)

(** X4.  A comparison whose left side is an identifier that is no declared
    parameter is left alone, with any right-hand side, when the operator is
    [<] or [>], and when the operator is an equality operator and the
    function does not have exactly one parameter: the fallback on the single
    parameter is the only branch for such a node. *)
Theorem comparison_of_other_identifier_is_left_alone
        (child left name right a b c d : jsval) (op : string) (s : State) :
  comparison child op left right a b c d ->
  identifier left name ->
  lodash_includes params name = false ->
  is_relational_operator (VStr op) = true \/
  (is_equality_operator (VStr op) = true /\ length params <> 1) ->
  visit_child buf funcName params child s = Ok (tt, s).
Proof.
  intros (Hty & Hop & Hleft & Hright & Hrange & Hrr) [Hlty Hname] Hno Hcase.
  assert (Htype : lodash_get child ["type"] = VStr "BinaryExpression")
    by follow_path.
  assert (Hoper : lodash_get child ["operator"] = VStr op) by follow_path.
  assert (Hlt : lodash_get child ["left"; "type"] = VStr "Identifier")
    by follow_path.
  assert (Hln : lodash_get child ["left"; "name"] = name) by follow_path.
  unfold visit_child, bind.
  rewrite (handle_property_other_type buf funcName params _ _ s Hty)
    by reflexivity.
  rewrite handle_readFileSync_no_call
    by (now apply is_call_of_other_type with (ty := VStr "BinaryExpression")).
  rewrite handle_readdirSync_no_call
    by (now apply is_call_of_other_type with (ty := VStr "BinaryExpression")).
  destruct Hcase as [Hrel | [Heq Hlen]].
  - assert (Hnoeq : is_equality_operator (VStr op) = false).
    { destruct (is_equality_operator (VStr op)) eqn:E; [| reflexivity].
      apply equality_not_relational in E. congruence. }
    rewrite handle_equivalence_other by (now rewrite Htype, Hoper, Hnoeq).
    unfold handle_relational at 1. rewrite Htype, Hoper, Hrel, Hlt, Hln, Hno.
    change (Js.is_text (VStr "BinaryExpression") "BinaryExpression") with true.
    change (Js.is_text (VStr "Identifier") "Identifier") with true.
    cbn [andb]. unfold bind, prop, lift.
    rewrite Hleft, Hname, (source_text_range buf _ _ _ Hrange),
      (right_hand_range buf _ _ _ _ Hright Hrr).
    unfold ret at 1.
    apply handle_indexOf_other_left. now rewrite Hlt.
  - unfold handle_equivalence at 1. rewrite Htype, Hoper, Heq, Hlt, Hln, Hno.
    apply Nat.eqb_neq in Hlen. rewrite Hlen.
    change (Js.is_text (VStr "BinaryExpression") "BinaryExpression") with true.
    change (Js.is_text (VStr "Identifier") "Identifier") with true.
    cbn [andb]. unfold bind, prop, lift.
    rewrite Hleft, Hname, (source_text_range buf _ _ _ Hrange),
      (right_hand_range buf _ _ _ _ Hright Hrr).
    unfold ret at 1.
    rewrite handle_relational_other
      by (now rewrite Htype, Hoper, (equality_not_relational _ Heq)).
    apply handle_indexOf_other_left. now rewrite Hlt.
Qed.

End MethodCalls.

(* ================================================================== *)
(** * File-system calls on something else than a parameter *)

Section OtherArguments.

Context {host : Host}.

Variable buf : string.
Variable funcName : jsval.
Variable params : list jsval.

Ltac follow_path :=
  repeat (erewrite lodash_get_field by eassumption); reflexivity.

(** The visit of a call of a member function named [readFileSync] or
    [readdirSync] is the loop of that recognizer over the parameters. *)
Lemma file_call_steps (child args a b : jsval) (method : string) (s : State) :
  method = "readFileSync" \/ method = "readdirSync" ->
  method_call child method args ->
  field child "range" (VArr [a; b]) ->
  visit_child buf funcName params child s
  = push_fixtures funcName params
      (if String.eqb method "readFileSync" then readFileSync_fixtures
       else readdirSync_fixtures)
      (Js.substring buf a b) child s.
Proof.
  intros Hm (callee & property & Hty & Hcallee & Hprop & Htruthy & Hname & Hargs)
         Hrange.
  assert (Htype : lodash_get child ["type"] = VStr "CallExpression")
    by follow_path.
  assert (Hrest : forall s1,
             (handle_equivalence buf funcName params child ;;
              handle_relational buf funcName params child ;;
              handle_indexOf buf funcName params child) s1 = Ok (tt, s1)).
  { intros s1. unfold bind.
    rewrite handle_equivalence_other by (now rewrite Htype).
    rewrite handle_relational_other by (now rewrite Htype).
    apply handle_indexOf_other. now rewrite Htype. }
  assert (Hlast : forall (m : M unit) s1,
             (m ;; handle_equivalence buf funcName params child ;;
              handle_relational buf funcName params child ;;
              handle_indexOf buf funcName params child) s1 = m s1).
  { intros m s1. unfold bind at 1.
    destruct (m s1) as [[[] s2] | e]; [apply Hrest | reflexivity]. }
  unfold visit_child. unfold bind at 1.
  rewrite (handle_property_other_type buf funcName params _ _ s Hty)
    by reflexivity.
  destruct Hm as [-> | ->].
  - unfold handle_readFileSync at 1. unfold bind at 1 2, lift at 1.
    rewrite (is_call_of_named "readFileSync" _ _ _ _ Hty Hcallee Hprop Htruthy
               Hname).
    change (String.eqb "readFileSync" "readFileSync") with true. cbv beta iota.
    unfold bind at 1, lift at 1. rewrite (source_text_range buf _ _ _ Hrange).
    destruct (push_fixtures funcName params readFileSync_fixtures
                (Js.substring buf a b) child s) as [[[] s1] | e]; [| reflexivity].
    unfold handle_readdirSync at 1. unfold bind at 1 2, lift at 1.
    rewrite (is_call_of_named "readdirSync" _ _ _ _ Hty Hcallee Hprop Htruthy
               Hname).
    change (String.eqb "readFileSync" "readdirSync") with false. cbv beta iota.
    unfold ret at 1. apply Hrest.
  - unfold handle_readFileSync at 1. unfold bind at 1 2, lift at 1.
    rewrite (is_call_of_named "readFileSync" _ _ _ _ Hty Hcallee Hprop Htruthy
               Hname).
    change (String.eqb "readdirSync" "readFileSync") with false. cbv beta iota.
    unfold ret at 1.
    unfold handle_readdirSync at 1. unfold bind at 1 2, lift at 1.
    rewrite (is_call_of_named "readdirSync" _ _ _ _ Hty Hcallee Hprop Htruthy
               Hname).
    change (String.eqb "readdirSync" "readdirSync") with true. cbv beta iota.
    unfold bind at 1, lift at 1. rewrite (source_text_range buf _ _ _ Hrange).
    destruct (push_fixtures funcName params readdirSync_fixtures
                (Js.substring buf a b) child s) as [[[] s1] | e]; [| reflexivity].
    apply Hrest.
Qed.

(** X2.  A call of [readFileSync] or [readdirSync] whose first argument
    has a [name] that is no entry of the parameter list is left alone: so
    is a call on a literal or on a compound expression, which have no
    name, in a function whose parameters are all identifiers.  When the
    [name] of the first argument is an entry of the list (the name of an
    identifier parameter; or [undefined], for an argument without a name,
    when a parameter that is no identifier has put [undefined] in the
    list), the visit pushes the fixtures of the recognizer on that entry,
    once for every position of the list that holds it.  A call without any
    argument is left alone only in a function without parameters: with at
    least one parameter the visit raises a [TypeError], for the recognizer
    reads the name of a first argument that is not there. *)
Theorem file_call_on_other_argument
        (child args a b : jsval) (method : string) (s : State) :
  method = "readFileSync" \/ method = "readdirSync" ->
  method_call child method args ->
  field child "range" (VArr [a; b]) ->
  (forall first name,
      field args "0" first -> field first "name" name ->
      lodash_includes params name = false ->
      visit_child buf funcName params child s = Ok (tt, s)) /\
  (forall first name op l,
      field args "0" first -> field first "name" name ->
      lodash_includes params name = true ->
      field child "operator" op ->
      FunctionConstraints.constraints_of (Js.ToString funcName) (Js.ToString name)
        (functionConstraints s) = Some l ->
      visit_pushes buf funcName params child s (rand s) (Js.ToString name)
        (concat (repeat
                   (map (fun fx => constraint funcName name (Text (fst fx))
                                     (snd fx) op (Js.substring buf a b))
                      (if String.eqb method "readFileSync"
                       then readFileSync_fixtures else readdirSync_fixtures))
                   (length (filter (Js.strict_eq name) params))))) /\
  (field args "0" VUndefined ->
   visit_child buf funcName params child s
   = match params with
     | [] => Ok (tt, s)
     | _ :: _ => Throw TypeError
     end).
Proof.
  intros Hm Hcall Hrange.
  unfold visit_pushes.
  rewrite (file_call_steps child args a b method s Hm Hcall Hrange).
  destruct Hcall as (callee & property & Hty & Hcallee & Hprop & Htruthy & Hname
                     & Hargs).
  split; [| split].
  - intros first name Hfirst Hfn Hno. unfold push_fixtures.
    apply for_each_skip. intros q Hq. unfold bind.
    rewrite (prop_run _ _ _ s Hargs), (prop_run _ _ _ s Hfirst),
      (prop_run _ _ _ s Hfn).
    now rewrite (lodash_includes_false _ _ _ Hno Hq).
  - intros first name op l Hfirst Hfn Hin Hop Hl.
    exact (push_fixtures_entry_run funcName child args first op name
             (Js.substring buf a b) _ Hargs Hfirst Hfn Hop
             (includes_strict_refl _ _ Hin) params s l Hl).
  - intros Hfirst. unfold push_fixtures.
    destruct params as [| q ps]; [reflexivity |].
    cbn [for_each]. unfold bind.
    now rewrite (prop_run _ _ _ s Hargs), (prop_run _ _ _ s Hfirst).
Qed.

End OtherArguments.

(* ================================================================== *)
(** * What every visit keeps *)

Lemma push_appended (f k : string) (c : Constraint.t)
      (fc fc' : FunctionConstraints.t) :
  FunctionConstraints.push f k c fc = Some fc' -> appended f k [c] fc fc'.
Proof.
  intros Hp.
  assert (Hl : exists l, FunctionConstraints.constraints_of f k fc = Some l).
  { revert Hp. unfold FunctionConstraints.push, FunctionConstraints.constraints_of.
    destruct (FunctionConstraints.get f fc) as [r |]; [| discriminate].
    destruct (Obj.get k (FunctionRecord.constraints r)) as [l |]; [| discriminate].
    eauto. }
  destruct Hl as [l Hl].
  destruct (FC_push_appended f k c fc l Hl) as [fc'' [Hp' Ha]].
  congruence.
Qed.

Lemma extends_refl (fc : FunctionConstraints.t) : extends fc fc.
Proof. intros f k l H. exists []. now rewrite app_nil_r. Qed.

Lemma extends_trans (fc1 fc2 fc3 : FunctionConstraints.t) :
  extends fc1 fc2 -> extends fc2 fc3 -> extends fc1 fc3.
Proof.
  intros H12 H23 f k l H.
  destruct (H12 f k l H) as [l1 H1].
  destruct (H23 f k _ H1) as [l2 H2].
  exists (l1 ++ l2). now rewrite app_assoc.
Qed.

Lemma appended_extends (f k : string) (cs : list Constraint.t)
      (fc fc' : FunctionConstraints.t) :
  appended f k cs fc fc' -> extends fc fc'.
Proof.
  intros [[l [H1 H2]] [H3 _]] f' k' l' H.
  destruct (string_dec f' f) as [-> | Hf].
  - destruct (string_dec k' k) as [-> | Hk].
    + exists cs. congruence.
    + exists []. rewrite app_nil_r, H3; [exact H | congruence].
  - exists []. rewrite app_nil_r, H3; [exact H | congruence].
Qed.

Section Kept.

Context {host : Host}.

(** X11.  The walk of a function only appends: whenever it returns, every
    list of constraints that was in the shared object before, of this
    function or of another, is still there under the same function and
    parameter, with its earlier constraints unchanged at its head.  So does
    each single visit. *)
Theorem inner_walk_only_appends
        (buf : string) (funcName : jsval) (params : list jsval) :
  (forall child s s',
      visit_child buf funcName params child s = Ok (tt, s') ->
      extends (functionConstraints s) (functionConstraints s')) /\
  (forall node s s',
      traverse node (visit_child buf funcName params) s = Ok (tt, s') ->
      extends (functionConstraints s) (functionConstraints s')).
Proof.
  assert (Hvisit : forall fc0 child,
             preserves (extends fc0) (visit_child buf funcName params child)).
  { intros fc0 child.
    apply (Pushing_preserves funcName (addressed params child) (extends fc0))
      with (m2 := visit_child buf funcName params child).
    - intros ident c fc fc' H _ _ Hp.
      exact (extends_trans _ _ _ H (appended_extends _ _ _ _ _ (push_appended _ _ _ _ _ Hp))).
    - apply visit_child_pushing. }
  split.
  - intros child s s' Hrun.
    assert (H := Hvisit (functionConstraints s) child s (extends_refl _)).
    now rewrite Hrun in H.
  - intros node s s' Hrun.
    assert (H := traverse_preserves (extends (functionConstraints s))
                   (visit_child buf funcName params) node
                   (Hvisit (functionConstraints s)) s (extends_refl _)).
    now rewrite Hrun in H.
Qed.

(** ** Constraints are filed under their own function and parameter *)

Lemma preserves_gen (I : FunctionConstraints.t -> Prop) : preserves I gen.
Proof.
  intros s Hs. unfold gen. now destruct (randexp_gen (rand s)).
Qed.

Lemma preserves_push_stamped (funcName ident : jsval) (c : Constraint.t) :
  Constraint.funcName c = funcName ->
  Constraint.ident c = ident ->
  Constraint.altvalue c = VUndefined ->
  preserves stamped (push funcName ident c).
Proof.
  intros Hf Hi Ha s Hs. unfold push.
  destruct (FunctionConstraints.push _ _ c _) as [fc' |] eqn:Hp; [| exact I].
  apply push_appended in Hp. destruct Hp as [[l [H1 H2]] [H3 _]].
  cbn [functionConstraints with_constraints].
  intros f k l' Hl'.
  destruct (string_dec f (Js.ToString funcName)) as [-> | Hfne].
  - destruct (string_dec k (Js.ToString ident)) as [-> | Hkne].
    + rewrite H2 in Hl'. injection Hl' as <-.
      apply Forall_app. split; [exact (Hs _ _ _ H1) |].
      constructor; [| constructor]. now rewrite Hf, Hi, Ha.
    + rewrite H3 in Hl' by congruence. exact (Hs _ _ _ Hl').
  - rewrite H3 in Hl' by congruence. exact (Hs _ _ _ Hl').
Qed.

Ltac keeping :=
  repeat first
    [ apply preserves_ret
    | apply preserves_lift
    | apply preserves_gen
    | apply preserves_push_stamped; reflexivity
    | apply preserves_for_each; intros ? _
    | apply preserves_bind; [| intros ?]
    | match goal with
      | |- preserves _ (if ?b then _ else _) => destruct b
      end
    | progress cbv zeta ].

Lemma visit_child_stamped (buf : string) (funcName : jsval)
      (params : list jsval) (child : jsval) :
  preserves stamped (visit_child buf funcName params child).
Proof.
  unfold visit_child, handle_property, handle_readFileSync, handle_readdirSync,
    push_fixtures, handle_equivalence, handle_relational, handle_indexOf, prop.
  keeping.
Qed.

Lemma stamped_init (funcName : jsval) (params : list jsval)
      (fc : FunctionConstraints.t) :
  stamped fc ->
  stamped (FunctionConstraints.set (Js.ToString funcName)
             (FunctionRecord.new (zipObject_empty params) params) fc).
Proof.
  intros Hs f k l. unfold FunctionConstraints.constraints_of.
  destruct (string_dec f (Js.ToString funcName)) as [-> | Hne].
  - rewrite FC_get_set_same. cbn [FunctionRecord.constraints]. intros Hl.
    apply Obj_get_In in Hl. apply zipObject_empty_lists in Hl. subst l.
    constructor.
  - rewrite FC_get_set_other by exact Hne. apply Hs.
Qed.

Lemma visit_node_stamped (buf : string) (node : jsval) :
  preserves stamped (visit_node buf node).
Proof.
  intros s Hs. unfold visit_node, bind, prop, lift.
  destruct (Js.get node "type") as [ty | e]; [| exact I].
  destruct (Js.is_text ty "FunctionDeclaration"); [| exact Hs].
  destruct (functionName node) as [fn | e]; [| exact I].
  destruct (param_names node) as [ps | e]; [| exact I].
  unfold init_record.
  exact (traverse_preserves stamped (visit_child buf fn ps) node
           (visit_child_stamped buf fn ps)
           (with_constraints s
              (FunctionConstraints.set (Js.ToString fn)
                 (FunctionRecord.new (zipObject_empty ps) ps)
                 (functionConstraints s)))
           (stamped_init fn ps _ Hs)).
Qed.

(** X12.  Every constraint of a result the extraction returns is filed under
    the function it names and under the parameter it is on, and has no
    alternative value: for every function key and parameter key, the
    constraints of the list carry that function name and that parameter, and
    their [altvalue] is [undefined]. *)
Theorem constraints_are_filed_under_their_names
        (filePath : string) (r r' : Rand) (fc : FunctionConstraints.t) :
  constraints filePath r = Ok (fc, r') -> stamped fc.
Proof.
  unfold constraints.
  destruct (readFileSync filePath) as [buf | e]; [| discriminate].
  destruct (esprima_parse buf options) as [tree | e]; [| discriminate].
  assert (Hempty : stamped FunctionConstraints.empty).
  { intros f k l. unfold FunctionConstraints.constraints_of,
      FunctionConstraints.get, FunctionConstraints.empty. cbn.
    destruct (String.eqb f "__proto__"); discriminate. }
  assert (H := traverse_preserves stamped (visit_node buf) tree
                 (visit_node_stamped buf)
                 {| functionConstraints := FunctionConstraints.empty; rand := r |}
                 Hempty).
  destruct (traverse tree (visit_node buf) _) as [[[] s] | e]; [| discriminate].
  intros [= <- _]. exact H.
Qed.

End Kept.

(* ================================================================== *)
(** * The use of the random source *)

Section RandomSource.

Context {host : Host}.

Lemma keeps_rand_ret {A : Type} (a : A) : keeps_rand (ret a).
Proof. intros s. reflexivity. Qed.

Lemma keeps_rand_lift {A : Type} (r : result A) : keeps_rand (lift r).
Proof. intros s. unfold lift. now destruct r. Qed.

Lemma keeps_rand_push (funcName ident : jsval) (c : Constraint.t) :
  keeps_rand (push funcName ident c).
Proof.
  intros s. unfold push. now destruct (FunctionConstraints.push _ _ c _).
Qed.

Lemma keeps_rand_bind {A B : Type} (m : M A) (f : A -> M B) :
  keeps_rand m -> (forall a, keeps_rand (f a)) -> keeps_rand (bind m f).
Proof.
  intros Hm Hf s. unfold bind. specialize (Hm s).
  destruct (m s) as [[a s1] | e]; [| exact I].
  specialize (Hf a s1). destruct (f a s1) as [[b s2] | e]; [| exact I].
  congruence.
Qed.

Lemma keeps_rand_for_each {A : Type} (l : list A) (body : A -> M unit) :
  (forall a, keeps_rand (body a)) -> keeps_rand (for_each l body).
Proof.
  intros H. induction l as [| a l IH]; cbn [for_each].
  - apply keeps_rand_ret.
  - apply keeps_rand_bind; [apply H | intros _; exact IH].
Qed.

Ltac keeping_rand :=
  repeat first
    [ apply keeps_rand_ret
    | apply keeps_rand_lift
    | apply keeps_rand_push
    | apply keeps_rand_for_each; intros ?
    | apply keeps_rand_bind; [| intros ?]
    | match goal with
      | |- keeps_rand (if ?b then _ else _) => destruct b
      end
    | progress cbv zeta ].

Variable buf : string.
Variable funcName : jsval.
Variable params : list jsval.

Lemma handle_property_keeps_rand (child : jsval) :
  keeps_rand (handle_property buf funcName params child).
Proof. unfold handle_property, prop. keeping_rand. Qed.

Lemma handle_readFileSync_keeps_rand (child : jsval) :
  keeps_rand (handle_readFileSync buf funcName params child).
Proof. unfold handle_readFileSync, push_fixtures, prop. keeping_rand. Qed.

Lemma handle_readdirSync_keeps_rand (child : jsval) :
  keeps_rand (handle_readdirSync buf funcName params child).
Proof. unfold handle_readdirSync, push_fixtures, prop. keeping_rand. Qed.

Lemma handle_relational_keeps_rand (child : jsval) :
  keeps_rand (handle_relational buf funcName params child).
Proof. unfold handle_relational, prop. keeping_rand. Qed.

Lemma handle_indexOf_keeps_rand (child : jsval) :
  keeps_rand (handle_indexOf buf funcName params child).
Proof. unfold handle_indexOf, prop. keeping_rand. Qed.

(** The equality recognizer draws in its last branch only, and once. *)
Lemma handle_equivalence_draws (child : jsval) (s s' : State) :
  handle_equivalence buf funcName params child s = Ok (tt, s') ->
  rand s' = rand s \/
  (length params = 1 /\
   lodash_includes params (lodash_get child ["left"; "name"]) = false /\
   rand s' = snd (randexp_gen (rand s))).
Proof.
  unfold handle_equivalence.
  destruct (Js.is_text (lodash_get child ["type"]) "BinaryExpression"
            && is_equality_operator (lodash_get child ["operator"]));
    [| intros [= <-]; now left].
  destruct (Js.is_text (lodash_get child ["left"; "type"]) "Identifier");
    [| intros [= <-]; now left].
  unfold bind at 1.
  destruct (prop child "left" s) as [[left s1] | e] eqn:E1; [| discriminate].
  assert (H1 := keeps_rand_lift (Js.get child "left") s).
  unfold prop in E1. rewrite E1 in H1.
  unfold bind at 1.
  destruct (prop left "name" s1) as [[ident s2] | e] eqn:E2; [| discriminate].
  assert (H2 := keeps_rand_lift (Js.get left "name") s1).
  unfold prop in E2. rewrite E2 in H2.
  unfold bind at 1.
  destruct (lift (source_text buf child) s2) as [[expression s3] | e] eqn:E3;
    [| discriminate].
  assert (H3 := keeps_rand_lift (source_text buf child) s2). rewrite E3 in H3.
  unfold bind at 1.
  destruct (lift (right_hand buf child) s3) as [[rightHand s4] | e] eqn:E4;
    [| discriminate].
  assert (H4 := keeps_rand_lift (right_hand buf child) s3). rewrite E4 in H4.
  cbv zeta.
  destruct (lodash_includes params (lodash_get child ["left"; "name"])) eqn:Hin.
  - intros Hrun. left.
    assert (H : keeps_rand
                  (op <- prop child "operator" ;;
                   push funcName ident
                     (constraint funcName ident (Text rightHand) integer op
                        expression) ;;
                   op <- prop child "operator" ;;
                   push funcName ident
                     (constraint funcName ident
                        match Js.match_quoted rightHand with
                        | Some inner => Text ("'NEQ - " ++ inner ++ "'")
                        | None => Number NaN
                        end integer op expression)))
      by (unfold prop; keeping_rand).
    specialize (H s4). rewrite Hrun in H. congruence.
  - destruct (length params =? 1) eqn:Hlen;
      [| intros [= <-]; left; congruence].
    apply Nat.eqb_eq in Hlen. intros Hrun. right.
    split; [exact Hlen |]. split; [reflexivity |].
    revert Hrun. unfold bind at 1. unfold gen at 1.
    destruct (randexp_gen (rand s4)) as [digits r] eqn:Hgen.
    set (s5 := {| functionConstraints := functionConstraints s4; rand := r |}).
    intros Hrun.
    assert (H : keeps_rand
                  (inner <- lift (group1 (Js.match_quoted rightHand)) ;;
                   op <- prop child "operator" ;;
                   push funcName (nth 0 params VUndefined)
                     (constraint funcName (nth 0 params VUndefined)
                        (Text ("'NEQ - " ++ rightHand ++ "'")) Kstring op
                        expression) ;;
                   op <- prop child "operator" ;;
                   push funcName (nth 0 params VUndefined)
                     (constraint funcName (nth 0 params VUndefined)
                        (Text (JsString.dquote
                               ++ (inner ++ JsString.substring digits 3
                                              (String.length digits))
                               ++ JsString.dquote))
                        Kstring op expression)))
      by (unfold prop; keeping_rand).
    specialize (H s5). rewrite Hrun in H. rewrite H. unfold s5. cbn [rand].
    replace (rand s) with (rand s4) by congruence.
    now rewrite Hgen.
Qed.

(** X10.  A visit draws from the random source at most once, and only in the
    fallback of the equality recognizer: whenever it returns, the random
    source is in the state it was in, or the function has exactly one
    parameter, the left side of the node is no parameter, and the random
    source is in the state that follows one draw. *)
Theorem visit_draws_at_most_once (child : jsval) (s s' : State) :
  visit_child buf funcName params child s = Ok (tt, s') ->
  rand s' = rand s \/
  (length params = 1 /\
   lodash_includes params (lodash_get child ["left"; "name"]) = false /\
   rand s' = snd (randexp_gen (rand s))).
Proof.
  unfold visit_child.
  unfold bind at 1.
  assert (H1 := handle_property_keeps_rand child s).
  destruct (handle_property buf funcName params child s) as [[[] s1] | e];
    [| discriminate].
  unfold bind at 1.
  assert (H2 := handle_readFileSync_keeps_rand child s1).
  destruct (handle_readFileSync buf funcName params child s1) as [[[] s2] | e];
    [| discriminate].
  unfold bind at 1.
  assert (H3 := handle_readdirSync_keeps_rand child s2).
  destruct (handle_readdirSync buf funcName params child s2) as [[[] s3] | e];
    [| discriminate].
  unfold bind at 1.
  destruct (handle_equivalence buf funcName params child s3) as [[[] s4] | e]
    eqn:E4; [| discriminate].
  apply handle_equivalence_draws in E4.
  unfold bind at 1.
  assert (H5 := handle_relational_keeps_rand child s4).
  destruct (handle_relational buf funcName params child s4) as [[[] s5] | e];
    [| discriminate].
  assert (H6 := handle_indexOf_keeps_rand child s5).
  destruct (handle_indexOf buf funcName params child s5) as [[[] s6] | e];
    [| discriminate].
  intros [= <-].
  replace (rand s) with (rand s3) by congruence.
  replace (rand s6) with (rand s4) by congruence.
  exact E4.
Qed.

End RandomSource.

(* ================================================================== *)
(** * One recognizer per node *)

Section OneRecognizer.

Context {host : Host}.

(** The type of the nodes of a recognizer. *)
Lemma entered_type (rec : recognizer) (child : jsval) :
  entered rec child = Some true ->
  lodash_get child ["type"]
  = VStr match rec with
         | PropertyOfParameter => "UnaryExpression"
         | ReadFileSync | ReaddirSync => "CallExpression"
         | Equivalence | Relational | IndexOf => "BinaryExpression"
         end.
Proof.
  destruct rec; cbn [entered lodash_get]; unfold is_call_of, rbind.
  - destruct (Js.get child "type") as [ty | e]; [| discriminate].
    destruct (Js.is_text ty "UnaryExpression") eqn:E; [| discriminate].
    intros _. now apply is_text_true.
  - destruct (Js.get child "type") as [ty | e]; [| discriminate].
    destruct (Js.is_text ty "CallExpression") eqn:E; [| discriminate].
    intros _. now apply is_text_true.
  - destruct (Js.get child "type") as [ty | e]; [| discriminate].
    destruct (Js.is_text ty "CallExpression") eqn:E; [| discriminate].
    intros _. now apply is_text_true.
  - intros [= H]. apply andb_true_iff in H. destruct H as [H _].
    apply andb_true_iff in H. destruct H as [H _]. now apply is_text_true.
  - intros [= H]. apply andb_true_iff in H. destruct H as [H _].
    apply andb_true_iff in H. destruct H as [H _]. now apply is_text_true.
  - intros [= H]. apply andb_true_iff in H. destruct H as [H _].
    apply andb_true_iff in H. destruct H as [H _].
    apply andb_true_iff in H. destruct H as [H _]. now apply is_text_true.
Qed.

(** The name of the method of a file-system call. *)
Lemma is_call_of_name (method : string) (child : jsval) :
  is_call_of method child = Ok true ->
  lodash_get child ["callee"; "property"; "name"] = VStr method.
Proof.
  unfold is_call_of, rbind. cbn [lodash_get].
  destruct (Js.get child "type") as [ty | e]; [| discriminate].
  destruct (Js.is_text ty "CallExpression"); [| discriminate].
  destruct (Js.get child "callee") as [callee | e]; [| discriminate].
  destruct (Js.get callee "property") as [property | e]; [| discriminate].
  destruct (Js.ToBoolean property); [| discriminate].
  destruct (Js.get property "name") as [name | e]; [| discriminate].
  intros [= H]. now apply is_text_true.
Qed.

(** X9.  No node is matched by two recognizers.  A recognizer that changes
    the state, by a push or by a draw from the random source, has entered
    its block; and the tests that open the blocks of two different
    recognizers never hold of the same node. *)
Theorem at_most_one_recognizer_matches :
  (forall rec buf funcName params child s s',
      run rec buf funcName params child s = Ok (tt, s') ->
      s' <> s -> entered rec child = Some true) /\
  (forall rec rec' child,
      entered rec child = Some true -> entered rec' child = Some true ->
      rec = rec').
Proof.
  split.
  - intros rec buf funcName params child s s' Hrun Hne.
    destruct rec; cbn [run entered] in *.
    + revert Hrun. unfold handle_property, prop, lift, rbind. unfold bind at 1.
      destruct (Js.get child "type") as [ty | e]; [| discriminate].
      destruct (Js.is_text ty "UnaryExpression");
        [| intros [= E]; now elim Hne].
      unfold bind at 1.
      destruct (Js.get child "argument") as [argument | e]; [| discriminate].
      unfold bind at 1.
      destruct (Js.get argument "type") as [aty | e]; [| discriminate].
      destruct (Js.is_text aty "MemberExpression");
        [reflexivity | intros [= E]; now elim Hne].
    + revert Hrun. unfold handle_readFileSync, lift. unfold bind at 1.
      destruct (is_call_of "readFileSync" child) as [[|] | e];
        [reflexivity | intros [= E]; now elim Hne | discriminate].
    + revert Hrun. unfold handle_readdirSync, lift. unfold bind at 1.
      destruct (is_call_of "readdirSync" child) as [[|] | e];
        [reflexivity | intros [= E]; now elim Hne | discriminate].
    + revert Hrun. unfold handle_equivalence.
      destruct (Js.is_text (lodash_get child ["type"]) "BinaryExpression"
                && is_equality_operator (lodash_get child ["operator"]));
        [| intros [= E]; now elim Hne].
      destruct (Js.is_text (lodash_get child ["left"; "type"]) "Identifier");
        [reflexivity | intros [= E]; now elim Hne].
    + revert Hrun. unfold handle_relational.
      destruct (Js.is_text (lodash_get child ["type"]) "BinaryExpression"
                && is_relational_operator (lodash_get child ["operator"]));
        [| intros [= E]; now elim Hne].
      destruct (Js.is_text (lodash_get child ["left"; "type"]) "Identifier");
        [reflexivity | intros [= E]; now elim Hne].
    + revert Hrun. unfold handle_indexOf.
      destruct (Js.is_text (lodash_get child ["type"]) "BinaryExpression"
                && is_equality_operator (lodash_get child ["operator"]));
        [| intros [= E]; now elim Hne].
      destruct (Js.is_text (lodash_get child ["left"; "type"]) "CallExpression");
        [| intros [= E]; now elim Hne].
      destruct (Js.is_text (lodash_get child ["left"; "callee"; "type"])
                  "MemberExpression");
        [reflexivity | intros [= E]; now elim Hne].
  - intros rec rec' child H H'.
    assert (T := entered_type rec child H).
    assert (T' := entered_type rec' child H').
    rewrite T in T'.
    destruct rec, rec'; try reflexivity; try discriminate T'; exfalso;
      cbn [entered] in H, H';
      repeat match goal with
             | E : Some _ = Some true |- _ => injection E as E
             | E : _ && _ = true |- _ => apply andb_true_iff in E; destruct E
             | E : Js.is_text _ _ = true |- _ => apply is_text_true in E
             | E : match ?r with Ok _ => _ | Throw _ => _ end = Some true |- _ =>
                 destruct r as [[|] |] eqn:?; try discriminate E; clear E
             | E : is_call_of _ _ = Ok true |- _ => apply is_call_of_name in E
             | E : is_equality_operator _ = true |- _ =>
                 apply equality_not_relational in E
             end;
      congruence.
Qed.

End OneRecognizer.

(* ================================================================== *)
(** * Records and declarations *)

Lemma Obj_set_set {A : Type} (k : string) (a a' : A) (o : Obj.t A) :
  Obj.set k a (Obj.set k a' o) = Obj.set k a o.
Proof.
  induction o as [| [k0 x] o IH]; cbn.
  - now rewrite String.eqb_refl.
  - destruct (String.eqb k0 k) eqn:E; cbn; rewrite E; [reflexivity |].
    now rewrite IH.
Qed.

Lemma FC_set_set (f : string) (r r0 : FunctionRecord.t)
      (fc : FunctionConstraints.t) :
  FunctionConstraints.set f r (FunctionConstraints.set f r0 fc)
  = FunctionConstraints.set f r fc.
Proof.
  unfold FunctionConstraints.set.
  destruct (String.eqb f "__proto__"); cbn; [reflexivity |].
  now rewrite Obj_set_set.
Qed.

Section Declarations.

Context {host : Host}.

(** X13.  The last declaration of a name wins and nothing is merged: the
    visit of a function declaration does not depend on the record the shared
    object holds under the name of the function, which it replaces, at the
    place of the earlier record, before the walk of the function starts. *)
Theorem earlier_record_is_replaced
        (buf : string) (node : jsval) (key : string) (r0 : FunctionRecord.t)
        (s : State) :
  declared_key node = Some key ->
  visit_node buf node
    (with_constraints s (FunctionConstraints.set key r0 (functionConstraints s)))
  = visit_node buf node s.
Proof.
  unfold declared_key, visit_node, bind, prop, lift.
  destruct (Js.get node "type") as [ty | e]; [| discriminate].
  destruct (Js.is_text ty "FunctionDeclaration"); [| discriminate].
  destruct (functionName node) as [fn | e]; [| discriminate].
  intros [= <-].
  destruct (param_names node) as [ps | e]; [| reflexivity].
  unfold init_record, with_constraints. cbn [functionConstraints rand].
  now rewrite FC_set_set.
Qed.

(** X15.  The functions of a result are the function declarations of the
    tree: when the extraction returns, a name has a record exactly when some
    node of the tree is a function declaration filed under that name, and
    the record lists the parameters of such a declaration. *)
Theorem result_functions_are_the_declarations
        (filePath buf : string) (tree : jsval) (r r' : Rand)
        (fc : FunctionConstraints.t) :
  readFileSync filePath = Ok buf ->
  esprima_parse buf options = Ok tree ->
  constraints filePath r = Ok (fc, r') ->
  forall f,
    (FunctionConstraints.get f fc <> None <->
     exists node, In node (nodes tree) /\ declared_key node = Some f) /\
    (forall rec,
        FunctionConstraints.get f fc = Some rec ->
        exists node, In node (nodes tree) /\ declared_key node = Some f /\
                     param_names node = Ok (FunctionRecord.params rec)).
Proof.
  intros Hread Hparse. unfold constraints. rewrite Hread, Hparse.
  destruct (traverse tree (visit_node buf) _) as [[[] s] | e] eqn:Hrun;
    [| discriminate].
  intros [= <- _]. rewrite traverse_nodes in Hrun.
  assert (Hempty : filed [] FunctionConstraints.empty).
  { split.
    - intros f0 r0. unfold FunctionConstraints.get, FunctionConstraints.empty.
      cbn. destruct (String.eqb f0 "__proto__"); discriminate.
    - intros node f0 []. }
  destruct (for_each_filed buf (nodes tree) [] _ s Hrun Hempty) as [K1 K2].
  cbn [app] in K1, K2.
  intros f. split; [split |].
  - intros Hf.
    destruct (FunctionConstraints.get f (functionConstraints s)) as [rec |] eqn:E;
      [| congruence].
    destruct (K1 f rec E) as [node [Hn [Hk _]]]. eauto.
  - intros [node [Hn Hk]]. exact (K2 node f Hn Hk).
  - intros rec E. destruct (K1 f rec E) as [node [Hn [Hk [Hp _]]]]. eauto.
Qed.

End Declarations.

(* ================================================================== *)
(** * The nodes of a walk *)

Lemma nodes_head (v : jsval) : In v (nodes v).
Proof. destruct v; cbn; now left. Qed.

Lemma nodes_array (n : jsval) (elems : list jsval) :
  In n (nodes (VArr elems)) <->
  n = VArr elems \/
  exists child, In child elems /\ Js.is_object child = true /\ In n (nodes child).
Proof.
  cbn [nodes].
  set (children := fix children (es : list jsval) : list jsval :=
         match es with
         | [] => []
         | child :: es' =>
             (if Js.is_object child then nodes child else []) ++ children es'
         end).
  assert (H : forall es, In n (children es) <->
                         exists child, In child es /\ Js.is_object child = true /\
                                       In n (nodes child)).
  { induction es as [| child es IH]; cbn.
    - split; [intros [] | intros [? [[] _]]].
    - rewrite in_app_iff, IH. split.
      + intros [Hc | [c [Hin H]]].
        * destruct (Js.is_object child) eqn:E; [| destruct Hc].
          exists child. auto.
        * exists c. split; [now right | exact H].
      + intros [c [[<- | Hin] [Ho Hn]]].
        * left. now rewrite Ho.
        * right. exists c. auto. }
  cbn [In]. rewrite H. split; intros [E | E]; auto.
Qed.

Lemma nodes_object (n : jsval) (props : list (string * jsval)) :
  In n (nodes (VObj props)) <->
  n = VObj props \/
  exists kv, In kv props /\ Js.is_object (snd kv) = true /\ In n (nodes (snd kv)).
Proof.
  cbn [nodes].
  set (children := fix children (ps : list (string * jsval)) : list jsval :=
         match ps with
         | [] => []
         | (_, child) :: ps' =>
             (if Js.is_object child then nodes child else []) ++ children ps'
         end).
  assert (H : forall ps, In n (children ps) <->
                         exists kv, In kv ps /\ Js.is_object (snd kv) = true /\
                                    In n (nodes (snd kv))).
  { induction ps as [| [k child] ps IH]; cbn.
    - split; [intros [] | intros [? [[] _]]].
    - rewrite in_app_iff, IH. split.
      + intros [Hc | [c [Hin H]]].
        * destruct (Js.is_object child) eqn:E; [| destruct Hc].
          exists (k, child). auto.
        * exists c. split; [now right | exact H].
      + intros [c [[<- | Hin] [Ho Hn]]].
        * left. cbn [snd] in *. now rewrite Ho.
        * right. exists c. auto. }
  cbn [In]. rewrite H. split; intros [E | E]; auto.
Qed.

(** A node of the walk of a node of a walk is a node of that walk. *)
Lemma nodes_nested (outer inner n : jsval) :
  In inner (nodes outer) -> In n (nodes inner) -> In n (nodes outer).
Proof.
  induction outer as [| | b | x | x | elems IH | props IH | x]
    using jsval_induction;
    try (cbn; intros [<- | []]; auto; fail).
  - intros Hi Hn. apply nodes_array in Hi. destruct Hi as [-> | [c [Hc [Ho Hi]]]].
    + exact Hn.
    + apply nodes_array. right. exists c. split; [exact Hc |]. split; [exact Ho |].
      exact (proj1 (Forall_forall _ _) IH c Hc Hi Hn).
  - intros Hi Hn. apply nodes_object in Hi.
    destruct Hi as [-> | [kv [Hc [Ho Hi]]]].
    + exact Hn.
    + apply nodes_object. right. exists kv. split; [exact Hc |].
      split; [exact Ho |].
      exact (proj1 (Forall_forall _ _) IH kv Hc Hi Hn).
Qed.

(** Below its root a walk meets objects and arrays only. *)
Lemma nodes_are_objects (v n : jsval) :
  In n (nodes v) -> n = v \/ Js.is_object n = true.
Proof.
  revert n.
  induction v as [| | b | x | x | elems IH | props IH | x]
    using jsval_induction;
    intros n; try (cbn; intros [<- | []]; auto; fail).
  - intros Hn. apply nodes_array in Hn. destruct Hn as [-> | [c [Hc [Ho Hn]]]].
    + now left.
    + right. destruct (proj1 (Forall_forall _ _) IH c Hc n Hn) as [-> | H]; auto.
  - intros Hn. apply nodes_object in Hn. destruct Hn as [-> | [kv [Hc [Ho Hn]]]].
    + now left.
    + right. destruct (proj1 (Forall_forall _ _) IH kv Hc n Hn) as [-> | H]; auto.
Qed.

(** A walk starts at its root and meets objects and arrays only below
    it. *)
Lemma nodes_below (v : jsval) :
  exists below,
    nodes v = v :: below /\ Forall (fun n => Js.is_object n = true) below.
Proof.
  assert (H : exists below, nodes v = v :: below)
    by (destruct v; cbn [nodes]; eauto).
  destruct H as [below H]. exists below. split; [exact H |].
  apply Forall_forall. intros n Hn.
  destruct (nodes_are_objects v n) as [-> | Ho]; [| | exact Ho].
  - rewrite H. now right.
  - destruct v; cbn [nodes] in H; injection H as <-; try destruct Hn; reflexivity.
Qed.

(** The nodes of the walk of a node of a walk are consecutive nodes of
    that walk. *)
Lemma nodes_contiguous (outer inner : jsval) :
  In inner (nodes outer) ->
  exists before after, nodes outer = before ++ nodes inner ++ after.
Proof.
  induction outer as [| | b | x | x | elems IH | props IH | x]
    using jsval_induction;
    try (cbn; intros [<- | []]; exists [], []; reflexivity).
  - intros Hi. apply nodes_array in Hi. destruct Hi as [-> | [c [Hc [Ho Hi]]]].
    + exists [], []. now rewrite app_nil_r.
    + destruct (proj1 (Forall_forall _ _) IH c Hc Hi) as [b1 [a1 E1]].
      cbn [nodes].
      set (children := fix children (es : list jsval) : list jsval :=
             match es with
             | [] => []
             | child :: es' =>
                 (if Js.is_object child then nodes child else []) ++ children es'
             end).
      assert (H : exists b2 a2, children elems = b2 ++ nodes c ++ a2).
      { clear IH. induction elems as [| e es IHes]; [destruct Hc |].
        cbn. destruct Hc as [-> | Hc].
        - rewrite Ho. exists [], (children es). reflexivity.
        - destruct (IHes Hc) as [b2 [a2 E2]]. rewrite E2.
          exists ((if Js.is_object e then nodes e else []) ++ b2), a2.
          now rewrite <- app_assoc. }
      destruct H as [b2 [a2 E2]]. rewrite E2, E1.
      exists (VArr elems :: b2 ++ b1), (a1 ++ a2).
      cbn [app]. f_equal. now rewrite <- !app_assoc.
  - intros Hi. apply nodes_object in Hi.
    destruct Hi as [-> | [kv [Hc [Ho Hi]]]].
    + exists [], []. now rewrite app_nil_r.
    + destruct (proj1 (Forall_forall _ _) IH kv Hc Hi) as [b1 [a1 E1]].
      cbn [nodes].
      set (children := fix children (ps : list (string * jsval)) : list jsval :=
             match ps with
             | [] => []
             | (_, child) :: ps' =>
                 (if Js.is_object child then nodes child else []) ++ children ps'
             end).
      assert (H : exists b2 a2, children props = b2 ++ nodes (snd kv) ++ a2).
      { clear IH. induction props as [| [k e] ps IHps]; [destruct Hc |].
        cbn. destruct Hc as [<- | Hc].
        - cbn [snd] in *. rewrite Ho. exists [], (children ps). reflexivity.
        - destruct (IHps Hc) as [b2 [a2 E2]]. rewrite E2.
          exists ((if Js.is_object e then nodes e else []) ++ b2), a2.
          now rewrite <- app_assoc. }
      destruct H as [b2 [a2 E2]]. rewrite E2, E1.
      exists (VObj props :: b2 ++ b1), (a1 ++ a2).
      cbn [app]. f_equal. now rewrite <- !app_assoc.
Qed.

Section Walks.

Context {host : Host}.

Lemma for_each_returns {A : Type} (body : A -> M unit) (l : list A) (a : A) :
  In a l ->
  forall s s', for_each l body s = Ok (tt, s') ->
               exists s1 s2, body a s1 = Ok (tt, s2).
Proof.
  induction l as [| x l IH]; intros Hin s s'; [destruct Hin |].
  cbn [for_each]. unfold bind.
  destruct (body x s) as [[[] s1] | e] eqn:E; [| discriminate].
  destruct Hin as [<- | Hin]; [eauto |].
  exact (IH Hin s1 s').
Qed.

(** X18.  The walk calls its visitor on the nodes of the list [nodes], in
    that order, handing the state on and stopping at the first exception:
    first on the object it is given, then on objects and arrays only, the
    values its test of the type lets through, never on a primitive value or
    on [null].  The visits of the walk of a node that the walk meets are a
    run of consecutive visits of the walk: the walk of a function covers
    the walk of every function nested in it.  When the walk returns, the
    visitor has returned on each of these nodes. *)
Theorem walk_covers_nested_walks (visitor : jsval -> M unit) (outer : jsval) :
  (forall s, traverse outer visitor s = for_each (nodes outer) visitor s) /\
  (exists below,
      nodes outer = outer :: below /\
      Forall (fun n => Js.is_object n = true) below) /\
  (forall inner,
      In inner (nodes outer) ->
      (exists before after, nodes outer = before ++ nodes inner ++ after) /\
      (forall s s',
          traverse outer visitor s = Ok (tt, s') ->
          Forall (fun n => exists s1 s2, visitor n s1 = Ok (tt, s2))
                 (nodes inner))).
Proof.
  split; [exact (traverse_nodes visitor outer) |]. split.
  - exact (nodes_below outer).
  - intros inner Hinner. split; [exact (nodes_contiguous outer inner Hinner) |].
    intros s s' Hrun. rewrite traverse_nodes in Hrun.
    apply Forall_forall. intros n Hn.
    assert (Hin := nodes_nested outer inner n Hinner Hn).
    exact (for_each_returns visitor (nodes outer) n Hin s s' Hrun).
Qed.

End Walks.

(* ================================================================== *)
(** * The pattern of quoted texts *)

Lemma chars_text (l : list ascii) : JsString.chars (JsString.text l) = l.
Proof. apply list_ascii_of_string_of_list_ascii. Qed.

Lemma text_chars (s : string) : JsString.text (JsString.chars s) = s.
Proof. apply string_of_list_ascii_of_string. Qed.

Lemma chars_append (s t : string) :
  JsString.chars (s ++ t) = JsString.chars s ++ JsString.chars t.
Proof.
  unfold JsString.chars.
  induction s as [| c s IH]; cbn; [reflexivity | now rewrite IH].
Qed.

Lemma forallb_reversed {A : Type} (f : A -> bool) (l : list A) :
  forallb f (rev l) = forallb f l.
Proof.
  induction l as [| a l IH]; cbn; [reflexivity |].
  rewrite forallb_app, IH. cbn. rewrite andb_true_r. apply andb_comm.
Qed.

Lemma quote_is_no_line_terminator (c : ascii) :
  JsString.is_quote c = true -> RegExp.dot c = true.
Proof.
  unfold JsString.is_quote, RegExp.dot, JsString.is_line_terminator.
  intros H. apply orb_true_iff in H. apply negb_true_iff. apply orb_false_iff.
  destruct H as [H | H]; apply Nat.eqb_eq in H; rewrite H; split; reflexivity.
Qed.

(** The starred dot of the pattern, followed by the closing quote and the
    end of the text: the star gives back characters until a single one is
    left. *)
Lemma star_then_quote (q : ascii) (l seen : list ascii) :
  RegExp.star RegExp.dot l seen None
    (fun st' =>
       RegExp.matcher (RegExp.Cat (RegExp.Chars JsString.is_quote) RegExp.End_)
         {| RegExp.seen := RegExp.seen st'; RegExp.rest := RegExp.rest st';
            RegExp.group := Some (JsString.text
                                    (skipn (length [q]) (rev (RegExp.seen st')))) |}
         Some)
  = match rev l with
    | q' :: rinner =>
        if JsString.is_quote q' && forallb RegExp.dot rinner
        then Some {| RegExp.seen := q' :: rinner ++ seen; RegExp.rest := [];
                     RegExp.group :=
                       Some (JsString.text
                               (skipn (length [q]) (rev (rinner ++ seen)))) |}
        else None
    | [] => None
    end.
Proof.
  revert seen. induction l as [| c l IH]; intros seen; [reflexivity |].
  cbn [RegExp.star]. rewrite IH. cbn [rev].
  destruct (rev l) as [| q' rinner] eqn:Hl.
  - assert (l = []) by (apply (f_equal (@rev ascii)) in Hl;
                         now rewrite rev_involutive in Hl).
    subst l. cbn [app forallb]. rewrite andb_true_r.
    cbn [RegExp.matcher RegExp.rest RegExp.seen RegExp.group].
    destruct (JsString.is_quote c) eqn:Hq.
    + rewrite (quote_is_no_line_terminator c Hq). reflexivity.
    + destruct (RegExp.dot c); reflexivity.
  - cbn [app]. rewrite forallb_app. cbn [forallb]. rewrite andb_true_r.
    assert (Hhere : RegExp.matcher
                      (RegExp.Cat (RegExp.Chars JsString.is_quote) RegExp.End_)
                      {| RegExp.seen := seen; RegExp.rest := c :: l;
                         RegExp.group :=
                           Some (JsString.text (skipn (length [q]) (rev seen))) |}
                      Some = None).
    { cbn [RegExp.matcher RegExp.rest RegExp.seen RegExp.group].
      destruct (JsString.is_quote c); [| reflexivity].
      destruct l; [discriminate Hl | reflexivity]. }
    cbn [RegExp.seen RegExp.rest] in *. rewrite Hhere.
    destruct (RegExp.dot c) eqn:Hc.
    + rewrite andb_true_r.
      destruct (JsString.is_quote q' && forallb RegExp.dot rinner);
        [| reflexivity].
      now rewrite <- !app_assoc.
    + rewrite andb_false_r. now rewrite andb_false_r.
Qed.

Lemma exec_from_quoted_later (c : ascii) (seen rest : list ascii) :
  RegExp.exec_from RegExp.quoted (c :: seen) rest = None.
Proof.
  revert c seen. induction rest as [| x rest IH]; intros c seen; cbn.
  - reflexivity.
  - apply IH.
Qed.

(** The match of the pattern, in closed form. *)
Lemma quoted_match_closed (s : string) :
  RegExp.match_ RegExp.quoted s
  = match JsString.chars s with
    | q :: l =>
        match rev l with
        | q' :: rinner =>
            if JsString.is_quote q && JsString.is_quote q'
               && forallb RegExp.dot rinner
            then Some (Some (JsString.text (rev rinner)))
            else None
        | [] => None
        end
    | [] => None
    end.
Proof.
  unfold RegExp.match_.
  destruct (JsString.chars s) as [| q l]; [reflexivity |].
  cbn [RegExp.exec_from]. rewrite exec_from_quoted_later.
  assert (E : RegExp.matcher RegExp.quoted
                {| RegExp.seen := []; RegExp.rest := q :: l; RegExp.group := None |}
                Some
              = if JsString.is_quote q
                then RegExp.star RegExp.dot l [q] None
                       (fun st' =>
                          RegExp.matcher
                            (RegExp.Cat (RegExp.Chars JsString.is_quote) RegExp.End_)
                            {| RegExp.seen := RegExp.seen st';
                               RegExp.rest := RegExp.rest st';
                               RegExp.group :=
                                 Some (JsString.text
                                         (skipn (length [q])
                                            (rev (RegExp.seen st')))) |}
                            Some)
                else None) by reflexivity.
  rewrite E, (star_then_quote q l [q]).
  destruct (JsString.is_quote q); [| now destruct (rev l)].
  destruct (rev l) as [| q' rinner]; [reflexivity |].
  cbn [andb].
  destruct (JsString.is_quote q' && forallb RegExp.dot rinner); [| reflexivity].
  cbn [option_map RegExp.group]. rewrite rev_app_distr. reflexivity.
Qed.

(** X19.  The pattern of the recognizers, run by the matcher, matches
    exactly the texts that start with a quote character, end with another
    occurrence of a quote character, single or double and not necessarily
    the same, and have no line terminator in between; the group then
    captures everything in between, quote characters included, the star
    being greedy.  A text that matches has at least two characters, so that
    no number and no identifier matches.  What the recognizers read as the
    group of the match is this text. *)
Theorem quoted_pattern_captures_inner_text :
  (forall (q q' : ascii) (inner : string),
      JsString.is_quote q = true -> JsString.is_quote q' = true ->
      forallb RegExp.dot (JsString.chars inner) = true ->
      RegExp.match_ RegExp.quoted (String q (inner ++ String q' EmptyString))
      = Some (Some inner)) /\
  (forall (s : string) (captured : option string),
      RegExp.match_ RegExp.quoted s = Some captured ->
      exists q q' inner,
        captured = Some inner /\
        JsString.is_quote q = true /\ JsString.is_quote q' = true /\
        forallb RegExp.dot (JsString.chars inner) = true /\
        s = String q (inner ++ String q' EmptyString)) /\
  (forall (s inner : string),
      Js.match_quoted s = Some inner <->
      RegExp.match_ RegExp.quoted s = Some (Some inner)).
Proof.
  split; [| split].
  - intros q q' inner Hq Hq' Hin. rewrite quoted_match_closed.
    change (JsString.chars (String q (inner ++ String q' EmptyString)))
      with (q :: JsString.chars (inner ++ String q' EmptyString)).
    rewrite chars_append.
    change (JsString.chars (String q' EmptyString)) with [q'].
    rewrite rev_app_distr. cbn [rev app].
    rewrite Hq, Hq'. cbn [andb].
    rewrite forallb_reversed, Hin, rev_involutive.
    now rewrite text_chars.
  - intros s captured. rewrite quoted_match_closed.
    destruct (JsString.chars s) as [| q l] eqn:Hs; [discriminate |].
    destruct (rev l) as [| q' rinner] eqn:Hl; [discriminate |].
    destruct (JsString.is_quote q && JsString.is_quote q'
              && forallb RegExp.dot rinner)
      eqn:Hc; [| discriminate].
    intros [= <-].
    apply andb_true_iff in Hc. destruct Hc as [Hc Hline].
    apply andb_true_iff in Hc. destruct Hc as [Hq Hq'].
    exists q, q', (JsString.text (rev rinner)).
    split; [reflexivity |]. split; [exact Hq |]. split; [exact Hq' |].
    rewrite chars_text. split; [now rewrite forallb_reversed |].
    rewrite <- (text_chars s), Hs.
    assert (El : l = rev rinner ++ [q'])
      by (rewrite <- (rev_involutive l), Hl; reflexivity).
    rewrite El. cbn [JsString.text string_of_list_ascii]. f_equal.
    clear. induction (rev rinner) as [| c r IH]; cbn; [reflexivity |].
    now rewrite IH.
  - intros s inner. unfold Js.match_quoted.
    destruct (RegExp.match_ RegExp.quoted s) as [[captured |] |]; split;
      congruence.
Qed.

(* ================================================================== *)
(** * A method call on something else than a parameter *)

Section OtherObjects.

Context {host : Host}.

Variable buf : string.
Variable funcName : jsval.
Variable params : list jsval.

Ltac follow_path :=
  repeat (erewrite lodash_get_field by eassumption); reflexivity.

(** X7.  An equality or inequality comparison whose left side is a call,
    with at least one argument, of a member function on an object whose
    [name] is no entry of the parameter list (for an object without a
    name, that is when every parameter is an identifier) pushes nothing.
    The counting loop runs all the same, before the name is looked up:
    when it ends and the padded word is no longer than the longest text of
    the engine, the visit returns and the state is as it was. *)
Theorem method_call_on_other_object
        (child left right callee object name args first token a b c d : jsval)
        (op : string) (n : Z) (s : State) :
  comparison child op left right a b c d ->
  is_equality_operator (VStr op) = true ->
  field left "type" (VStr "CallExpression") ->
  field left "callee" callee ->
  field callee "type" (VStr "MemberExpression") ->
  field callee "object" object ->
  field object "name" name ->
  field left "arguments" args ->
  field args "0" first ->
  field first "value" token ->
  lodash_includes params name = false ->
  filler_rounds (Js.substring buf c d) = Some n ->
  (n + Z.of_nat (String.length (Js.ToString token)) <= text_limit)%Z ->
  visit_child buf funcName params child s = Ok (tt, s).
Proof.
  intros Hcmp Heq Hlty Hcallee Hcty Hobj Hname Hargs Hfirst Htoken Hno Hn Hfit.
  assert (Hsteps := member_call_steps buf funcName params child left right callee
                      a b c d op s Hcmp Heq Hlty Hcallee Hcty).
  destruct Hcmp as (Hty & Hop & Hleft & Hright & Hrange & Hrr).
  assert (Hon : lodash_get child ["left"; "callee"; "object"; "name"] = name)
    by follow_path.
  rewrite Hon in Hsteps. unfold bind, prop, lift in Hsteps.
  rewrite Hleft, Hcallee, Hobj, Hname in Hsteps. cbv beta iota in Hsteps.
  rewrite Hleft, Hargs, Hfirst, Htoken, (source_text_range buf _ _ _ Hrange),
    (right_hand_range buf _ _ _ _ Hright Hrr) in Hsteps.
  unfold padded_word in Hsteps. rewrite Hn, Hno in Hsteps.
  apply Z.leb_le in Hfit. rewrite Hfit in Hsteps. exact Hsteps.
Qed.

End OtherObjects.

(* ================================================================== *)
(** * Subjects without function declarations *)

Section NoDeclaration.

Context {host : Host}.

Lemma visit_node_other (buf : string) (node ty : jsval) (s : State) :
  field node "type" ty -> Js.is_text ty "FunctionDeclaration" = false ->
  visit_node buf node s = Ok (tt, s).
Proof.
  unfold field, visit_node, bind, prop, lift. now intros -> ->.
Qed.

Lemma object_has_type (v : jsval) :
  Js.is_object v = true -> exists ty, field v "type" ty.
Proof.
  unfold field. destruct v; try discriminate; intros _; unfold Js.get;
    repeat match goal with
           | |- context [match ?e with _ => _ end] => destruct e
           end; eauto.
Qed.

(** X16.  Only function declarations are analysed.  When no node of the tree
    of the subject is a function declaration, as in a subject that defines
    its functions by function expressions, arrow functions or methods, the
    extraction returns the empty object, leaves the random source as it was
    and raises nothing, whatever the nodes hold. *)
Theorem no_declaration_gives_empty_result
        (filePath buf : string) (tree : jsval) (r : Rand) :
  readFileSync filePath = Ok buf ->
  esprima_parse buf options = Ok tree ->
  Js.is_object tree = true ->
  (forall node ty,
      In node (nodes tree) -> field node "type" ty ->
      Js.is_text ty "FunctionDeclaration" = false) ->
  constraints filePath r = Ok (FunctionConstraints.empty, r).
Proof.
  intros Hread Hparse Hroot Hnone. unfold constraints. rewrite Hread, Hparse.
  rewrite traverse_nodes, for_each_skip; [reflexivity |].
  intros node Hin.
  assert (Hobj : Js.is_object node = true).
  { destruct (nodes_are_objects tree node Hin) as [-> | H]; auto. }
  destruct (object_has_type node Hobj) as [ty Hty].
  exact (visit_node_other buf node ty _ Hty (Hnone node ty Hin Hty)).
Qed.

End NoDeclaration.

(* ================================================================== *)
(** * The exceptions of a walk *)

Section Exceptions.

Context {host : Host}.

Lemma raises_only_ret {A : Type} (P : exn -> Prop) (a : A) : raises_only P (ret a).
Proof. intros s e. discriminate. Qed.

Lemma raises_only_lift {A : Type} (P : exn -> Prop) (r : result A) :
  (forall e, r = Throw e -> P e) -> raises_only P (lift r).
Proof.
  intros H s e. unfold lift. destruct r as [a | e']; [discriminate |].
  intros [= <-]. now apply H.
Qed.

Lemma raises_only_bind {A B : Type} (P : exn -> Prop) (m : M A) (f : A -> M B) :
  raises_only P m -> (forall a, raises_only P (f a)) -> raises_only P (bind m f).
Proof.
  intros Hm Hf s e. unfold bind.
  destruct (m s) as [[a s1] | e1] eqn:E.
  - apply Hf.
  - intros [= <-]. exact (Hm s e1 E).
Qed.

Lemma raises_only_for_each {A : Type} (P : exn -> Prop) (l : list A)
      (body : A -> M unit) :
  (forall a, raises_only P (body a)) -> raises_only P (for_each l body).
Proof.
  intros H. induction l as [| a l IH]; cbn [for_each].
  - apply raises_only_ret.
  - apply raises_only_bind; [apply H | intros _; exact IH].
Qed.

Lemma raises_only_push (funcName ident : jsval) (c : Constraint.t) :
  raises_only walk_error (push funcName ident c).
Proof.
  intros s e. unfold push.
  destruct (FunctionConstraints.push _ _ c _); [discriminate |].
  intros [= <-]. now left.
Qed.

Lemma raises_only_gen : raises_only walk_error gen.
Proof. intros s e. unfold gen. now destruct (randexp_gen (rand s)). Qed.

Lemma raises_only_traverse (P : exn -> Prop) (visitor : jsval -> M unit)
      (object : jsval) :
  (forall n, raises_only P (visitor n)) -> raises_only P (traverse object visitor).
Proof.
  intros H s e. rewrite traverse_nodes. now apply raises_only_for_each.
Qed.

(** The reads of the visitors raise a [TypeError] only. *)
Lemma get_walk_error (v : jsval) (k : string) (e : exn) :
  Js.get v k = Throw e -> walk_error e.
Proof. intros H. left. exact (get_raises v k e H). Qed.

Lemma rbind_walk_error {A B : Type} (r : result A) (f : A -> result B) (e : exn) :
  (forall e', r = Throw e' -> walk_error e') ->
  (forall a e', f a = Throw e' -> walk_error e') ->
  rbind r f = Throw e -> walk_error e.
Proof.
  intros Hr Hf. unfold rbind. destruct r as [a | e']; [apply Hf |].
  intros [= <-]. now apply Hr.
Qed.

Ltac reading :=
  repeat first
    [ apply get_walk_error
    | discriminate
    | match goal with
      | |- rbind _ _ = Throw _ -> walk_error _ =>
          apply rbind_walk_error; [intros ? | intros ? ?]
      | |- (if ?b then _ else _) = Throw _ -> walk_error _ => destruct b
      end ].

Lemma source_text_walk_error (buf : string) (node : jsval) (e : exn) :
  source_text buf node = Throw e -> walk_error e.
Proof. unfold source_text. reading. Qed.

Lemma right_hand_walk_error (buf : string) (child : jsval) (e : exn) :
  right_hand buf child = Throw e -> walk_error e.
Proof. unfold right_hand. reading. Qed.

Lemma is_call_of_walk_error (method : string) (child : jsval) (e : exn) :
  is_call_of method child = Throw e -> walk_error e.
Proof. unfold is_call_of. reading. Qed.

Lemma group1_walk_error (m : option string) (e : exn) :
  group1 m = Throw e -> walk_error e.
Proof. destruct m; [discriminate |]. intros [= <-]. now left. Qed.

Lemma padded_word_walk_error (rightHand : string) (given_word : jsval) (e : exn) :
  padded_word rightHand given_word = Throw e -> walk_error e.
Proof.
  unfold padded_word. destruct (filler_rounds rightHand) as [n |].
  - destruct (n + _ <=? text_limit)%Z; [discriminate |].
    intros [= <-]. now right.
  - intros [= <-]. now right.
Qed.

Lemma single_quoted_walk_error (word : string) (e : exn) :
  single_quoted word = Throw e -> walk_error e.
Proof.
  unfold single_quoted. destruct (_ <=? text_limit)%Z; [discriminate |].
  intros [= <-]. now right.
Qed.

Lemma functionName_walk_error (node : jsval) (e : exn) :
  functionName node = Throw e -> walk_error e.
Proof. unfold functionName. reading. Qed.

Lemma param_names_walk_error (node : jsval) (e : exn) :
  param_names node = Throw e -> walk_error e.
Proof.
  unfold param_names. apply rbind_walk_error; [intros e'; apply get_walk_error |].
  intros ps e'. destruct ps as [| | ? | ? | ? | elems | ? | ?];
    try (intros [= <-]; now left).
  revert e'. induction elems as [| p elems IH]; intros e'; cbn [rmap];
    [discriminate |].
  apply rbind_walk_error; [intros e''; apply get_walk_error |].
  intros x e''. apply rbind_walk_error; [exact IH |].
  discriminate.
Qed.

Ltac raising :=
  repeat first
    [ apply raises_only_ret
    | apply raises_only_push
    | apply raises_only_gen
    | apply raises_only_lift; intros ?;
      first [ apply get_walk_error | apply source_text_walk_error
            | apply right_hand_walk_error | apply is_call_of_walk_error
            | apply group1_walk_error | apply padded_word_walk_error
            | apply single_quoted_walk_error ]
    | apply raises_only_for_each; intros ?
    | apply raises_only_bind; [| intros ?]
    | match goal with
      | |- raises_only _ (if ?b then _ else _) => destruct b
      end
    | progress cbv zeta ].

Lemma visit_child_walk_error (buf : string) (funcName : jsval)
      (params : list jsval) (child : jsval) :
  raises_only walk_error (visit_child buf funcName params child).
Proof.
  unfold visit_child, handle_property, handle_readFileSync, handle_readdirSync,
    push_fixtures, handle_equivalence, handle_relational, handle_indexOf, prop.
  raising.
Qed.

Lemma visit_node_walk_error (buf : string) (node : jsval) :
  raises_only walk_error (visit_node buf node).
Proof.
  unfold visit_node, prop.
  apply raises_only_bind;
    [apply raises_only_lift; intros ?; apply get_walk_error | intros ty].
  destruct (Js.is_text ty "FunctionDeclaration"); [| apply raises_only_ret].
  apply raises_only_bind;
    [apply raises_only_lift; intros ?; apply functionName_walk_error | intros fn].
  apply raises_only_bind;
    [apply raises_only_lift; intros ?; apply param_names_walk_error | intros ps].
  apply raises_only_bind; [intros s e; discriminate | intros _].
  apply raises_only_traverse. intros n. apply visit_child_walk_error.
Qed.

(** X17.  Once the subject is read and parsed, the extraction fails in two
    ways only: with a [TypeError], for a read of a property of a value that
    is [undefined] or [null] or a push on a list that is not there, and with
    a [RangeError], for the counting loop that has no end or whose word is
    beyond the longest text of the engine.  It never raises an error of the
    file system or of the parser from inside a walk. *)
Theorem walk_raises_type_or_range_error
        (filePath buf : string) (tree : jsval) (r : Rand) (e : exn) :
  readFileSync filePath = Ok buf ->
  esprima_parse buf options = Ok tree ->
  constraints filePath r = Throw e ->
  e = TypeError \/ e = RangeError.
Proof.
  intros Hread Hparse. unfold constraints. rewrite Hread, Hparse.
  destruct (traverse tree (visit_node buf) _) as [[[] s] | e'] eqn:E;
    [discriminate |].
  intros [= <-].
  exact (raises_only_traverse walk_error (visit_node buf) tree
           (visit_node_walk_error buf) _ e' E).
Qed.

End Exceptions.

(* ================================================================== *)
(** * The records a function walk touches *)

Lemma push_get_other (f k g : string) (c : Constraint.t)
      (fc fc' : FunctionConstraints.t) :
  FunctionConstraints.push f k c fc = Some fc' -> g <> f ->
  FunctionConstraints.get g fc' = FunctionConstraints.get g fc.
Proof.
  unfold FunctionConstraints.push.
  destruct (FunctionConstraints.get f fc) as [r |]; [| discriminate].
  destruct (Obj.get k (FunctionRecord.constraints r)) as [l |]; [| discriminate].
  intros [= <-] Hne. now apply FC_get_set_other.
Qed.

Section OwnRecord.

Context {host : Host}.

(** X14.  The visit of a function declaration touches the record of that
    function only: whenever it returns, the record of every other name is
    the one that was there, with its parameters, its lists and their order,
    and the record under the name of the function lists the parameters of
    the declaration.  The visit of any other node changes nothing. *)
Theorem function_walk_keeps_other_records
        (buf : string) (node : jsval) (s s' : State) :
  visit_node buf node s = Ok (tt, s') ->
  match declared_key node with
  | Some key =>
      (forall g, g <> key ->
         FunctionConstraints.get g (functionConstraints s')
         = FunctionConstraints.get g (functionConstraints s)) /\
      exists rec,
        FunctionConstraints.get key (functionConstraints s') = Some rec /\
        param_names node = Ok (FunctionRecord.params rec)
  | None => s' = s
  end.
Proof.
  unfold declared_key, visit_node, bind, prop, lift.
  destruct (Js.get node "type") as [ty | e]; [| discriminate].
  destruct (Js.is_text ty "FunctionDeclaration"); [| now intros [= <-]].
  destruct (functionName node) as [fn | e]; [| discriminate].
  destruct (param_names node) as [ps | e]; [| discriminate].
  unfold init_record.
  set (fc0 := FunctionConstraints.set (Js.ToString fn)
                (FunctionRecord.new (zipObject_empty ps) ps)
                (functionConstraints s)).
  set (keeps := fun fc =>
         (forall g, g <> Js.ToString fn ->
            FunctionConstraints.get g fc
            = FunctionConstraints.get g (functionConstraints s)) /\
         option_map FunctionRecord.params
           (FunctionConstraints.get (Js.ToString fn) fc) = Some ps).
  assert (Hvisit : forall child, preserves keeps (visit_child buf fn ps child)).
  { intros child.
    apply (Pushing_preserves fn (addressed ps child) keeps)
      with (m2 := visit_child buf fn ps child);
      [| apply visit_child_pushing].
    intros ident c fc fc' [Hother Hown] _ _ Hp. split.
    - intros g Hg. rewrite (push_get_other _ _ g _ _ _ Hp Hg). now apply Hother.
    - destruct (push_appended _ _ _ _ _ Hp) as [_ [_ Hparams]].
      now rewrite Hparams. }
  assert (H0 : keeps fc0).
  { split.
    - intros g Hg. unfold fc0. now apply FC_get_set_other.
    - unfold fc0. now rewrite FC_get_set_same. }
  assert (H := traverse_preserves keeps (visit_child buf fn ps) node Hvisit
                 (with_constraints s fc0) H0).
  intros Hrun. rewrite Hrun in H. destruct H as [Hother Hown].
  split; [exact Hother |].
  destruct (FunctionConstraints.get (Js.ToString fn) (functionConstraints s'))
    as [rec |]; [| discriminate Hown].
  exists rec. split; [reflexivity |]. cbn in Hown. congruence.
Qed.

End OwnRecord.

(* ================================================================== *)
(** * The further properties on the sample programs *)

Import Samples Esprima FurtherSamples.

Example further_samples_are_sliced :
  Js.substring trim_text (int 19) (int 30) = "s.trim()==u" /\
  Js.substring trim_text (int 36) (int 40) = "y==5" /\
  Js.substring nested_text (int 39) (int 42) = "b<1" /\
  Js.substring nested_text (int 18) (int 46) = "function inner(b){if(b<1){}}" /\
  Js.substring other_text (int 17) (int 34)
  = ("x.indexOf(" ++ dq ++ "b" ++ dq ++ ")==1")%string /\
  Js.substring this_text (int 19) (int 39)
  = ("this.indexOf(" ++ dq ++ "b" ++ dq ++ ")==1")%string /\
  Js.substring literal_text (int 16) (int 34) = "fs.readFileSync(1)" /\
  tokens_agree expression_text expression_tokens = true.
Proof. repeat split. Qed.

(** The call [fs.readdirSync(dir)] of [fileTest]. *)
Lemma readdirSync_pushes_two_per_position_witness :
  visit_pushes subject_text (VStr "fileTest") [VStr "dir"; VStr "filePath"]
    subject_readdir_call
    (declared (VStr "fileTest") [VStr "dir"; VStr "filePath"]
       FunctionConstraints.empty seed)
    seed "dir"
    [constraint (VStr "fileTest") (VStr "dir") (Text "'emptyDir'") fileExists
       VUndefined "fs.readdirSync(dir)";
     constraint (VStr "fileTest") (VStr "dir") (Text "'nonEmptyDir'") fileExists
       VUndefined "fs.readdirSync(dir)"].
Proof.
  apply (readdirSync_pushes_two_per_position subject_text (VStr "fileTest")
           [VStr "dir"; VStr "filePath"] subject_readdir_call
           (VArr [Identifier "dir" 47 50]) (Identifier "dir" 47 50) VUndefined
           (int 32) (int 51) "dir" []).
  - do 2 eexists. repeat split.
  - reflexivity.
  - reflexivity.
  - left. reflexivity.
  - reflexivity.
  - reflexivity.
  - reflexivity.
  - repeat constructor; cbn; intuition discriminate.
Defined.

(** The comparison [q==undefined] of [inc]: the right-hand side is no
    quoted text. *)
Lemma equality_on_parameter_pushes_text_and_sentinel_witness :
  visit_pushes inc_text (VStr "inc") [VStr "p"; VStr "q"] inc_q_test
    (declared (VStr "inc") [VStr "p"; VStr "q"] FunctionConstraints.empty seed)
    seed "q"
    [constraint (VStr "inc") (VStr "q") (Text "undefined") integer (VStr "==")
       "q==undefined";
     constraint (VStr "inc") (VStr "q") (Number NaN) integer (VStr "==")
       "q==undefined"].
Proof.
  apply (equality_on_parameter_pushes_text_and_sentinel inc_text (VStr "inc")
           [VStr "p"; VStr "q"] inc_q_test (Identifier "q" 21 22)
           (Identifier "undefined" 24 33) (int 21) (int 33) (int 24) (int 33)
           "==" "q" []).
  - repeat split.
  - reflexivity.
  - split; reflexivity.
  - right. left. reflexivity.
  - reflexivity.
Defined.


(** The comparison [s.trim()==u]. *)
Lemma method_call_without_argument_raises_witness :
  visit_child trim_text (VStr "t") [VStr "s"; VStr "u"] trim_test
    (declared (VStr "t") [VStr "s"; VStr "u"] FunctionConstraints.empty seed)
  = Throw TypeError.
Proof.
  apply (method_call_without_argument_raises trim_text (VStr "t")
           [VStr "s"; VStr "u"] trim_test trim_call (Identifier "u" 29 30)
           (MemberExpression (Identifier "s" 19 20) (Identifier "trim" 21 25)
              19 25)
           (VArr []) (int 19) (int 30) (int 29) (int 30) "==").
  - repeat split.
  - reflexivity.
  - reflexivity.
  - reflexivity.
  - reflexivity.
  - reflexivity.
  - reflexivity.
Defined.

(** The statement [if(p<32){}] of [inc]. *)
Lemma other_nodes_are_left_alone_witness :
  visit_child inc_text (VStr "inc") [VStr "p"; VStr "q"]
    (IfStatement inc_p_test (BlockStatement [] 44 46) 36 46)
    (declared (VStr "inc") [VStr "p"; VStr "q"] FunctionConstraints.empty seed)
  = Ok (tt, declared (VStr "inc") [VStr "p"; VStr "q"] FunctionConstraints.empty
              seed).
Proof.
  apply (other_nodes_are_left_alone inc_text (VStr "inc") [VStr "p"; VStr "q"]
           (IfStatement inc_p_test (BlockStatement [] 44 46) 36 46)
           (VStr "IfStatement")); reflexivity.
Defined.

(** The comparison [y==5] in a function of two parameters. *)
Lemma comparison_of_other_identifier_is_left_alone_witness :
  visit_child trim_text (VStr "t") [VStr "s"; VStr "u"] trim_y_test
    (declared (VStr "t") [VStr "s"; VStr "u"] FunctionConstraints.empty seed)
  = Ok (tt, declared (VStr "t") [VStr "s"; VStr "u"] FunctionConstraints.empty
              seed).
Proof.
  apply (comparison_of_other_identifier_is_left_alone trim_text (VStr "t")
           [VStr "s"; VStr "u"] trim_y_test (Identifier "y" 36 37) (VStr "y")
           (Literal (VNum (Int 5)) "5" 39 40) (int 36) (int 40) (int 39) (int 40)
           "==").
  - repeat split.
  - split; reflexivity.
  - reflexivity.
  - right. split; [reflexivity | cbn; lia].
Defined.

(** The call [fs.readFileSync(1)] in a function whose parameter has a
    default value, and the call [fs.readFileSync()] in [function h(p)]. *)
Lemma file_call_on_other_argument_witness :
  visit_pushes literal_text (VStr "h") [VUndefined] literal_call
    (declared (VStr "h") [VUndefined] FunctionConstraints.empty seed)
    seed "undefined"
    [constraint (VStr "h") VUndefined (Text "'pathContent/file1'")
       fileWithContent VUndefined "fs.readFileSync(1)";
     constraint (VStr "h") VUndefined (Text "'pathContent/someDir'")
       fileWithContent VUndefined "fs.readFileSync(1)";
     constraint (VStr "h") VUndefined (Text "'file'")
       fileExists VUndefined "fs.readFileSync(1)"] /\
  visit_child noargs_text (VStr "h") [VStr "p"] noargs_call
    (declared (VStr "h") [VStr "p"] FunctionConstraints.empty seed)
  = Throw TypeError.
Proof.
  split.
  - apply (proj1 (proj2
             (file_call_on_other_argument literal_text (VStr "h") [VUndefined]
                literal_call (VArr [Literal (VNum (Int 1)) "1" 32 33])
                (int 16) (int 34) "readFileSync"
                (declared (VStr "h") [VUndefined] FunctionConstraints.empty seed)
                (or_introl eq_refl)
                (ex_intro _ _ (ex_intro _ _
                   (conj eq_refl (conj eq_refl (conj eq_refl
                      (conj eq_refl (conj eq_refl eq_refl)))))))
                eq_refl))
             (Literal (VNum (Int 1)) "1" 32 33) VUndefined VUndefined []);
      reflexivity.
  - apply (proj2 (proj2
             (file_call_on_other_argument noargs_text (VStr "h") [VStr "p"]
                noargs_call (VArr []) (int 14) (int 31) "readFileSync"
                (declared (VStr "h") [VStr "p"] FunctionConstraints.empty seed)
                (or_introl eq_refl)
                (ex_intro _ _ (ex_intro _ _
                   (conj eq_refl (conj eq_refl (conj eq_refl
                      (conj eq_refl (conj eq_refl eq_refl)))))))
                eq_refl))).
    reflexivity.
Defined.

(** The walk of [inc], started with one constraint already filed for [p]:
    the constraint is still first in its list. *)
Lemma inner_walk_only_appends_witness :
  let c0 := constraint (VStr "inc") (VStr "p") False_ Kstring VUndefined "earlier" in
  let s0 :=
    {| functionConstraints :=
         FunctionConstraints.new
           [("inc", FunctionRecord.new [("p", [c0]); ("q", [])]
                      [VStr "p"; VStr "q"])] None;
       rand := seed |} in
  exists s' l',
    traverse inc_f (visit_child inc_text (VStr "inc") [VStr "p"; VStr "q"]) s0
    = Ok (tt, s') /\
    FunctionConstraints.constraints_of "inc" "p" (functionConstraints s')
    = Some ([c0] ++ l').
Proof.
  intros c0 s0.
  assert (E : exists s',
             traverse inc_f (visit_child inc_text (VStr "inc") [VStr "p"; VStr "q"])
               s0 = Ok (tt, s'))
    by (eexists; vm_compute; reflexivity).
  destruct E as [s' E].
  destruct (proj2 (inner_walk_only_appends inc_text (VStr "inc")
                     [VStr "p"; VStr "q"])
              inc_f s0 s' E "inc" "p" [c0] eq_refl) as [l' Hl'].
  exists s', l'. split; [exact E | exact Hl'].
Defined.

(** The sample subject. *)
Lemma constraints_are_filed_under_their_names_witness :
  exists fc r', constraints "subject.js" seed = Ok (fc, r') /\ stamped fc.
Proof.
  assert (E : exists p, constraints "subject.js" seed = Ok p)
    by (eexists; vm_compute; reflexivity).
  destruct E as [[fc r'] E].
  exists fc, r'. split; [exact E |].
  exact (constraints_are_filed_under_their_names "subject.js" seed r' fc E).
Defined.

(** The comparison [area=="212"] of [blackListNumber] draws once; the
    comparison [p<32] of [inc] does not draw. *)
Lemma visit_draws_at_most_once_witness :
  (exists s',
      visit_child subject_text (VStr "blackListNumber") [VStr "phoneNumber"]
        subject_area_test
        (declared (VStr "blackListNumber") [VStr "phoneNumber"]
           FunctionConstraints.empty seed) = Ok (tt, s') /\
      (rand s' = seed \/ rand s' = seed_after)) /\
  (exists s',
      visit_child inc_text (VStr "inc") [VStr "p"; VStr "q"] inc_p_test
        (declared (VStr "inc") [VStr "p"; VStr "q"] FunctionConstraints.empty seed)
      = Ok (tt, s') /\
      rand s' = seed).
Proof.
  split.
  - assert (E : exists s',
               visit_child subject_text (VStr "blackListNumber")
                 [VStr "phoneNumber"] subject_area_test
                 (declared (VStr "blackListNumber") [VStr "phoneNumber"]
                    FunctionConstraints.empty seed) = Ok (tt, s'))
      by (eexists; vm_compute; reflexivity).
    destruct E as [s' E]. exists s'. split; [exact E |].
    destruct (visit_draws_at_most_once subject_text (VStr "blackListNumber")
                [VStr "phoneNumber"] subject_area_test _ s' E)
      as [H | [_ [_ H]]].
    + left. exact H.
    + right. exact H.
  - assert (E : exists s',
               visit_child inc_text (VStr "inc") [VStr "p"; VStr "q"] inc_p_test
                 (declared (VStr "inc") [VStr "p"; VStr "q"]
                    FunctionConstraints.empty seed) = Ok (tt, s'))
      by (eexists; vm_compute; reflexivity).
    destruct E as [s' E]. exists s'. split; [exact E |].
    destruct (visit_draws_at_most_once inc_text (VStr "inc")
                [VStr "p"; VStr "q"] inc_p_test _ s' E)
      as [H | [Hlen _]].
    + exact H.
    + discriminate Hlen.
Defined.

(** The comparison [p<32] of [inc] is matched by the relational recognizer
    and by no other. *)
Lemma at_most_one_recognizer_matches_witness :
  entered Relational inc_p_test = Some true /\
  forall rec, entered rec inc_p_test = Some true -> Relational = rec.
Proof.
  assert (E : exists s',
             run Relational inc_text (VStr "inc") [VStr "p"; VStr "q"] inc_p_test
               (declared (VStr "inc") [VStr "p"; VStr "q"]
                  FunctionConstraints.empty seed) = Ok (tt, s') /\
             s' <> declared (VStr "inc") [VStr "p"; VStr "q"]
                     FunctionConstraints.empty seed)
    by (eexists; split; [vm_compute; reflexivity | vm_compute; discriminate]).
  destruct E as [s' [E Hne]].
  assert (H := proj1 at_most_one_recognizer_matches Relational inc_text
                 (VStr "inc") [VStr "p"; VStr "q"] inc_p_test _ s' E Hne).
  split; [exact H |].
  intros rec. exact (proj2 at_most_one_recognizer_matches Relational rec inc_p_test H).
Defined.

(** The function [f] of [twice.js], visited with a record already filed
    under its name. *)
Lemma earlier_record_is_replaced_witness :
  visit_node twice_text twice_f
    (with_constraints
       {| functionConstraints := FunctionConstraints.empty; rand := seed |}
       (FunctionConstraints.set "f"
          (FunctionRecord.new [("x", [])] [VStr "x"]) FunctionConstraints.empty))
  = visit_node twice_text twice_f
      {| functionConstraints := FunctionConstraints.empty; rand := seed |}.
Proof.
  apply (earlier_record_is_replaced twice_text twice_f "f"
           (FunctionRecord.new [("x", [])] [VStr "x"])
           {| functionConstraints := FunctionConstraints.empty; rand := seed |}).
  reflexivity.
Defined.

(** The sample subject: two declarations, two records. *)
Lemma result_functions_are_the_declarations_witness :
  exists fc r',
    constraints "subject.js" seed = Ok (fc, r') /\
    FunctionConstraints.get "fileTest" fc <> None /\
    FunctionConstraints.get "blackListNumber" fc <> None.
Proof.
  assert (E : exists p, constraints "subject.js" seed = Ok p)
    by (eexists; vm_compute; reflexivity).
  destruct E as [[fc r'] E].
  assert (H := result_functions_are_the_declarations "subject.js" subject_text
                 subject_tree seed r' fc eq_refl eq_refl E).
  exists fc, r'. split; [exact E |]. split.
  - apply (proj1 (H "fileTest")). exists subject_fileTest.
    split; [| reflexivity].
    apply (proj1 (filter_In (fun n => match declared_key n with
                                      | Some "fileTest" => true
                                      | _ => false
                                      end)
                            subject_fileTest (nodes subject_tree))).
    vm_compute. left. reflexivity.
  - apply (proj1 (H "blackListNumber")). exists subject_blackListNumber.
    split; [| reflexivity].
    apply (proj1 (filter_In (fun n => match declared_key n with
                                      | Some "blackListNumber" => true
                                      | _ => false
                                      end)
                            subject_blackListNumber (nodes subject_tree))).
    vm_compute. left. reflexivity.
Defined.

(** The walk of [outer] covers the walk of [inner], which it contains. *)
Lemma walk_covers_nested_walks_witness :
  exists s',
    traverse nested_outer (visit_child nested_text (VStr "outer") [VStr "a"])
      (declared (VStr "outer") [VStr "a"] FunctionConstraints.empty seed)
    = Ok (tt, s') /\
    for_each (nodes nested_outer)
      (visit_child nested_text (VStr "outer") [VStr "a"])
      (declared (VStr "outer") [VStr "a"] FunctionConstraints.empty seed)
    = Ok (tt, s') /\
    (exists before after,
        nodes nested_outer = before ++ nodes nested_inner ++ after) /\
    In nested_test (nodes nested_inner) /\
    exists s1 s2,
      visit_child nested_text (VStr "outer") [VStr "a"] nested_test s1
      = Ok (tt, s2).
Proof.
  assert (E : exists s',
             traverse nested_outer
               (visit_child nested_text (VStr "outer") [VStr "a"])
               (declared (VStr "outer") [VStr "a"] FunctionConstraints.empty seed)
             = Ok (tt, s'))
    by (eexists; vm_compute; reflexivity).
  destruct E as [s' E]. exists s'. split; [exact E |].
  assert (Hin : In nested_test (nodes nested_inner)).
  { apply (proj1 (filter_In (fun n => Js.is_text (lodash_get n ["type"])
                                         "BinaryExpression")
                            nested_test (nodes nested_inner))).
    vm_compute. left. reflexivity. }
  assert (Hinner : In nested_inner (nodes nested_outer)).
  { apply (proj1 (filter_In (fun n => match declared_key n with
                                      | Some "inner" => true
                                      | _ => false
                                      end)
                            nested_inner (nodes nested_outer))).
    vm_compute. left. reflexivity. }
  destruct (walk_covers_nested_walks
              (visit_child nested_text (VStr "outer") [VStr "a"]) nested_outer)
    as [Hloop [_ Hnested]].
  destruct (Hnested nested_inner Hinner) as [Hrun Hall].
  split; [rewrite <- Hloop; exact E |].
  split; [exact Hrun |].
  split; [exact Hin |].
  exact (proj1 (Forall_forall _ _) (Hall _ s' E) nested_test Hin).
Defined.

(** The text of three digits in double quotes, as it stands in the sample
    subject. *)
Lemma quoted_pattern_captures_inner_text_witness :
  RegExp.match_ RegExp.quoted (dq ++ "212" ++ dq) = Some (Some "212") /\
  Js.match_quoted (dq ++ "212" ++ dq) = Some "212" /\
  exists q q' inner,
    Some "212" = Some inner /\
    JsString.is_quote q = true /\ JsString.is_quote q' = true /\
    forallb RegExp.dot (JsString.chars inner) = true /\
    (dq ++ "212" ++ dq)%string = String q (inner ++ String q' EmptyString).
Proof.
  assert (H : RegExp.match_ RegExp.quoted (dq ++ "212" ++ dq) = Some (Some "212")).
  { apply (proj1 quoted_pattern_captures_inner_text "034"%char "034"%char "212");
      reflexivity. }
  split; [exact H |]. split.
  - exact (proj2 (proj2 (proj2 quoted_pattern_captures_inner_text) _ _) H).
  - exact (proj1 (proj2 quoted_pattern_captures_inner_text) _ _ H).
Defined.

(** The comparison of [x.indexOf] with 1 in [function k(a)]. *)
Lemma method_call_on_other_object_witness :
  visit_child other_text (VStr "k") [VStr "a"] other_test
    (declared (VStr "k") [VStr "a"] FunctionConstraints.empty seed)
  = Ok (tt, declared (VStr "k") [VStr "a"] FunctionConstraints.empty seed).
Proof.
  apply (method_call_on_other_object other_text (VStr "k") [VStr "a"]
           other_test other_call (Literal (VNum (Int 1)) "1" 33 34)
           (MemberExpression (Identifier "x" 17 18)
              (Identifier "indexOf" 19 26) 17 26)
           (Identifier "x" 17 18) (VStr "x")
           (VArr [Literal (VStr "b") (dq ++ "b" ++ dq) 27 30])
           (Literal (VStr "b") (dq ++ "b" ++ dq) 27 30) (VStr "b")
           (int 17) (int 34) (int 33) (int 34) "==" 1%Z
           (declared (VStr "k") [VStr "a"] FunctionConstraints.empty seed)
           (conj eq_refl (conj eq_refl (conj eq_refl
              (conj eq_refl (conj eq_refl eq_refl)))))
           eq_refl eq_refl eq_refl eq_refl eq_refl eq_refl eq_refl eq_refl
           eq_refl eq_refl eq_refl).
  vm_compute. discriminate.
Defined.

(** The subject [var f=function(x){if(x<1){}}]. *)
Lemma no_declaration_gives_empty_result_witness :
  @constraints expression_host "expression.js" seed
  = Ok (FunctionConstraints.empty, seed).
Proof.
  apply (@no_declaration_gives_empty_result expression_host "expression.js"
           expression_text expression_tree seed).
  - reflexivity.
  - reflexivity.
  - reflexivity.
  - intros node ty Hin Hty.
    assert (Hf : In node
                   (filter (fun n => Js.is_text (lodash_get n ["type"])
                                       "FunctionDeclaration")
                           (nodes expression_tree)) -> False)
      by (vm_compute; tauto).
    destruct (Js.is_text ty "FunctionDeclaration") eqn:E; [| reflexivity].
    exfalso. apply Hf. apply filter_In. split; [exact Hin |].
    now rewrite (lodash_get_field node "type" ty [] Hty).
Defined.

(** The subject [broken.js]. *)
Lemma walk_raises_type_or_range_error_witness :
  exists e, constraints "broken.js" seed = Throw e /\
            (e = TypeError \/ e = RangeError).
Proof.
  assert (E : exists e, constraints "broken.js" seed = Throw e)
    by (eexists; vm_compute; reflexivity).
  destruct E as [e E]. exists e. split; [exact E |].
  exact (walk_raises_type_or_range_error "broken.js" broken_text broken_tree seed e
           eq_refl eq_refl E).
Defined.

(** The visit of [blackListNumber] after [fileTest] has been filed. *)
Lemma function_walk_keeps_other_records_witness :
  exists s',
    visit_node subject_text subject_blackListNumber
      (declared (VStr "fileTest") [VStr "dir"; VStr "filePath"]
         FunctionConstraints.empty seed) = Ok (tt, s') /\
    FunctionConstraints.get "fileTest" (functionConstraints s')
    = Some (FunctionRecord.new [("dir", []); ("filePath", [])]
              [VStr "dir"; VStr "filePath"]).
Proof.
  assert (E : exists s',
             visit_node subject_text subject_blackListNumber
               (declared (VStr "fileTest") [VStr "dir"; VStr "filePath"]
                  FunctionConstraints.empty seed) = Ok (tt, s'))
    by (eexists; vm_compute; reflexivity).
  destruct E as [s' E]. exists s'. split; [exact E |].
  assert (H := function_walk_keeps_other_records subject_text
                 subject_blackListNumber _ s' E).
  assert (K : declared_key subject_blackListNumber = Some "blackListNumber")
    by reflexivity.
  rewrite K in H. destruct H as [Hother _].
  rewrite (Hother "fileTest"); [reflexivity | discriminate].
Defined.
